(** * Select AI pipeline: the SQL sanitizer [clean_sql] and the executor
      [vision_execute] of [pipeline_selectai.py]

    The sanitizer is ninety lines of [re] calls and string slicing.  It is
    embedded here as executable functions over Python strings, every regular
    expression of the source being written with a small set of backtracking
    combinators, so that each pattern can be read next to its source text.

    Text model.  A Python [str] is a [list ascii]; every character stands
    for the code point of the same number (0..255).  The character classes
    below are Python's Unicode tables restricted to that range. *)

From Stdlib Require Import Ascii String List Bool Arith NArith Lia.
Import ListNotations.

Set Implicit Arguments.

Local Open Scope char_scope.
Local Open Scope list_scope.

(** ** Python strings *)

Definition str := list ascii.

(** String literals of the source are written ["..."%string] and coerced. *)
Definition lit (s : string) : str := list_ascii_of_string s.
Coercion lit : string >-> str.

Definition code (c : ascii) : N := N_of_ascii c.

Definition between (lo hi : N) (c : ascii) : bool :=
  ((lo <=? code c) && (code c <=? hi))%N.

(** [str.isspace], also the class [\s] of [re] on [str] patterns. *)
Definition isspace (c : ascii) : bool :=
  between 9 13 c || between 28 32 c || (code c =? 133)%N || (code c =? 160)%N.

Definition is_upper_az (c : ascii) : bool := between 65 90 c.
Definition is_lower_az (c : ascii) : bool := between 97 122 c.
Definition is_digit (c : ascii) : bool := between 48 57 c.

(** The class [\w] of [re] on [str] patterns: [ch.isalnum() or ch == '_']. *)
Definition isword (c : ascii) : bool :=
  is_upper_az c || is_lower_az c || is_digit c || (code c =? 95)%N
  || (code c =? 170)%N || (code c =? 178)%N || (code c =? 179)%N
  || (code c =? 181)%N || (code c =? 185)%N || (code c =? 186)%N
  || between 188 190 c || between 192 214 c || between 216 246 c
  || between 248 255 c.

(** Case folding of the letters A-Z.  No other character below 256 has a
    lower case form among a-z, so this decides [re.IGNORECASE] for the
    patterns of the source, all of whose literals are ASCII. *)
Definition lower_az (c : ascii) : ascii :=
  if is_upper_az c then ascii_of_N (code c + 32) else c.

(** [str.upper] on the characters the sanitizer applies it to: the
    identifier characters (letters, digits, underscore, double quote,
    dot) captured by the FROM/JOIN pattern. *)
Definition upper_az (c : ascii) : ascii :=
  if is_lower_az c then ascii_of_N (code c - 32) else c.

Definition upper (s : str) : str := map upper_az s.

Definition eqc (a b : ascii) : bool := Ascii.eqb a b.
Definition eqc_ci (a b : ascii) : bool := Ascii.eqb (lower_az a) (lower_az b).

Fixpoint str_eqb (a b : str) : bool :=
  match a, b with
  | [], [] => true
  | x :: a', y :: b' => eqc x y && str_eqb a' b'
  | _, _ => false
  end.

Fixpoint dropwhile (f : ascii -> bool) (s : str) : str :=
  match s with
  | [] => []
  | c :: r => if f c then dropwhile f r else s
  end.

(** [s.lstrip(chars)], [s.rstrip(chars)], [s.strip(chars)] for a class. *)
Definition lstrip_by (f : ascii -> bool) (s : str) : str := dropwhile f s.
Definition rstrip_by (f : ascii -> bool) (s : str) : str :=
  rev (dropwhile f (rev s)).
Definition strip_by (f : ascii -> bool) (s : str) : str :=
  rstrip_by f (lstrip_by f s).

(** [s.strip()] *)
Definition strip (s : str) : str := strip_by isspace s.

(** [s.split(sep)] for a one character separator. *)
Fixpoint split (sep : ascii) (s : str) : list str :=
  match s with
  | [] => [[]]
  | c :: r =>
      if eqc c sep then [] :: split sep r
      else match split sep r with
           | p :: ps => (c :: p) :: ps
           | [] => [[c]]
           end
  end.

(** [sep.join(parts)] *)
Fixpoint join (sep : str) (parts : list str) : str :=
  match parts with
  | [] => []
  | [p] => p
  | p :: ps => p ++ sep ++ join sep ps
  end.

(** Truth value of a string: [if p]. *)
Definition truthy (s : str) : bool :=
  match s with [] => false | _ :: _ => true end.

(** [s[i:j]] for in-range bounds. *)
Definition slice (i j : nat) (s : str) : str := firstn (j - i) (skipn i s).

(** ** Regular expressions

    A matcher runs at one position of the subject: it sees the character
    before the position ([None] at the start of the string), the number of
    characters consumed so far and the remaining text, and hands these to
    its continuation.  A [None] from the continuation makes the node try its
    next alternative, which is how [re] backtracks. *)

Module Re.

Section Nodes.
Variable A : Type.

Definition cont := option ascii -> nat -> str -> option A.
Definition node := cont -> cont.

Definition orelse (x y : option A) : option A :=
  match x with Some _ => x | None => y end.

(** one character of a class *)
Definition chr (f : ascii -> bool) : node := fun k _ n s =>
  match s with
  | c :: r => if f c then k (Some c) (S n) r else None
  | [] => None
  end.

(** a literal, compared with [eq] character by character *)
Fixpoint text (eq : ascii -> ascii -> bool) (p : str) : node :=
  match p with
  | [] => fun k => k
  | a :: p' => fun k => chr (eq a) (text eq p' k)
  end.

Definition opt_word (c : option ascii) : bool :=
  match c with Some x => isword x | None => false end.

(** [\b] *)
Definition wordb : node := fun k prev n s =>
  if xorb (opt_word prev) (opt_word (hd_error s)) then k prev n s else None.

(** [^] without MULTILINE *)
Definition bol : node := fun k prev n s =>
  match prev with None => k prev n s | Some _ => None end.

(** [$] without MULTILINE: at the end, or before a final newline *)
Definition eol : node := fun k prev n s =>
  match s with
  | [] => k prev n s
  | [c] => if eqc c "010" then k prev n s else None
  | _ => None
  end.

(** [x?], greedy *)
Definition opt (x : node) : node := fun k prev n s =>
  orelse (x k prev n s) (k prev n s).

(** [x|y] *)
Definition alt (x y : node) : node := fun k prev n s =>
  orelse (x k prev n s) (y k prev n s).

(** [[class]*], greedy: the longest run first, then shorter ones *)
Fixpoint star (f : ascii -> bool) (k : cont) (prev : option ascii)
    (n : nat) (s : str) {struct s} : option A :=
  match s with
  | c :: r =>
      if f c then orelse (star f k (Some c) (S n) r) (k prev n s)
      else k prev n s
  | [] => k prev n s
  end.

(** [[class]+], greedy *)
Definition plus (f : ascii -> bool) : node := fun k => chr f (star f k).

(** [[class]*?], lazy: the shortest run first *)
Fixpoint lazy_star (f : ascii -> bool) (k : cont) (prev : option ascii)
    (n : nat) (s : str) {struct s} : option A :=
  orelse (k prev n s)
    (match s with
     | c :: r => if f c then lazy_star f k (Some c) (S n) r else None
     | [] => None
     end).

(** alternation of literals, in the order written *)
Fixpoint words (eq : ascii -> ascii -> bool) (ws : list str) : node :=
  match ws with
  | [] => fun _ _ _ _ => None
  | w :: ws' => alt (text eq w) (words eq ws')
  end.
End Nodes.

(** A pattern is a matcher at a position: previous character and remaining
    text to the outcome of the match there. *)
Definition pattern (A : Type) := option ascii -> str -> option A.

(** the final continuation: report the length of the match *)
Definition fin : cont nat := fun _ n _ => Some n.

Definition run (x : node nat) : pattern nat := fun prev s => x fin prev 0 s.

Section Scan.
Variable A : Type.
Variable p : pattern A.

(** [re.search]: the leftmost position with a match, and the match. *)
Fixpoint search_from (prev : option ascii) (i : nat) (s : str)
    : option (nat * A) :=
  match p prev s with
  | Some a => Some (i, a)
  | None =>
      match s with
      | [] => None
      | c :: r => search_from (Some c) (S i) r
      end
  end.

Definition search (s : str) : option (nat * A) := search_from None 0 s.

Definition found (s : str) : bool :=
  match search s with Some _ => true | None => false end.
End Scan.

(** Scanning for successive matches.  [skip] counts the characters of the
    last match still to be passed over.  Every pattern given to [sub] and
    [findall] here contains a literal, so a match is never empty; the
    branch for a length of zero is not reached. *)
Section Replace.
Variable p : pattern nat.
Variable repl : str.

(** [re.sub(p, repl, s)] for a replacement free of backslashes *)
Fixpoint sub_from (skip : nat) (prev : option ascii) (s : str) : str :=
  match s with
  | [] => []
  | c :: r =>
      match skip with
      | S k => sub_from k (Some c) r
      | 0 =>
          match p prev s with
          | Some (S k) => repl ++ sub_from k (Some c) r
          | _ => c :: sub_from 0 (Some c) r
          end
      end
  end.

Definition sub (s : str) : str := sub_from 0 None s.

(** [re.sub(p, repl, s, count=1)] *)
Definition sub1 (s : str) : str :=
  match search p s with
  | Some (i, n) => firstn i s ++ repl ++ skipn (i + n) s
  | None => s
  end.
End Replace.

Section Expand.
Variable p : pattern nat.
(** what a match is replaced with, given the text matched *)
Variable repl : str -> str.

(** [re.sub(p, template, s)] for a template that refers to the match *)
Fixpoint sub_with_from (skip : nat) (prev : option ascii) (s : str) : str :=
  match s with
  | [] => []
  | c :: r =>
      match skip with
      | S k => sub_with_from k (Some c) r
      | 0 =>
          match p prev s with
          | Some (S k) => repl (firstn (S k) s) ++ sub_with_from k (Some c) r
          | _ => c :: sub_with_from 0 (Some c) r
          end
      end
  end.

Definition sub_with (s : str) : str := sub_with_from 0 None s.
End Expand.

Section Findall.
Variable A : Type.
(** the pattern reports the length of the match and what it captured *)
Variable p : pattern (nat * A).

Fixpoint findall_from (skip : nat) (prev : option ascii) (s : str)
    : list A :=
  match s with
  | [] => []
  | c :: r =>
      match skip with
      | S k => findall_from k (Some c) r
      | 0 =>
          match p prev s with
          | Some (S k, a) => a :: findall_from k (Some c) r
          | _ => findall_from 0 (Some c) r
          end
      end
  end.

Definition findall (s : str) : list A := findall_from 0 None s.
End Findall.

End Re.

(** composition of pattern nodes, left to right *)
Notation "x >> y" := (fun k => x (y k))
  (at level 61, left associativity, only parsing).

(** ** Outcomes

    The messages of the source are Korean literals; they are kept as
    constructors, the argument being the text interpolated into them:
    - [MsgEmptySql]: "SQL이 비어 있습니다." (line 116);
    - [MsgForbidden]: "DML/DDL 문장은 허용되지 않습니다." (line 129);
    - [MsgTableNotAllowed obj]:
      "허용되지 않은 테이블이 포함되어 있습니다: " followed by obj (line 136);
    - [MsgOracleError m]: "Oracle DB 오류 발생: " followed by m (line 193);
    - [MsgGeneralError m]: "일반 오류 발생: " followed by m (line 197);
    - [MsgExternal text]: the text of an exception raised by the database
      driver, the operating system or the interpreter;
    - [MsgTemplate t]: the text of the exception [re.sub] raises when it
      cannot read [t] as a replacement template. *)

Inductive message : Type :=
| MsgEmptySql
| MsgForbidden
| MsgTableNotAllowed (obj : str)
| MsgExternal (text : str)
| MsgOracleError (m : message)
| MsgGeneralError (m : message)
| MsgTemplate (t : str).

(** The exceptions the functions meet: [ValueError], [oracledb.Error] and
    its subclasses, and any other subclass of [Exception], such as
    [re.error], [IndexError], [AttributeError] and [OSError]. *)
Inductive exn : Type :=
| ValueError (m : message)
| OracleError (m : message)
| OtherError (m : message).

(** [str(e)] *)
Definition str_of_exn (e : exn) : message :=
  match e with ValueError m | OracleError m | OtherError m => m end.

Inductive result (A : Type) : Type :=
| Return (a : A)
| Raise (e : exn).
Arguments Return {A} a.
Arguments Raise {A} e.

(** ** Replacement templates

    [re.sub] reads a replacement that holds a backslash as a template,
    before it looks for a match: a backslash and the character after it
    are one token, which names a character, a group of the match, or
    nothing, and then the call raises.  The reading below is the one of
    [parse_template] in CPython 3.7 to 3.11, for a pattern without groups;
    from 3.12 on the name between the brackets of a group reference must
    be made of digits only. *)

(** what a template puts out: a character, or the text matched *)
Inductive piece : Type :=
| Lit (c : ascii)
| Whole.

(** reading the name of a group reference as [int] does: white space,
    a sign, digits with single underscores between them, white space *)
Inductive name_state : Type :=
| NStart
| NSign
| NZero
| NUnder
| NEnd.

Inductive template_state : Type :=
| Plain
(** after a backslash *)
| Escape
(** after a backslash and 0: the value so far, and whether two more octal
    digits may follow or one *)
| Octal (v : N) (two : bool)
(** after a backslash and one, or two, digits that do not start with 0 *)
| Digit (d : ascii)
| Digits (d1 d2 : ascii)
(** after a backslash and g *)
| Group
(** after the opening bracket of a group reference *)
| Name (st : name_state).

Definition is_octal (c : ascii) : bool := between 48 55 c.
Definition digit_value (c : ascii) : N := (code c - 48)%N.
Definition is_letter (c : ascii) : bool := is_upper_az c || is_lower_az c.

(** the escapes that stand for one character *)
Definition escape_char (c : ascii) : option ascii :=
  if eqc c "a" then Some "007"
  else if eqc c "b" then Some "008"
  else if eqc c "f" then Some "012"
  else if eqc c "n" then Some "010"
  else if eqc c "r" then Some "013"
  else if eqc c "t" then Some "009"
  else if eqc c "v" then Some "011"
  else if eqc c "\" then Some "\"
  else None.

(** one more character of the name of a group reference; the pattern has
    no group but group 0, the whole match, so the name must read as zero *)
Definition name_step (st : name_state) (c : ascii) : option name_state :=
  match st with
  | NStart =>
      if isspace c then Some NStart
      else if eqc c "+" || eqc c "-" then Some NSign
      else if eqc c "0" then Some NZero
      else None
  | NSign | NUnder => if eqc c "0" then Some NZero else None
  | NZero =>
      if eqc c "0" then Some NZero
      else if eqc c "_" then Some NUnder
      else if isspace c then Some NEnd
      else None
  | NEnd => if isspace c then Some NEnd else None
  end.

(** the template read from state [st] on; [None] when [re.sub] raises *)
Fixpoint parse_template (st : template_state) (t : str)
    : option (list piece) :=
  match t with
  | [] =>
      match st with
      | Plain => Some []
      | Octal v _ => Some [Lit (ascii_of_N v)]
      | _ => None
      end
  | c :: r =>
      let plain :=
        if eqc c "\" then parse_template Escape r
        else option_map (cons (Lit c)) (parse_template Plain r) in
      match st with
      | Plain => plain
      | Escape =>
          if eqc c "g" then parse_template Group r
          else if eqc c "0" then parse_template (Octal 0 true) r
          else if is_digit c then parse_template (Digit c) r
          else
            match escape_char c with
            | Some x => option_map (cons (Lit x)) (parse_template Plain r)
            | None =>
                if is_letter c then None
                else option_map (fun l => Lit "\" :: Lit c :: l)
                       (parse_template Plain r)
            end
      | Octal v two =>
          if is_octal c then
            let v' := (8 * v + digit_value c)%N in
            if two then parse_template (Octal v' false) r
            else option_map (cons (Lit (ascii_of_N v')))
                   (parse_template Plain r)
          else option_map (cons (Lit (ascii_of_N v))) plain
      | Digit d => if is_digit c then parse_template (Digits d c) r else None
      | Digits d1 d2 =>
          if is_octal d1 && is_octal d2 && is_octal c then
            let v := (64 * digit_value d1 + 8 * digit_value d2
                      + digit_value c)%N in
            if (v <=? 255)%N
            then option_map (cons (Lit (ascii_of_N v)))
                   (parse_template Plain r)
            else None
          else None
      | Group => if eqc c "<" then parse_template (Name NStart) r else None
      | Name st' =>
          if eqc c ">" then
            match st' with
            | NZero | NEnd => option_map (cons Whole) (parse_template Plain r)
            | _ => None
            end
          else
            match name_step st' c with
            | Some st'' => parse_template (Name st'') r
            | None => None
            end
      end
  end.

(** what the template puts in place of the match [m] *)
Definition expand (t : list piece) (m : str) : str :=
  flat_map (fun x => match x with Lit c => [c] | Whole => m end) t.

(** ** The sanitizer: [Pipeline.clean_sql] *)

Definition newline : ascii := "010".
Definition dquote : ascii := "034".
Definition anychar (_ : ascii) : bool := true.
Definition not_newline (c : ascii) : bool := negb (eqc c newline).

(** the class of identifier characters, letters, digits, underscore,
    double quote and dot *)
Definition ident_char (c : ascii) : bool :=
  is_upper_az c || is_lower_az c || is_digit c
  || eqc c "_" || eqc c dquote || eqc c ".".

(** the class of everything but a newline and a semicolon *)
Definition order_char (c : ascii) : bool :=
  negb (eqc c newline || eqc c ";").

(** Attributes of the pipeline that [__init__] fixes. *)
Definition META_TBL : str := "AP_HOLDS_ALL"%string.
Definition HOLD_CODES : list str :=
  [lit "QTY ORD"; lit "QTY REC"; lit "PRICE"; lit "AMT ORG"].
Definition FORCE_RELEASE_NULL : bool := true.

(** The schema the generator assumes. *)
Definition SOURCE_SCHEMA : str := "HOL_AGENT_05"%string.

(** line 120: a code fence at the start up to its newline, or a closing
    fence at the end, with DOTALL *)
Definition fence_re : Re.pattern nat :=
  Re.run (Re.alt
    (@Re.bol _ >> Re.text eqc "```"%string >> Re.lazy_star anychar
       >> Re.chr (eqc newline))
    (Re.chr (eqc newline) >> Re.text eqc "```"%string >> @Re.eol _)).

(** line 124: the source schema, quoted or not, and its dot, IGNORECASE *)
Definition schema_re : Re.pattern nat :=
  Re.run (Re.opt (Re.chr (eqc_ci dquote)) >> Re.text eqc_ci SOURCE_SCHEMA
            >> Re.opt (Re.chr (eqc_ci dquote)) >> Re.chr (eqc_ci ".")).

Definition forbidden_keywords : list str :=
  [lit "insert"; lit "update"; lit "delete"; lit "merge"; lit "create";
   lit "alter"; lit "drop"; lit "grant"; lit "revoke"; lit "truncate"].

(** line 128: a forbidden keyword between word boundaries, IGNORECASE *)
Definition forbidden_re : Re.pattern nat :=
  Re.run (@Re.wordb _ >> Re.words eqc_ci forbidden_keywords >> @Re.wordb _).

(** line 132: FROM or JOIN, white space, and the run of identifier
    characters after it, IGNORECASE.  The match yields its length and the
    second group. *)
Definition from_join_re : Re.pattern (nat * str) := fun prev s =>
  (@Re.wordb _ >> Re.words eqc_ci [lit "from"; lit "join"]
     >> Re.plus isspace)
    (fun prev1 n1 s1 =>
       Re.plus ident_char (fun _ n2 _ => Some (n2, slice n1 n2 s)) prev1 n1 s1)
    prev 0 s.

(** line 140: FETCH FIRST and the rest of its line, IGNORECASE *)
Definition fetch_re : Re.pattern nat :=
  Re.run (@Re.wordb _ >> Re.text eqc_ci "FETCH"%string >> Re.plus isspace
            >> Re.text eqc_ci "FIRST"%string >> @Re.wordb _
            >> Re.star not_newline).

(** line 144: ORDER BY up to a newline or a semicolon, IGNORECASE *)
Definition order_re : Re.pattern nat :=
  Re.run (@Re.wordb _ >> Re.text eqc_ci "ORDER"%string >> Re.plus isspace
            >> Re.text eqc_ci "BY"%string >> @Re.wordb _
            >> Re.star order_char).

(** line 150: ORDER BY followed by an identifier character; this pattern
    is compiled without IGNORECASE *)
Definition order_col_re : Re.pattern nat :=
  Re.run (Re.text eqc "ORDER"%string >> Re.plus isspace
            >> Re.text eqc "BY"%string >> Re.plus isspace
            >> Re.chr ident_char).

(** a keyword between word boundaries, IGNORECASE *)
Definition keyword_re (kw : str) : Re.pattern nat :=
  Re.run (@Re.wordb _ >> Re.text eqc_ci kw >> @Re.wordb _).

(** lines 161 and 162: WHERE between word boundaries, IGNORECASE *)
Definition where_re : Re.pattern nat := keyword_re "where"%string.

(** line 115 *)
Definition is_blank (sql : str) : bool :=
  negb (truthy sql) || negb (truthy (strip sql)).

(** line 120 *)
Definition strip_fence (s : str) : str :=
  rstrip_by (eqc ";") (Re.sub fence_re [] s).

(** lines 123 to 125: the schema and a dot are the replacement template *)
Definition rewrite_schema (V_SCHEMA : option str) (s : str) : result str :=
  match V_SCHEMA with
  | Some v =>
      if truthy v then
        match parse_template Plain (v ++ lit ".") with
        | Some t => Return (Re.sub_with schema_re (expand t) s)
        | None => Raise (OtherError (MsgTemplate (v ++ lit ".")))
        end
      else Return s
  | None => Return s
  end.

(** lines 123 to 125 for a schema name without backslash: the template is
    then the replacement itself, the schema and a dot *)
Definition adjust_schema (V_SCHEMA : option str) (s : str) : str :=
  match V_SCHEMA with
  | Some v => if truthy v then Re.sub schema_re (v ++ lit ".") s else s
  | None => s
  end.

(** The statement as the checks of lines 128 and 132 see it, for a schema
    name without backslash. *)
Definition prepare (V_SCHEMA : option str) (sql : str) : str :=
  adjust_schema V_SCHEMA (strip_fence (strip sql)).

(** lines 133 and 134 *)
Definition table_name (obj : str) : str :=
  upper (last (map (strip_by (eqc dquote)) (split "." obj)) []).

(** lines 132 to 136: the first target that is not the allowed table *)
Fixpoint check_tables (objs : list str) : option str :=
  match objs with
  | [] => None
  | obj :: rest =>
      if negb (str_eqb (table_name obj) (upper META_TBL)) then Some obj
      else check_tables rest
  end.

(** lines 139 to 143: the statement before FETCH FIRST, and the clause *)
Definition split_fetch (s : str) : str * str :=
  match Re.search fetch_re s with
  | Some (i, n) => (strip (firstn i s), strip (slice i (i + n) s))
  | None => (s, [])
  end.

(** lines 144 to 147: the statement before ORDER BY, and the clause *)
Definition split_order (s : str) : str * str :=
  match Re.search order_re s with
  | Some (i, n) => (strip (firstn i s), strip (slice i (i + n) s))
  | None => (s, [])
  end.

Definition DEFAULT_ORDER : str :=
  lit "ORDER BY " ++ [dquote] ++ lit "HOLD_DATE" ++ [dquote] ++ lit " ASC".

(** lines 150 and 151 *)
Definition fix_order (order_part : str) : str :=
  if truthy order_part && negb (Re.found order_col_re order_part)
  then DEFAULT_ORDER else order_part.

(** [repr(x)] for a string of printable ASCII characters without quote or
    backslash, as the hold codes are *)
Definition repr (x : str) : str := lit "'" ++ x ++ lit "'".

(** lines 154 to 159 *)
Definition fixed : list str :=
  (if FORCE_RELEASE_NULL then [lit "RELEASE_LOOKUP_CODE IS NULL"] else [])
  ++ (match HOLD_CODES with
      | [] => []
      | _ => [lit "HOLD_LOOKUP_CODE IN (" ++ join (lit ", ") (map repr HOLD_CODES)
                ++ lit ")"]
      end).

(** line 160 *)
Definition inject : str := join (lit " AND ") fixed.

(** lines 161 to 164 *)
Definition inject_where (s : str) : str :=
  if Re.found where_re s
  then Re.sub1 where_re (lit "WHERE " ++ inject ++ lit " AND") s
  else s ++ lit " WHERE " ++ inject.

Definition DEFAULT_FETCH : str := "FETCH FIRST 100 ROWS ONLY"%string.

(** lines 167 and 168 *)
Definition fix_fetch (fetch_part : str) : str :=
  if negb (truthy fetch_part) then DEFAULT_FETCH else fetch_part.

(** line 170 *)
Definition assemble (s order_part fetch_part : str) : str :=
  strip (join (lit " ") (filter truthy [strip s; order_part; fetch_part])).

(** lines 139 to 172, on a statement that passed the checks *)
Definition finish (s : str) : str :=
  let '(s1, fetch_part) := split_fetch s in
  let '(s2, order_part) := split_order s1 in
  assemble (inject_where s2) (fix_order order_part) (fix_fetch fetch_part).

(** [Pipeline.clean_sql].  [V_SCHEMA] is the attribute of that name, [None]
    before [on_startup] has run.  The calls of [print] are left out. *)
Definition clean_sql (V_SCHEMA : option str) (sql : str) : result str :=
  if is_blank sql then Raise (ValueError MsgEmptySql)
  else
    match rewrite_schema V_SCHEMA (strip_fence (strip sql)) with
    | Raise e => Raise e
    | Return s =>
        if Re.found forbidden_re s then Raise (ValueError MsgForbidden)
        else
          match check_tables (Re.findall from_join_re s) with
          | Some obj => Raise (ValueError (MsgTableNotAllowed obj))
          | None => Return (finish s)
          end
    end.

(** ** The executor: [Pipeline.vision_execute]

    The database and the log file are the environment of the executor.  A
    [world] fixes what each call into them answers; the executor returns its
    value together with the calls it made, in order. *)

Section Executor.
(** what a fetched column holds *)
Variable cell : Type.

(** the values found in the dictionaries the executor returns *)
Inductive value : Type :=
| Cell (c : cell)
| Text (s : str)
| Note (m : message).

(** a Python [dict] with string keys, in insertion order *)
Definition record := list (str * value).

Fixpoint dict_set (k : str) (v : value) (d : record) : record :=
  match d with
  | [] => [(k, v)]
  | (k', v') :: d' =>
      if str_eqb k k' then (k, v) :: d' else (k', v') :: dict_set k v d'
  end.

(** [dict(pairs)] *)
Definition dict (pairs : list (str * value)) : record :=
  fold_left (fun d kv => dict_set (fst kv) (snd kv) d) pairs [].

(** one line group of [vision_sql.log]: the time stamp, the statement and
    the number of rows *)
Record log_entry : Type := LogEntry {
  log_time : str;
  log_sql : str;
  log_count : nat
}.

Record world : Type := World {
  (** [self.conn_vision()] and [c.cursor()]: the exception raised, if any *)
  db_connect : option exn;
  (** [cur.execute(q)], [cur.description] and [cur.fetchall()]: the
      exception raised by one of them, or the column names and the rows *)
  db_execute : str -> exn + (list str * list (list cell));
  (** opening the log for appending and writing an entry: the exception
      raised, if any *)
  log_write : log_entry -> option exn;
  (** [datetime.now()], printed *)
  now : str
}.

Inductive event : Type :=
| Connect
| Execute (q : str)
| LogAppend (e : log_entry).

(** the [try] block, lines 177 to 190 *)
Definition attempt (w : world) (V_SCHEMA : option str) (sql : str)
    : result (list record) * list event :=
  match clean_sql V_SCHEMA sql with
  | Raise e => (Raise e, [])
  | Return q =>
      match db_connect w with
      | Some e => (Raise e, [Connect])
      | None =>
          match db_execute w q with
          | inl e => (Raise e, [Connect; Execute q])
          | inr (cols, rows) =>
              let result :=
                map (fun r => dict (combine cols (map Cell r))) rows in
              let entry := LogEntry (now w) q (length result) in
              match log_write w entry with
              | Some e => (Raise e, [Connect; Execute q])
              | None => (Return result, [Connect; Execute q; LogAppend entry])
              end
          end
      end
  end.

(** lines 195 and 199: the dictionary with the keys error and sql *)
Definition error_payload (err_msg : message) (sql : str) : list record :=
  [dict [(lit "error", Note err_msg); (lit "sql", Text sql)]].

(** lines 193 and 197: the message each handler builds *)
Definition handler_message (e : exn) : message :=
  match e with
  | OracleError m => MsgOracleError m
  | _ => MsgGeneralError (str_of_exn e)
  end.

(** [Pipeline.vision_execute]: the [try] block under its two handlers, the
    one for [oracledb.Error] first.  [sql] in the handlers is the argument
    of the function. *)
Definition vision_execute (w : world) (V_SCHEMA : option str) (sql : str)
    : result (list record) * list event :=
  match attempt w V_SCHEMA sql with
  | (Return rows, trace) => (Return rows, trace)
  | (Raise e, trace) => (Return (error_payload (handler_message e) sql), trace)
  end.
End Executor.

Arguments Cell {cell} c.
Arguments Text {cell} s.
Arguments Note {cell} m.
Arguments error_payload {cell} err_msg sql.

(** ** Select AI: [Pipeline._escape_literal], [adw_selectai] and [run] *)

Definition squote : ascii := "'".

(** [s.replace("'", "''")] *)
Fixpoint double_quotes (s : str) : str :=
  match s with
  | [] => []
  | c :: r =>
      if eqc c squote then squote :: squote :: double_quotes r
      else c :: double_quotes r
  end.

(** [s or ""], with [None] for Python's None *)
Definition or_empty (s : option str) : str :=
  match s with Some x => x | None => [] end.

(** [Pipeline._escape_literal] *)
Definition _escape_literal (s : option str) : str :=
  double_quotes (or_empty s).

(** The ADW database as [adw_selectai] meets it.  The literal of line 107
    is the escaped text of line 105: the prompt, a constant of Korean
    text, the question header, and the question.  Escaping goes character
    by character, so the literal is the escaped constant followed by the
    escaped question; an [adw] maps that escaped question to what
    connecting, setting the profile, running SHOWSQL and fetching one row
    give: an exception, no row, or a row, whose first column is NULL or
    holds the generated text. *)
Definition adw : Type := str -> exn + option (option str).

(** what [None.strip()] raises: an [AttributeError] with this text *)
Definition MsgNoStrip : message :=
  MsgExternal (lit "'NoneType' object has no attribute 'strip'").

(** [row[0] if row else ""]: [None] is the NULL of the column *)
Definition first_column (row : option (option str)) : option str :=
  match row with Some r0 => r0 | None => Some [] end.

(** [Pipeline.adw_selectai], lines 101 to 111.  Nothing is caught here. *)
Definition adw_selectai (a : adw) (user_msg : option str) : result str :=
  match a (double_quotes (or_empty user_msg)) with
  | inl e => Raise e
  | inr row =>
      match first_column row with
      | Some text => let raw_sql := strip text in Return raw_sql
      | None => Raise (OtherError MsgNoStrip)
      end
  end.

Section Run.
Variable cell : Type.

(** [k in d] and [d[k]] *)
Fixpoint dict_get (k : str) (d : record cell) : option (value cell) :=
  match d with
  | [] => None
  | (k', v) :: d' => if str_eqb k k' then Some v else dict_get k d'
  end.

(** The messages of [run], Korean literals again:
    - [RunNoRows]: "조회된 결과가 없습니다." (line 208);
    - [RunQueryError v]: "쿼리 실행 중 오류가 발생했습니다: " followed by v
      (line 210);
    - [RunCount key v]: key, "는 ", v and "개입니다." (line 213);
    - [RunTotal n]: "총 ", n and "건이 조회되었습니다." (line 215). *)
Inductive run_message : Type :=
| RunNoRows
| RunQueryError (v : value cell)
| RunCount (key : str) (v : value cell)
| RunTotal (n : nat).

(** the two dictionaries [run] returns: status success with data and
    message, or status error with the text of the exception *)
Inductive reply : Type :=
| ReplySuccess (data : list (record cell)) (message : run_message)
| ReplyError (error : message).

(** lines 207 to 215 *)
Definition summarize (data : list (record cell)) : run_message :=
  match data with
  | [] => RunNoRows
  | d0 :: rest =>
      match dict_get (lit "error") d0 with
      | Some v => RunQueryError v
      | None =>
          match rest, d0 with
          | [], [(key, v)] => RunCount key v
          | _, _ => RunTotal (length data)
          end
      end
  end.

(** [Pipeline.run]: the reply and the calls made into the Vision database
    and the log *)
Definition run (a : adw) (w : world cell) (V_SCHEMA : option str)
    (user_message : option str) : reply * list event :=
  match adw_selectai a user_message with
  | Raise e => (ReplyError (str_of_exn e), [])
  | Return sql =>
      match vision_execute w V_SCHEMA sql with
      | (Return data, trace) => (ReplySuccess data (summarize data), trace)
      | (Raise e, trace) => (ReplyError (str_of_exn e), trace)
      end
  end.
End Run.

Arguments RunNoRows {cell}.
Arguments RunTotal {cell} n.

(** in [s] the single quotes come in pairs *)
Fixpoint quotes_paired (s : str) : bool :=
  match s with
  | [] => true
  | c :: r =>
      if eqc c squote
      then match r with
           | c' :: r' => eqc c' squote && quotes_paired r'
           | [] => false
           end
      else quotes_paired r
  end.

(** ** Notions used in the statements *)

(** A schema name without backslash.  The template of line 124 is then
    put in place of every match as it is written, and [prepare] gives the
    text the checks see. *)
Definition template_literal (V_SCHEMA : option str) : bool :=
  match V_SCHEMA with
  | Some v => forallb (fun c => negb (eqc c "\")) v
  | None => true
  end.

Definition last_char (s : str) : option ascii := hd_error (rev s).

(** between [a] and [b] no word runs on: [a] does not end, or [b] does not
    start, with a word character *)
Definition seam (a b : str) : Prop :=
  Re.opt_word (last_char a) = false \/ Re.opt_word (hd_error b) = false.

(** the character before the position reached after reading [w] *)
Definition prev_after (prev : option ascii) (w : str) : option ascii :=
  match last_char w with Some c => Some c | None => prev end.

(** a keyword as the patterns write it: lower case letters *)
Definition lower_word (kw : str) : Prop :=
  kw <> [] /\ Forall (fun a => is_lower_az a = true) kw.

(** [w] is the keyword [kw] in some mix of cases, and stands alone between
    [pre] and [post]: no word character touches it on either side. *)
Definition keyword_at (kw pre w post : str) : Prop :=
  map lower_az w = kw /\
  Re.opt_word (last_char pre) = false /\
  Re.opt_word (hd_error post) = false.

Definition has_keyword (kw s : str) : Prop :=
  exists pre w post, s = pre ++ w ++ post /\ keyword_at kw pre w post.

Definition has_forbidden_keyword (s : str) : Prop :=
  exists kw, In kw forbidden_keywords /\ has_keyword kw s.

(** the first standalone occurrence of [kw] in [s] *)
Definition first_keyword (kw s pre w post : str) : Prop :=
  s = pre ++ w ++ post /\ keyword_at kw pre w post /\
  forall pre' w' post',
    s = pre' ++ w' ++ post' -> keyword_at kw pre' w' post' ->
    length pre <= length pre'.

Definition ends_with (x s : str) : Prop := exists pre, s = pre ++ x.

Definition infix (x s : str) : Prop := exists pre post, s = pre ++ x ++ post.

Fixpoint starts_with (x s : str) : bool :=
  match x, s with
  | [], _ => true
  | a :: x', c :: s' => eqc a c && starts_with x' s'
  | _ :: _, [] => false
  end.

(** [x in s] *)
Fixpoint contains (x s : str) : bool :=
  starts_with x s ||
  match s with
  | [] => false
  | _ :: s' => contains x s'
  end.

(** the position [i] of [s] as a pattern sees it *)
Definition char_before (prev : option ascii) (s : str) (i : nat)
    : option ascii :=
  match i with
  | 0 => prev
  | S j => nth_error s j
  end.

Definition at_pos (A : Type) (p : Re.pattern A) (s : str) (i : nat)
    : option A :=
  p (char_before None s i) (skipn i s).

(** [m], the text after a character [prev], opens with a FROM or JOIN
    target: FROM or JOIN in any mix of cases, not touched by a word
    character before it, white space, and [obj], the longest run of
    identifier characters there *)
Definition target_at (prev : option ascii) (m obj : str) : Prop :=
  exists kw ws rest,
    m = kw ++ ws ++ obj ++ rest /\
    (map lower_az kw = lit "from" \/ map lower_az kw = lit "join") /\
    Re.opt_word prev = false /\
    ws <> [] /\ forallb isspace ws = true /\
    obj <> [] /\ forallb ident_char obj = true /\
    (forall c, hd_error rest = Some c -> ident_char c = false).

(** [obj] is a FROM or JOIN target somewhere in [s] *)
Definition from_join_target (s obj : str) : Prop :=
  exists pre m, s = pre ++ m /\ target_at (last_char pre) m obj.

(** [m], the text after a character [prev], opens with FETCH, white space
    and FIRST in any mix of cases, no word character touching them *)
Definition fetch_first_at (prev : option ascii) (m : str) : Prop :=
  exists kw1 ws kw2 post,
    m = kw1 ++ ws ++ kw2 ++ post /\
    map lower_az kw1 = lit "fetch" /\
    ws <> [] /\ forallb isspace ws = true /\
    map lower_az kw2 = lit "first" /\
    Re.opt_word prev = false /\
    Re.opt_word (hd_error post) = false.

Definition has_fetch_first (s : str) : Prop :=
  exists pre m, s = pre ++ m /\ fetch_first_at (last_char pre) m.

(** The row-limit clause of [s] as line 140 takes it: [clause] opens at
    the first FETCH FIRST of [s] and runs to the end of the line FIRST
    stands on; [pre] is the text before it and [rest] the lines after. *)
Definition limit_clause (s pre clause rest : str) : Prop :=
  s = pre ++ clause ++ rest /\
  (exists kw1 ws kw2 tl,
     clause = kw1 ++ ws ++ kw2 ++ tl /\
     map lower_az kw1 = lit "fetch" /\
     ws <> [] /\ forallb isspace ws = true /\
     map lower_az kw2 = lit "first" /\
     Re.opt_word (last_char pre) = false /\
     Re.opt_word (hd_error (tl ++ rest)) = false /\
     forallb not_newline tl = true) /\
  (forall c, hd_error rest = Some c -> c = newline) /\
  (forall pre' m',
     s = pre' ++ m' -> fetch_first_at (last_char pre') m' ->
     length pre <= length pre').

(** the shape the patterns of lines 140 and 144 share: two keywords with
    white space between them, and a run of a class up to the end of the
    match *)
Definition clause_re (k1 k2 : str) (f : ascii -> bool) : Re.pattern nat :=
  Re.run (@Re.wordb _ >> Re.text eqc_ci k1 >> Re.plus isspace
            >> Re.text eqc_ci k2 >> @Re.wordb _ >> Re.star f).

(** what line 124 replaces, less its dot: the source schema in any mix of
    cases, with or without a double quote on either side *)
Definition schema_qualifier (m : str) : Prop :=
  exists q1 h q2,
    m = q1 ++ h ++ q2 /\
    (q1 = [] \/ q1 = [dquote]) /\ (q2 = [] \/ q2 = [dquote]) /\
    map lower_az h = map lower_az SOURCE_SCHEMA.

Definition not_dot (c : ascii) : bool := negb (eqc c ".").

(** the source schema stands before a dot somewhere in [s] *)
Definition has_source_qualifier (s : str) : Prop :=
  exists pre m post, s = pre ++ m ++ "." :: post /\ schema_qualifier m.

(** the characters a schema qualifier is made of *)
Definition qualifier_char (c : ascii) : bool :=
  eqc c dquote || existsb (eqc (lower_az c)) (map lower_az SOURCE_SCHEMA).

(** between [a] and [b] no qualifier runs on: [a] does not end with a
    character of a qualifier, or [b] starts neither with one nor with a
    dot *)
Definition qualifier_seam (a b : str) : Prop :=
  (forall c, last_char a = Some c -> qualifier_char c = false) \/
  (forall c, hd_error b = Some c ->
     qualifier_char c = false /\ eqc c "." = false).

(** A target schema after which the rewrite of line 124 finds nothing new:
    its name has no dot and ends neither in 5 nor in a double quote. *)
Definition settled_target (V_SCHEMA : option str) : bool :=
  match V_SCHEMA with
  | Some v =>
      forallb not_dot v &&
      match last_char v with
      | Some c => negb (eqc c "5") && negb (eqc c dquote)
      | None => true
      end
  | None => true
  end.

(** no match of the schema pattern starts anywhere in [t] *)
Definition qualifier_free (t : str) : Prop :=
  forall i, i <= length t -> schema_re None (skipn i t) = None.

(** an ORDER BY spelled in upper case, white space, and one identifier
    character somewhere in the clause: what line 150 looks for *)
Definition column_after_order_by (clause : str) : Prop :=
  exists pre ws1 ws2 c post,
    clause = pre ++ lit "ORDER" ++ ws1 ++ lit "BY" ++ ws2 ++ c :: post /\
    ws1 <> [] /\ forallb isspace ws1 = true /\
    ws2 <> [] /\ forallb isspace ws2 = true /\
    ident_char c = true.

(** the clause opens with ORDER BY in upper case *)
Definition upper_order_by (clause : str) : Prop :=
  exists ws tail,
    clause = lit "ORDER" ++ ws ++ lit "BY" ++ tail /\
    ws <> [] /\ forallb isspace ws = true.

(** a text that [strip] leaves alone and that is not empty: it neither
    starts nor ends with white space *)
Definition solid (x : str) : bool :=
  match x with c :: _ => negb (isspace c) | [] => false end &&
  match last_char x with Some z => negb (isspace z) | None => false end.

(** The schema of the default Vision user. *)
Definition APPS : option str := Some (lit "APPS").

(** Select AI answering every question with a statement, with no row,
    with a row that holds NULL, and failing. *)
Definition adw_ok : adw :=
  fun _ => inr (Some (Some (lit " SELECT * FROM AP_HOLDS_ALL "))).

Definition adw_null : adw := fun _ => inr (Some None).

Definition adw_silent : adw := fun _ => inr None.

Definition adw_down : adw :=
  fun _ => inl (OracleError (MsgExternal (lit "ORA-12154"))).

(** A database that answers every statement with one row of two columns,
    one that refuses every statement, and a log that cannot be written. *)
Definition one_row : str -> exn + (list str * list (list str)) :=
  fun _ => inr ([lit "HOLD_ID"; lit "INVOICE_ID"], [[lit "1"; lit "77"]]).

Definition refusing : str -> exn + (list str * list (list str)) :=
  fun _ => inl (OracleError (MsgExternal (lit "ORA-00933"))).

Definition world_ok : world str :=
  World None one_row (fun _ => None) (lit "2025-01-01 00:00:00").

Definition world_db_fault : world str :=
  World None refusing (fun _ => None) (lit "2025-01-01 00:00:00").

Definition world_log_fault : world str :=
  World None one_row
    (fun _ => Some (OtherError (MsgExternal (lit "Permission denied"))))
    (lit "2025-01-01 00:00:00").

Definition world_unreachable : world str :=
  World (Some (OracleError (MsgExternal (lit "ORA-12541")))) one_row
    (fun _ => None) (lit "2025-01-01 00:00:00").

(** * Properties *)

Unset Implicit Arguments.

(** ** Characters and strings *)

Ltac each_char c :=
  destruct c as [[] [] [] [] [] [] [] []]; vm_compute; try reflexivity;
  try discriminate; auto.

Lemma eqc_eq (a b : ascii) : eqc a b = true <-> a = b.
Proof. apply Ascii.eqb_eq. Qed.

Lemma str_eqb_eq (a b : str) : str_eqb a b = true <-> a = b.
Proof.
  revert b; induction a as [|x a IH]; intros [|y b]; simpl; split;
    try discriminate; try reflexivity.
  - intros H. apply andb_true_iff in H as [H1 H2].
    apply eqc_eq in H1. apply IH in H2. congruence.
  - intros H. injection H as -> ->. apply andb_true_iff. split.
    + now apply eqc_eq.
    + now apply IH.
Qed.

Lemma lower_az_letter_word (c : ascii) :
  is_lower_az (lower_az c) = true -> isword c = true.
Proof. each_char c. Qed.

Lemma lower_az_fixed (a : ascii) : is_lower_az a = true -> lower_az a = a.
Proof. each_char a. Qed.

Lemma eqc_ci_lower (a c : ascii) :
  is_lower_az a = true -> (eqc_ci a c = true <-> lower_az c = a).
Proof.
  intros Ha. unfold eqc_ci. rewrite (lower_az_fixed _ Ha).
  rewrite Ascii.eqb_eq. split; congruence.
Qed.

Lemma last_char_cons (c : ascii) (w : str) :
  last_char (c :: w) =
  match last_char w with Some d => Some d | None => Some c end.
Proof.
  unfold last_char. simpl. destruct (rev w) as [|d r]; reflexivity.
Qed.

Lemma last_char_app (a : str) (c : ascii) : last_char (a ++ [c]) = Some c.
Proof. unfold last_char. rewrite rev_app_distr. reflexivity. Qed.

Lemma last_char_none (w : str) : last_char w = None -> w = [].
Proof.
  unfold last_char. intros H. destruct (rev w) eqn:E; [|discriminate].
  apply (f_equal (@rev ascii)) in E. now rewrite rev_involutive in E.
Qed.

Lemma prev_after_cons (prev : option ascii) (c : ascii) (w : str) :
  prev_after prev (c :: w) = prev_after (Some c) w.
Proof.
  unfold prev_after. rewrite last_char_cons.
  destruct (last_char w); reflexivity.
Qed.

Lemma char_before_app (pre rest : str) :
  char_before None (pre ++ rest) (length pre) = last_char pre.
Proof.
  destruct (rev pre) as [|c r] eqn:E.
  - apply (f_equal (@rev ascii)) in E. rewrite rev_involutive in E.
    subst pre. reflexivity.
  - apply (f_equal (@rev ascii)) in E. rewrite rev_involutive in E.
    simpl in E. subst pre. rewrite last_char_app.
    rewrite length_app. simpl. rewrite Nat.add_1_r. simpl.
    rewrite <- app_assoc. rewrite nth_error_app2 by lia.
    now rewrite Nat.sub_diag.
Qed.

Lemma char_before_firstn (s : str) (i : nat) :
  i <= length s -> char_before None s i = last_char (firstn i s).
Proof.
  intros Hi. rewrite <- (firstn_skipn i s) at 1.
  rewrite <- (char_before_app (firstn i s) (skipn i s)).
  rewrite length_firstn. now rewrite Nat.min_l.
Qed.

(** ** The matcher *)

Section ReFacts.
Variable A : Type.
Implicit Types (k : Re.cont A) (prev : option ascii) (s w : str).

Lemma text_app eq (p : str) : forall k prev n w r,
  Forall2 (fun a c => eq a c = true) p w ->
  Re.text eq p k prev n (w ++ r) = k (prev_after prev w) (n + length w) r.
Proof.
  induction p as [|a p IH]; intros k prev n w r H; inversion H; subst.
  - simpl. unfold prev_after. simpl. now rewrite Nat.add_0_r.
  - simpl. unfold Re.chr. rewrite H2. rewrite IH by assumption.
    rewrite prev_after_cons. f_equal. lia.
Qed.

Lemma text_inv eq (p : str) : forall k prev n s a,
  Re.text eq p k prev n s = Some a ->
  exists w r, s = w ++ r /\ Forall2 (fun a c => eq a c = true) p w /\
              k (prev_after prev w) (n + length w) r = Some a.
Proof.
  induction p as [|x p IH]; intros k prev n s a H.
  - exists [], s. simpl in *. unfold prev_after. simpl.
    rewrite Nat.add_0_r. auto.
  - simpl in H. unfold Re.chr in H. destruct s as [|c s]; [discriminate|].
    destruct (eq x c) eqn:E; [|discriminate].
    apply IH in H as (w & r & -> & HF & Hk).
    exists (c :: w), r. split; [reflexivity|]. split; [now constructor|].
    rewrite prev_after_cons.
    now replace (n + length (c :: w)) with (S n + length w) by (simpl; lia).
Qed.

Lemma words_inv eq (ws : list str) : forall k prev n s a,
  Re.words eq ws k prev n s = Some a ->
  exists w, In w ws /\ Re.text eq w k prev n s = Some a.
Proof.
  induction ws as [|w ws IH]; intros k prev n s a H; [discriminate|].
  simpl in H. unfold Re.alt, Re.orelse in H.
  destruct (Re.text eq w k prev n s) eqn:E.
  - exists w. split; [now left|]. congruence.
  - apply IH in H as (w' & Hin & Hw). exists w'. split; [now right|auto].
Qed.

Lemma words_some eq (ws : list str) : forall k prev n s w a,
  In w ws -> Re.text eq w k prev n s = Some a ->
  exists a', Re.words eq ws k prev n s = Some a'.
Proof.
  induction ws as [|x ws IH]; intros k prev n s w a Hin H; [contradiction|].
  simpl. unfold Re.alt, Re.orelse.
  destruct (Re.text eq x k prev n s) eqn:E; [eauto|].
  destruct Hin as [->|Hin]; [congruence|]. eapply IH; eauto.
Qed.

Variable p : Re.pattern A.

Lemma search_from_sound : forall s prev j i a,
  Re.search_from p prev j s = Some (i, a) ->
  exists d, i = j + d /\ d <= length s /\
    p (char_before prev s d) (skipn d s) = Some a /\
    forall e, e < d -> p (char_before prev s e) (skipn e s) = None.
Proof.
  induction s as [|c r IH]; intros prev j i a H; simpl in H.
  - destruct (p prev []) eqn:E; [|discriminate]. injection H as <- <-.
    exists 0. rewrite Nat.add_0_r. repeat split; auto. intros e He; lia.
  - destruct (p prev (c :: r)) eqn:E.
    + injection H as <- <-. exists 0. rewrite Nat.add_0_r.
      repeat split; auto; [simpl; lia|]. intros e He; lia.
    + apply IH in H as (d & -> & Hd & Hp & Hmin).
      exists (S d). repeat split.
      * lia.
      * simpl; lia.
      * destruct d; exact Hp.
      * intros [|e] He; [exact E|].
        assert (He' : e < d) by lia. specialize (Hmin e He').
        destruct e; exact Hmin.
Qed.

Lemma search_from_none : forall s prev j,
  Re.search_from p prev j s = None ->
  forall d, d <= length s -> p (char_before prev s d) (skipn d s) = None.
Proof.
  induction s as [|c r IH]; intros prev j H d Hd; simpl in H.
  - destruct (p prev []) eqn:E; [discriminate|].
    simpl in Hd. assert (d = 0) by lia. subst. exact E.
  - destruct (p prev (c :: r)) eqn:E; [discriminate|].
    destruct d as [|d]; [exact E|].
    simpl in Hd. apply le_S_n in Hd. specialize (IH _ _ H d Hd).
    destruct d; exact IH.
Qed.

Lemma search_from_first : forall s prev j d a,
  d <= length s ->
  p (char_before prev s d) (skipn d s) = Some a ->
  (forall e, e < d -> p (char_before prev s e) (skipn e s) = None) ->
  Re.search_from p prev j s = Some (j + d, a).
Proof.
  intros s prev j d a Hd Hp Hmin.
  destruct (Re.search_from p prev j s) as [[i b]|] eqn:E.
  - apply search_from_sound in E as (d' & -> & Hd' & Hp' & Hmin').
    destruct (Nat.lt_trichotomy d d') as [Hlt|[->|Hlt]].
    + rewrite (Hmin' _ Hlt) in Hp. discriminate.
    + congruence.
    + rewrite (Hmin _ Hlt) in Hp'. discriminate.
  - rewrite (search_from_none _ _ _ E d Hd) in Hp. discriminate.
Qed.

Lemma found_iff (s : str) :
  Re.found p s = true <->
  exists i a, i <= length s /\ at_pos p s i = Some a.
Proof.
  unfold Re.found, Re.search, at_pos. split.
  - destruct (Re.search_from p None 0 s) as [[i a]|] eqn:E; [|discriminate].
    intros _. apply search_from_sound in E as (d & -> & Hd & Hp & _).
    exists d, a. auto.
  - intros (i & a & Hi & Hp).
    destruct (Re.search_from p None 0 s) as [[j b]|] eqn:E; [reflexivity|].
    rewrite (search_from_none _ _ _ E i Hi) in Hp. discriminate.
Qed.
End ReFacts.

(** ** Keywords between word boundaries *)

Lemma spelled_forall2 (kw : str) : forall w,
  Forall (fun a => is_lower_az a = true) kw ->
  (Forall2 (fun a c => eqc_ci a c = true) kw w <-> map lower_az w = kw).
Proof.
  induction kw as [|a kw IH]; intros w HF; split; intros H.
  - now inversion H.
  - destruct w; [constructor|discriminate].
  - inversion H; subst. inversion HF; subst. simpl. f_equal.
    + now apply eqc_ci_lower.
    + now apply IH.
  - destruct w as [|c w]; [discriminate|]. injection H as Hc Hw.
    inversion HF; subst. constructor.
    + now apply eqc_ci_lower.
    + now apply IH.
Qed.

Lemma spelled_words (kw w : str) :
  lower_word kw -> map lower_az w = kw ->
  Re.opt_word (hd_error w) = true /\
  (forall prev, Re.opt_word (prev_after prev w) = true) /\
  length w = length kw.
Proof.
  intros [Hne HF] Hw. subst kw. rewrite length_map.
  assert (Hall : Forall (fun c => isword c = true) w).
  { rewrite Forall_forall in *. intros c Hc. apply lower_az_letter_word.
    apply HF. now apply in_map. }
  split; [|split; [|reflexivity]].
  - destruct w as [|c w]; [now elim Hne|]. simpl. now inversion Hall.
  - intros prev. unfold prev_after, last_char.
    destruct (rev w) as [|c r] eqn:E.
    + apply (f_equal (@rev ascii)) in E. rewrite rev_involutive in E.
      subst w. now elim Hne.
    + simpl. rewrite Forall_forall in Hall. apply Hall.
      apply in_rev. rewrite E. now left.
Qed.

Lemma keyword_re_inv (kw : str) (prev : option ascii) (s : str) (n : nat) :
  lower_word kw -> keyword_re kw prev s = Some n ->
  exists w post, s = w ++ post /\ map lower_az w = kw /\
    Re.opt_word prev = false /\ Re.opt_word (hd_error post) = false /\
    n = length kw.
Proof.
  intros Hkw H. unfold keyword_re, Re.run in H. unfold Re.wordb at 1 in H.
  destruct (xorb (Re.opt_word prev) (Re.opt_word (hd_error s))) eqn:B1;
    [|discriminate].
  apply text_inv in H as (w & post & -> & HF & H).
  apply spelled_forall2 in HF; [|apply Hkw].
  destruct (spelled_words _ _ Hkw HF) as (Hh & Hl & Hlen).
  unfold Re.wordb in H. rewrite Hl in H.
  destruct (Re.opt_word (hd_error post)) eqn:B2; [discriminate|].
  simpl in H. injection H as <-.
  exists w, post. repeat split; auto.
  destruct w as [|c w]; [discriminate|]. simpl in Hh, B1.
  rewrite Hh in B1. now destruct (Re.opt_word prev).
Qed.

Lemma keyword_re_app (kw : str) (prev : option ascii) (w post : str) :
  lower_word kw -> map lower_az w = kw ->
  Re.opt_word prev = false -> Re.opt_word (hd_error post) = false ->
  keyword_re kw prev (w ++ post) = Some (length kw).
Proof.
  intros Hkw Hw Hp Hq. destruct (spelled_words _ _ Hkw Hw) as (Hh & Hl & Hlen).
  unfold keyword_re, Re.run. unfold Re.wordb at 1.
  assert (Hhd : Re.opt_word (hd_error (w ++ post)) = true).
  { destruct w; [discriminate|exact Hh]. }
  rewrite Hp, Hhd. simpl xorb. cbv iota.
  rewrite text_app by (apply spelled_forall2; [apply Hkw|exact Hw]).
  unfold Re.wordb. rewrite Hl, Hq. simpl. now rewrite Hlen.
Qed.

(** A standalone keyword is what [keyword_re] finds at a position. *)
Lemma has_keyword_at_pos (kw s : str) :
  lower_word kw ->
  (has_keyword kw s <->
   exists i, i <= length s /\ at_pos (keyword_re kw) s i = Some (length kw)).
Proof.
  intros Hkw. split.
  - intros (pre & w & post & -> & Hw & Hp & Hq).
    exists (length pre). split; [rewrite length_app; lia|].
    unfold at_pos. rewrite char_before_app.
    rewrite skipn_app, skipn_all, Nat.sub_diag. simpl.
    now apply keyword_re_app.
  - intros (i & Hi & H). unfold at_pos in H.
    apply keyword_re_inv in H as (w & post & Hs & Hw & Hp & Hq & _); auto.
    exists (firstn i s), w, post. split.
    + rewrite <- Hs. symmetry. apply firstn_skipn.
    + repeat split; auto. now rewrite <- char_before_firstn.
Qed.

Lemma keyword_found (kw s : str) :
  lower_word kw -> (Re.found (keyword_re kw) s = true <-> has_keyword kw s).
Proof.
  intros Hkw. rewrite found_iff, has_keyword_at_pos by assumption.
  split; intros (i & H).
  - destruct H as (a & Hi & H). exists i. split; [assumption|].
    rewrite H. f_equal.
    unfold at_pos in H. now apply keyword_re_inv in H as (_ & _ & _ & _ & _ & _ & ->).
  - destruct H as (Hi & H). eauto.
Qed.

Lemma forbidden_keywords_lower :
  Forall lower_word forbidden_keywords.
Proof.
  repeat constructor; try discriminate.
Qed.

Lemma forbidden_found (s : str) :
  Re.found forbidden_re s = true <-> has_forbidden_keyword s.
Proof.
  pose proof forbidden_keywords_lower as HL. rewrite Forall_forall in HL.
  rewrite found_iff. split.
  - intros (i & a & Hi & H). unfold at_pos, forbidden_re, Re.run in H.
    unfold Re.wordb at 1 in H.
    destruct (xorb _ _) eqn:B; [|discriminate].
    apply words_inv in H as (kw & Hin & H).
    exists kw. split; [assumption|].
    apply has_keyword_at_pos; [now apply HL|].
    exists i. split; [assumption|]. unfold at_pos.
    assert (K : keyword_re kw (char_before None s i) (skipn i s) = Some a).
    { unfold keyword_re, Re.run. unfold Re.wordb at 1. now rewrite B. }
    rewrite K. f_equal.
    now apply keyword_re_inv in K as (_ & _ & _ & _ & _ & _ & ->); auto.
  - intros (kw & Hin & H).
    apply has_keyword_at_pos in H as (i & Hi & H); [|now apply HL].
    unfold at_pos, keyword_re, Re.run in H. unfold Re.wordb at 1 in H.
    destruct (xorb _ _) eqn:B; [|discriminate].
    destruct (words_some _ _ _ _ _ _ _ _ _ Hin H) as (a' & Ha').
    exists i, a'. split; [assumption|].
    unfold at_pos, forbidden_re, Re.run. unfold Re.wordb at 1.
    now rewrite B.
Qed.

(** ** The checks of [clean_sql] *)

Lemma check_tables_some (objs : list str) (obj : str) :
  check_tables objs = Some obj ->
  exists before after, objs = before ++ obj :: after /\
    (forall o, In o before -> table_name o = upper META_TBL) /\
    table_name obj <> upper META_TBL.
Proof.
  induction objs as [|o objs IH]; cbn [check_tables]; [discriminate|].
  destruct (str_eqb (table_name o) (upper META_TBL)) eqn:E; cbn [negb].
  - intros H. destruct (IH H) as (before & after & -> & Hb & Hbad).
    exists (o :: before), after. repeat split; auto.
    intros o' [<-|Hin]; [now apply str_eqb_eq|auto].
  - intros H. injection H as ->. exists [], objs. repeat split; auto.
    + intros o' [].
    + intros Heq. apply str_eqb_eq in Heq. congruence.
Qed.

Lemma check_tables_none (objs : list str) :
  check_tables objs = None <->
  forall o, In o objs -> table_name o = upper META_TBL.
Proof.
  induction objs as [|o objs IH]; cbn [check_tables].
  - split; [intros _ o []|reflexivity].
  - destruct (str_eqb (table_name o) (upper META_TBL)) eqn:E; cbn [negb].
    + rewrite IH. apply str_eqb_eq in E. split.
      * intros H o' [<-|Hin]; auto.
      * intros H o' Hin. apply H. now right.
    + split; [discriminate|]. intros H.
      assert (K : table_name o = upper META_TBL) by (apply H; now left).
      apply str_eqb_eq in K. congruence.
Qed.

Lemma split_nonempty (sep : ascii) (s : str) : split sep s <> [].
Proof.
  destruct s as [|c s]; simpl; [discriminate|].
  destruct (eqc c sep); [discriminate|].
  destruct (split sep s); discriminate.
Qed.

Lemma split_plain (sep : ascii) (t : str) :
  forallb (fun c => negb (eqc c sep)) t = true -> split sep t = [t].
Proof.
  induction t as [|c t IH]; simpl; [reflexivity|].
  intros H. apply andb_true_iff in H as [Hc Ht].
  apply negb_true_iff in Hc. rewrite Hc, (IH Ht). reflexivity.
Qed.

Lemma split_qualified (sep : ascii) (q t : str) :
  exists ps, split sep (q ++ sep :: t) = ps ++ split sep t /\ ps <> [].
Proof.
  induction q as [|c q (ps & IH & Hne)]; cbn [app split].
  - assert (E : eqc sep sep = true) by now apply eqc_eq.
    rewrite E. exists [[]]. split; [reflexivity|discriminate].
  - destruct (eqc c sep).
    + exists ([] :: ps). rewrite IH. split; [reflexivity|discriminate].
    + rewrite IH. destruct ps as [|p0 ps]; [contradiction|].
      exists ((c :: p0) :: ps). split; [reflexivity|discriminate].
Qed.

Lemma last_app_nonempty (A : Type) (ps l : list A) (d : A) :
  l <> [] -> last (ps ++ l) d = last l d.
Proof.
  intros Hl. induction ps as [|p ps IH]; [reflexivity|].
  cbn [app]. destruct (ps ++ l) eqn:E.
  - destruct ps; [contradiction|discriminate].
  - rewrite <- IH. reflexivity.
Qed.

(** The schema qualifier plays no part in the name that is compared. *)
Lemma table_name_qualified (schema tbl : str) :
  table_name (schema ++ "." :: tbl) = table_name tbl.
Proof.
  unfold table_name.
  destruct (split_qualified "." schema tbl) as (ps & E & Hne).
  rewrite E, map_app, last_app_nonempty; [reflexivity|].
  pose proof (split_nonempty "." tbl).
  destruct (split "." tbl); [contradiction|discriminate].
Qed.

(** A template without backslash is put out as it is written. *)
Lemma parse_template_literal (t : str) :
  forallb (fun c => negb (eqc c "\")) t = true ->
  parse_template Plain t = Some (map Lit t).
Proof.
  induction t as [|c t IH]; cbn [forallb parse_template map]; [reflexivity|].
  intros H. apply andb_true_iff in H as [Hc Ht].
  apply negb_true_iff in Hc. rewrite Hc, (IH Ht). reflexivity.
Qed.

Lemma expand_literal (t m : str) : expand (map Lit t) m = t.
Proof.
  unfold expand. induction t as [|c t IH]; cbn [map flat_map app];
    [reflexivity|now f_equal].
Qed.

Lemma sub_with_literal (p : Re.pattern nat) (repl : str -> str) (r : str) :
  (forall m, repl m = r) ->
  forall s skip prev,
    Re.sub_with_from p repl skip prev s = Re.sub_from p r skip prev s.
Proof.
  intros Hr. induction s as [|c s IH]; intros skip prev;
    cbn [Re.sub_with_from Re.sub_from]; [reflexivity|].
  destruct skip as [|k]; [|apply IH].
  destruct (p prev (c :: s)) as [[|k]|]; rewrite ?Hr, IH; reflexivity.
Qed.

(** For a schema name without backslash line 124 raises nothing and puts
    the name and a dot in place of every match. *)
Lemma rewrite_schema_literal (V : option str) (s : str) :
  template_literal V = true ->
  rewrite_schema V s = Return (adjust_schema V s).
Proof.
  destruct V as [v|]; [|reflexivity]. cbn [template_literal]. intros HT.
  unfold rewrite_schema, adjust_schema. destruct (truthy v); [|reflexivity].
  rewrite parse_template_literal.
  - f_equal. apply sub_with_literal. intros m. apply expand_literal.
  - rewrite forallb_app, HT. reflexivity.
Qed.

Lemma clean_sql_unfold (V : option str) (sql : str) :
  template_literal V = true ->
  clean_sql V sql =
  if is_blank sql then Raise (ValueError MsgEmptySql)
  else if Re.found forbidden_re (prepare V sql)
       then Raise (ValueError MsgForbidden)
       else match check_tables (Re.findall from_join_re (prepare V sql)) with
            | Some obj => Raise (ValueError (MsgTableNotAllowed obj))
            | None => Return (finish (prepare V sql))
            end.
Proof.
  intros HT. unfold clean_sql, prepare.
  now rewrite (rewrite_schema_literal V _ HT).
Qed.

Lemma clean_sql_return (V : option str) (sql q : str) :
  template_literal V = true ->
  clean_sql V sql = Return q ->
  is_blank sql = false /\
  Re.found forbidden_re (prepare V sql) = false /\
  check_tables (Re.findall from_join_re (prepare V sql)) = None /\
  q = finish (prepare V sql).
Proof.
  intros HT. rewrite clean_sql_unfold by assumption.
  destruct (is_blank sql); [discriminate|].
  destruct (Re.found forbidden_re (prepare V sql)); [discriminate|].
  destruct (check_tables _); [discriminate|].
  intros H. injection H as <-. auto.
Qed.

Lemma no_forbidden_found (s : str) :
  ~ has_forbidden_keyword s -> Re.found forbidden_re s = false.
Proof.
  intros H. destruct (Re.found forbidden_re s) eqn:E; [|reflexivity].
  apply forbidden_found in E. contradiction.
Qed.

(** ** Rejections *)

Lemma blank_prepare (V : option str) (sql : str) :
  is_blank sql = true -> prepare V sql = [].
Proof.
  unfold is_blank. intros H.
  assert (E : strip sql = []).
  { destruct sql as [|c r]; [reflexivity|]. cbn [truthy negb orb] in H.
    destruct (strip (c :: r)); [reflexivity|discriminate]. }
  unfold prepare. rewrite E. destruct V as [[|c v]|]; reflexivity.
Qed.

Lemma no_keyword_in_nothing : ~ has_forbidden_keyword [].
Proof.
  pose proof forbidden_keywords_lower as HL. rewrite Forall_forall in HL.
  intros (kw & Hin & pre & w & post & E & Hw & _).
  destruct (HL _ Hin) as [Hne _]. apply Hne. rewrite <- Hw.
  destruct pre; [|discriminate]. destruct w; [reflexivity|discriminate].
Qed.

(** C1 (as amended).  A statement whose text, once the code fence and the
    trailing semicolons are stripped and the schema qualifier is
    rewritten, holds a forbidden keyword as a standalone word in any mix
    of cases, is rejected with the ValueError of the DML/DDL scan; no
    statement is returned, whatever its FROM and JOIN targets are, since
    the scan comes before the table check. *)
Theorem forbidden_keyword_rejected (V_SCHEMA : option str) (sql : str) :
  template_literal V_SCHEMA = true ->
  has_forbidden_keyword (prepare V_SCHEMA sql) ->
  clean_sql V_SCHEMA sql = Raise (ValueError MsgForbidden).
Proof.
  intros HT Hk. rewrite clean_sql_unfold by assumption.
  destruct (is_blank sql) eqn:Hb.
  - rewrite (blank_prepare V_SCHEMA sql Hb) in Hk.
    now elim no_keyword_in_nothing.
  - apply forbidden_found in Hk. now rewrite Hk.
Qed.

Lemma forbidden_keyword_rejected_witness :
  clean_sql APPS (lit "DELETE FROM AP_HOLDS_ALL WHERE HOLD_ID = 1")
  = Raise (ValueError MsgForbidden).
Proof.
  apply forbidden_keyword_rejected; [reflexivity|].
  exists (lit "delete"). split; [simpl; tauto|].
  exists [], (lit "DELETE"), (lit " FROM AP_HOLDS_ALL WHERE HOLD_ID = 1").
  repeat split; reflexivity.
Defined.

(** C1, counterexample.  The keyword DROP stands alone on the fence line
    of this statement; the fence line is removed before the scan and a
    sanitized statement is returned. *)
Lemma fenced_keyword_accepted :
  let raw := lit "```drop" ++ [newline] ++ lit "SELECT * FROM AP_HOLDS_ALL" in
  has_forbidden_keyword raw /\
  clean_sql None raw =
  Return (lit "SELECT * FROM AP_HOLDS_ALL WHERE RELEASE_LOOKUP_CODE IS NULL AND HOLD_LOOKUP_CODE IN ('QTY ORD', 'QTY REC', 'PRICE', 'AMT ORG') FETCH FIRST 100 ROWS ONLY").
Proof.
  split; [|vm_compute; reflexivity].
  exists (lit "drop"). split; [simpl; tauto|].
  exists (lit "```"), (lit "drop"), (newline :: lit "SELECT * FROM AP_HOLDS_ALL").
  repeat split; reflexivity.
Qed.

(** ** The executor *)

Section ExecutorFacts.
Variable cell : Type.
Variable w : world cell.

Lemma clean_sql_raises_value_error (V : option str) (sql : str) (e : exn) :
  template_literal V = true ->
  clean_sql V sql = Raise e -> exists m, e = ValueError m.
Proof.
  intros HT. rewrite clean_sql_unfold by assumption.
  destruct (is_blank sql); [intros H; injection H as <-; eauto|].
  destruct (Re.found _ _); [intros H; injection H as <-; eauto|].
  destruct (check_tables _); [intros H; injection H as <-; eauto|].
  discriminate.
Qed.

(** C4.  When the sanitizer raises, the executor makes no call into the
    database or the log and answers with an error payload; and a statement
    handed to the database is always the one the sanitizer returned. *)
Theorem validation_is_fail_fast (V_SCHEMA : option str) (sql : str) :
  template_literal V_SCHEMA = true ->
  (forall e, clean_sql V_SCHEMA sql = Raise e ->
     vision_execute w V_SCHEMA sql =
     (Return (error_payload (MsgGeneralError (str_of_exn e)) sql), []))
  /\
  (forall q, In (Execute q) (snd (vision_execute w V_SCHEMA sql)) ->
     clean_sql V_SCHEMA sql = Return q).
Proof.
  intros HT. unfold vision_execute, attempt. split.
  - intros e H. rewrite H.
    destruct (clean_sql_raises_value_error _ _ _ HT H) as (m & ->).
    reflexivity.
  - intros q. destruct (clean_sql V_SCHEMA sql) as [q'|e]; [|intros []].
    destruct (db_connect w).
    { cbn. intros [H|[]]. discriminate. }
    destruct (db_execute w q') as [e|[cols rows]].
    { cbn. intros [H|[H|[]]]; [discriminate|congruence]. }
    destruct (log_write w _); cbn.
    + intros [H|[H|[]]]; [discriminate|congruence].
    + intros [H|[H|[H|[]]]]; try discriminate; congruence.
Qed.

(** C8 (as amended).  When connecting or executing raises, the executor
    raises nothing: it returns one dictionary with the keys error and sql,
    whose sql entry is the statement the executor was called with. *)
Theorem database_fault_is_payload (V_SCHEMA : option str) (sql q : str)
    (e : exn) :
  template_literal V_SCHEMA = true ->
  clean_sql V_SCHEMA sql = Return q ->
  db_connect w = Some e \/ (db_connect w = None /\ db_execute w q = inl e) ->
  fst (vision_execute w V_SCHEMA sql) =
  Return [dict [(lit "error", Note (handler_message e)); (lit "sql", Text sql)]].
Proof.
  intros _ Hq H. unfold vision_execute, attempt. rewrite Hq.
  destruct H as [H|[H1 H2]].
  - rewrite H. reflexivity.
  - rewrite H1, H2. reflexivity.
Qed.

(** C9 (as amended).  When the statement ran and the rows were fetched:
    if the log can be written, the entry appended holds the time stamp,
    the statement sent to the database and the number of rows, and the
    rows are returned; if writing the log raises, the executor raises
    nothing and returns the error payload of the general handler. *)
Theorem audit_log_entry (V_SCHEMA : option str) (sql q : str)
    (cols : list str) (rows : list (list cell)) :
  template_literal V_SCHEMA = true ->
  clean_sql V_SCHEMA sql = Return q ->
  db_connect w = None ->
  db_execute w q = inr (cols, rows) ->
  let result := map (fun r => dict (combine cols (map Cell r))) rows in
  let entry := LogEntry (now w) q (length rows) in
  length result = length rows /\
  (log_write w entry = None ->
   vision_execute w V_SCHEMA sql =
   (Return result, [Connect; Execute q; LogAppend entry]))
  /\
  (forall e, log_write w entry = Some e ->
   vision_execute w V_SCHEMA sql =
   (Return (error_payload (handler_message e) sql), [Connect; Execute q])).
Proof.
  intros _ Hq Hc Hx result entry.
  assert (Hlen : length result = length rows) by apply length_map.
  split; [exact Hlen|].
  unfold vision_execute, attempt. rewrite Hq, Hc, Hx.
  fold result. rewrite Hlen. fold entry.
  split.
  - intros H. rewrite H. reflexivity.
  - intros e H. rewrite H. reflexivity.
Qed.
End ExecutorFacts.

Lemma validation_is_fail_fast_witness :
  vision_execute world_ok APPS (lit "DROP TABLE AP_HOLDS_ALL") =
  (Return (error_payload (MsgGeneralError MsgForbidden)
             (lit "DROP TABLE AP_HOLDS_ALL")), []).
Proof.
  apply (proj1 (validation_is_fail_fast str world_ok APPS
                  (lit "DROP TABLE AP_HOLDS_ALL") eq_refl)
           (ValueError MsgForbidden)).
  vm_compute. reflexivity.
Defined.

Lemma database_fault_is_payload_witness :
  fst (vision_execute world_unreachable APPS (lit "SELECT * FROM AP_HOLDS_ALL"))
  = Return [dict [(lit "error",
                   Note (MsgOracleError (MsgExternal (lit "ORA-12541"))));
                  (lit "sql", Text (lit "SELECT * FROM AP_HOLDS_ALL"))]].
Proof.
  apply (database_fault_is_payload str world_unreachable APPS
           (lit "SELECT * FROM AP_HOLDS_ALL")
           (finish (prepare APPS (lit "SELECT * FROM AP_HOLDS_ALL")))
           (OracleError (MsgExternal (lit "ORA-12541"))) eq_refl).
  - vm_compute. reflexivity.
  - left. reflexivity.
Defined.

(** C8, counterexample.  The database refuses the statement it was sent;
    the payload carries the statement the executor was called with, which
    is not the sanitized statement that was sent. *)
Lemma fault_payload_carries_raw_sql :
  let raw := lit "SELECT * FROM AP_HOLDS_ALL" in
  exists q,
    clean_sql APPS raw = Return q /\ q <> raw /\
    vision_execute world_db_fault APPS raw =
    (Return [dict [(lit "error",
                    Note (MsgOracleError (MsgExternal (lit "ORA-00933"))));
                   (lit "sql", Text raw)]],
     [Connect; Execute q]) /\
    fst (vision_execute world_db_fault APPS raw) <>
    Return [dict [(lit "error",
                   Note (MsgOracleError (MsgExternal (lit "ORA-00933"))));
                  (lit "sql", Text q)]].
Proof.
  eexists. split; [vm_compute; reflexivity|].
  split; [vm_compute; discriminate|].
  split; [vm_compute; reflexivity|vm_compute; discriminate].
Qed.

Lemma audit_log_entry_witness :
  let raw := lit "SELECT * FROM AP_HOLDS_ALL" in
  let q := finish (prepare APPS raw) in
  vision_execute world_ok APPS raw =
  (Return [dict [(lit "HOLD_ID", Cell (lit "1"));
                 (lit "INVOICE_ID", Cell (lit "77"))]],
   [Connect; Execute q; LogAppend (LogEntry (lit "2025-01-01 00:00:00") q 1)]).
Proof.
  intros raw q.
  apply (proj1 (proj2 (audit_log_entry str world_ok APPS raw q
                         [lit "HOLD_ID"; lit "INVOICE_ID"]
                         [[lit "1"; lit "77"]]
                         eq_refl eq_refl eq_refl eq_refl))).
  reflexivity.
Defined.

(** C9, counterexample.  The statement ran and one row was fetched, the
    log cannot be written: the row is not returned, the answer is an error
    payload. *)
Lemma log_fault_fails_request :
  let raw := lit "SELECT * FROM AP_HOLDS_ALL" in
  let q := finish (prepare APPS raw) in
  let rows := [dict [(lit "HOLD_ID", Cell (lit "1"));
                     (lit "INVOICE_ID", Cell (lit "77"))]] in
  clean_sql APPS raw = Return q /\
  db_execute world_log_fault q =
    inr ([lit "HOLD_ID"; lit "INVOICE_ID"], [[lit "1"; lit "77"]]) /\
  vision_execute world_log_fault APPS raw =
    (Return (error_payload
               (MsgGeneralError (MsgExternal (lit "Permission denied"))) raw),
     [Connect; Execute q]) /\
  fst (vision_execute world_log_fault APPS raw) <> Return rows.
Proof.
  repeat split; try (vm_compute; reflexivity). vm_compute. discriminate.
Qed.

(** ** Stripping and assembling *)

Lemma dropwhile_keeps (f : ascii -> bool) (a : str) (c : ascii) (y : str) :
  f c = false -> exists a', dropwhile f (a ++ c :: y) = a' ++ c :: y.
Proof.
  intros Hc. induction a as [|x a (a' & IH)]; cbn [app dropwhile].
  - exists []. now rewrite Hc.
  - destruct (f x); [eauto|]. now exists (x :: a).
Qed.

Lemma dropwhile_head (f : ascii -> bool) (s : str) (c : ascii) (r : str) :
  dropwhile f s = c :: r -> f c = false.
Proof.
  induction s as [|x s IH]; cbn [dropwhile]; [discriminate|].
  destruct (f x) eqn:E; [exact IH|]. intros H. now injection H as <- _.
Qed.

Lemma dropwhile_suffix (f : ascii -> bool) (s : str) :
  exists pre, s = pre ++ dropwhile f s.
Proof.
  induction s as [|x s (pre & IH)]; cbn [dropwhile]; [now exists []|].
  destruct (f x); [|now exists []].
  exists (x :: pre). cbn [app]. now f_equal.
Qed.

Lemma solid_inv (x : str) :
  solid x = true ->
  (exists c y, x = c :: y /\ isspace c = false) /\
  (exists z y, x = y ++ [z] /\ isspace z = false).
Proof.
  unfold solid. intros H. apply andb_true_iff in H as [H1 H2]. split.
  - destruct x as [|c y]; [discriminate|].
    exists c, y. now rewrite negb_true_iff in H1.
  - unfold last_char in H2. destruct (rev x) as [|z r] eqn:E; [discriminate|].
    apply (f_equal (@rev ascii)) in E. rewrite rev_involutive in E.
    cbn in H2. exists z, (rev r). now rewrite negb_true_iff in H2.
Qed.

Lemma lstrip_keeps (a k : str) :
  solid k = true -> exists a', lstrip_by isspace (a ++ k) = a' ++ k.
Proof.
  intros Hk. destruct (solid_inv _ Hk) as [(c & y & -> & Hc) _].
  now apply dropwhile_keeps.
Qed.

Lemma rstrip_keeps (k b : str) :
  solid k = true -> exists b', rstrip_by isspace (k ++ b) = k ++ b'.
Proof.
  intros Hk. destruct (solid_inv _ Hk) as [_ (z & y & -> & Hz)].
  unfold rstrip_by.
  assert (E : rev ((y ++ [z]) ++ b) = rev b ++ z :: rev y).
  { rewrite !rev_app_distr. cbn [rev app]. reflexivity. }
  rewrite E. destruct (dropwhile_keeps isspace (rev b) z (rev y) Hz) as (b' & ->).
  exists (rev b'). rewrite rev_app_distr. cbn [rev].
  now rewrite rev_involutive.
Qed.

Lemma strip_keeps_infix (a k b : str) :
  solid k = true -> exists a' b', strip (a ++ k ++ b) = a' ++ k ++ b'.
Proof.
  intros Hk. unfold strip, strip_by.
  destruct (solid_inv _ Hk) as [(c & y & Ek & Hc) (z & y' & Ek' & Hz)].
  assert (E1 : exists a', lstrip_by isspace (a ++ k ++ b) = a' ++ k ++ b).
  { rewrite Ek. now apply dropwhile_keeps. }
  destruct E1 as (a' & ->). exists a'.
  unfold rstrip_by.
  assert (E : rev (a' ++ k ++ b) = rev b ++ z :: rev y' ++ rev a').
  { rewrite Ek', !rev_app_distr. cbn [rev app]. now rewrite <- !app_assoc. }
  rewrite E.
  destruct (dropwhile_keeps isspace (rev b) z (rev y' ++ rev a') Hz)
    as (b' & ->).
  exists (rev b'). rewrite Ek'.
  rewrite rev_app_distr. cbn [rev]. rewrite rev_app_distr, !rev_involutive.
  now rewrite <- !app_assoc.
Qed.

Lemma strip_keeps_suffix (a k : str) :
  solid k = true -> exists a', strip (a ++ k) = a' ++ k.
Proof.
  intros Hk. unfold strip, strip_by.
  destruct (lstrip_keeps a k Hk) as (a1 & ->). exists a1.
  destruct (solid_inv _ Hk) as [_ (z & y' & Ek' & Hz)].
  unfold rstrip_by.
  assert (E : rev (a1 ++ k) = z :: rev y' ++ rev a1).
  { rewrite Ek', !rev_app_distr. cbn [rev app]. reflexivity. }
  rewrite E. cbn [dropwhile]. rewrite Hz. rewrite <- E.
  apply rev_involutive.
Qed.

Lemma strip_solid (x : str) : strip x <> [] -> solid (strip x) = true.
Proof.
  unfold strip, strip_by, lstrip_by, rstrip_by.
  set (y := dropwhile isspace x).
  destruct (dropwhile isspace (rev y)) as [|z r] eqn:E; [now intros []|].
  intros _. pose proof (dropwhile_head _ _ _ _ E) as Hz.
  destruct (dropwhile_suffix isspace (rev y)) as (pre & Hy).
  rewrite E in Hy. apply (f_equal (@rev ascii)) in Hy.
  rewrite rev_involutive, rev_app_distr in Hy.
  unfold solid, last_char. rewrite rev_involutive. cbn [hd_error].
  rewrite Hz. rewrite andb_true_r.
  destruct (rev (z :: r)) as [|c t] eqn:Et.
  { apply (f_equal (@length ascii)) in Et. rewrite length_rev in Et.
    discriminate. }
  cbn [app] in Hy. unfold y in Hy.
  now rewrite (dropwhile_head _ _ _ _ Hy).
Qed.

Lemma join_last (sep : str) (l : list str) (f : str) :
  exists x, join sep (l ++ [f]) = x ++ f.
Proof.
  induction l as [|p l (x & IH)].
  - now exists [].
  - cbn [app join]. destruct (l ++ [f]) eqn:E.
    + destruct l; discriminate.
    + rewrite IH. exists (p ++ sep ++ x). now rewrite <- !app_assoc.
Qed.

Lemma join_first (sep : str) (p : str) (l : list str) :
  exists x, join sep (p :: l) = p ++ x.
Proof.
  destruct l as [|q l]; cbn [join].
  - exists []. now rewrite app_nil_r.
  - now exists (sep ++ join sep (q :: l)).
Qed.

Lemma solid_truthy (x : str) : solid x = true -> truthy x = true.
Proof. destruct x; [discriminate|reflexivity]. Qed.

(** The last part of the assembled statement closes it. *)
Lemma assemble_ends_with (s order_part fetch_part : str) :
  solid fetch_part = true ->
  ends_with fetch_part (assemble s order_part fetch_part).
Proof.
  intros Hf. unfold assemble.
  assert (E : filter truthy [strip s; order_part; fetch_part]
              = filter truthy [strip s; order_part] ++ [fetch_part]).
  { change [strip s; order_part; fetch_part]
      with ([strip s; order_part] ++ [fetch_part]).
    rewrite filter_app. f_equal. cbn [filter].
    now rewrite (solid_truthy _ Hf). }
  rewrite E. destruct (join_last (lit " ") (filter truthy [strip s; order_part])
                         fetch_part) as (x & ->).
  now apply strip_keeps_suffix.
Qed.

(** A solid part of the body survives the assembly. *)
Lemma assemble_keeps_infix (k s order_part fetch_part : str) :
  solid k = true -> infix k s ->
  infix k (assemble s order_part fetch_part).
Proof.
  intros Hk (a & b & ->). unfold assemble.
  destruct (strip_keeps_infix a k b Hk) as (a1 & b1 & E). rewrite E.
  assert (Ht : truthy (a1 ++ k ++ b1) = true).
  { destruct a1; [|reflexivity]. cbn [app].
    destruct k; [discriminate|reflexivity]. }
  cbn [filter]. rewrite Ht.
  destruct (join_first (lit " ") (a1 ++ k ++ b1)
              (filter truthy [order_part; fetch_part])) as (x & Hx).
  cbn [filter] in Hx. rewrite Hx.
  replace ((a1 ++ k ++ b1) ++ x) with (a1 ++ k ++ (b1 ++ x))
    by now rewrite <- !app_assoc.
  destruct (strip_keeps_infix a1 k (b1 ++ x) Hk) as (a2 & b2 & ->).
  now exists a2, b2.
Qed.

(** ** Inverting the pattern nodes *)

Section NodeFacts.
Variable A : Type.
Implicit Types (k : Re.cont A) (prev : option ascii) (s w : str).

Lemma chr_inv f k prev n s a :
  Re.chr f k prev n s = Some a ->
  exists c r, s = c :: r /\ f c = true /\ k (Some c) (S n) r = Some a.
Proof.
  unfold Re.chr. destruct s as [|c r]; [discriminate|].
  destruct (f c) eqn:E; [|discriminate]. eauto.
Qed.

Lemma wordb_inv k prev n s a :
  Re.wordb k prev n s = Some a ->
  xorb (Re.opt_word prev) (Re.opt_word (hd_error s)) = true /\
  k prev n s = Some a.
Proof.
  unfold Re.wordb. destruct (xorb _ _); [auto|discriminate].
Qed.

Lemma star_inv f k : forall s prev n a,
  Re.star f k prev n s = Some a ->
  exists w r, s = w ++ r /\ forallb f w = true /\
              k (prev_after prev w) (n + length w) r = Some a.
Proof.
  induction s as [|c s IH]; intros prev n a H; cbn [Re.star] in H.
  - exists [], []. rewrite Nat.add_0_r. auto.
  - assert (Stop : k prev n (c :: s) = Some a ->
            exists w r, c :: s = w ++ r /\ forallb f w = true /\
              k (prev_after prev w) (n + length w) r = Some a).
    { intros Hk. exists [], (c :: s). rewrite Nat.add_0_r. auto. }
    destruct (f c) eqn:E; [|auto].
    unfold Re.orelse in H.
    destruct (Re.star f k (Some c) (S n) s) eqn:Es; [|auto].
    injection H as ->. apply IH in Es as (w & r & -> & Hw & Hk).
    exists (c :: w), r. split; [reflexivity|]. cbn [forallb]. rewrite E, Hw.
    split; [reflexivity|]. rewrite prev_after_cons.
    now replace (n + length (c :: w)) with (S n + length w) by (simpl; lia).
Qed.

Lemma star_some f k : forall w prev n r a,
  forallb f w = true ->
  k (prev_after prev w) (n + length w) r = Some a ->
  exists a', Re.star f k prev n (w ++ r) = Some a'.
Proof.
  induction w as [|c w IH]; intros prev n r a Hw Hk.
  - cbn [app]. unfold prev_after in Hk. cbn in Hk.
    rewrite Nat.add_0_r in Hk.
    destruct r as [|c r]; cbn [Re.star]; [eauto|].
    destruct (f c); [|eauto]. unfold Re.orelse.
    destruct (Re.star f k (Some c) (S n) r); eauto.
  - cbn [forallb] in Hw. apply andb_true_iff in Hw as [Hc Hw].
    cbn [app Re.star]. rewrite Hc.
    rewrite prev_after_cons in Hk.
    replace (n + length (c :: w)) with (S n + length w) in Hk
      by (simpl; lia).
    destruct (IH _ _ _ _ Hw Hk) as (a' & ->). cbn. eauto.
Qed.

Lemma plus_inv f k s prev n a :
  Re.plus f k prev n s = Some a ->
  exists w r, s = w ++ r /\ w <> [] /\ forallb f w = true /\
              k (prev_after prev w) (n + length w) r = Some a.
Proof.
  unfold Re.plus. intros H.
  apply chr_inv in H as (c & r0 & -> & Hc & H).
  apply star_inv in H as (w & r & -> & Hw & Hk).
  exists (c :: w), r. split; [reflexivity|]. split; [discriminate|].
  cbn [forallb]. rewrite Hc, Hw. split; [reflexivity|].
  rewrite prev_after_cons.
  now replace (n + length (c :: w)) with (S n + length w) by (simpl; lia).
Qed.

Lemma plus_some f k w prev n r a :
  w <> [] -> forallb f w = true ->
  k (prev_after prev w) (n + length w) r = Some a ->
  exists a', Re.plus f k prev n (w ++ r) = Some a'.
Proof.
  intros Hne Hw Hk. destruct w as [|c w]; [contradiction|].
  cbn [forallb] in Hw. apply andb_true_iff in Hw as [Hc Hw].
  unfold Re.plus, Re.chr. cbn [app]. rewrite Hc.
  rewrite prev_after_cons in Hk.
  replace (n + length (c :: w)) with (S n + length w) in Hk by (simpl; lia).
  eapply star_some; eauto.
Qed.

Lemma text_exact_inv (p : str) k prev n s a :
  Re.text eqc p k prev n s = Some a ->
  exists r, s = p ++ r /\ k (prev_after prev p) (n + length p) r = Some a.
Proof.
  intros H. apply text_inv in H as (w & r & -> & HF & Hk).
  assert (w = p).
  { clear Hk. induction HF as [|x y p w Hxy HF IH]; [reflexivity|].
    apply eqc_eq in Hxy. congruence. }
  subst w. eauto.
Qed.

Lemma text_exact (p : str) k prev n r :
  Re.text eqc p k prev n (p ++ r) = k (prev_after prev p) (n + length p) r.
Proof.
  apply text_app. induction p; constructor; auto. now apply eqc_eq.
Qed.
End NodeFacts.

(** ** Clauses and predicates *)

Lemma finish_unfold (s : str) :
  finish s =
  assemble (inject_where (fst (split_order (fst (split_fetch s)))))
           (fix_order (snd (split_order (fst (split_fetch s)))))
           (fix_fetch (snd (split_fetch s))).
Proof.
  unfold finish. destruct (split_fetch s) as [s1 f]. cbn [fst snd].
  destruct (split_order s1) as [s2 o]. reflexivity.
Qed.

Lemma where_lower : lower_word (lit "where").
Proof. split; [discriminate|repeat constructor]. Qed.

Lemma where_search_first (body pre w post : str) :
  first_keyword (lit "where") body pre w post ->
  Re.search where_re body = Some (length pre, 5).
Proof.
  intros (-> & (Hw & Hp & Hq) & Hmin).
  apply (search_from_first _ where_re (pre ++ w ++ post) None 0 (length pre) 5).
  - rewrite length_app. lia.
  - rewrite char_before_app, skipn_app, skipn_all, Nat.sub_diag.
    cbn [skipn app].
    apply (keyword_re_app (lit "where") _ w post where_lower Hw Hp Hq).
  - intros e He.
    destruct (where_re (char_before None (pre ++ w ++ post) e)
                (skipn e (pre ++ w ++ post))) as [n|] eqn:E; [|reflexivity].
    apply (keyword_re_inv _ _ _ _ where_lower) in E
      as (w' & post' & Hs & Hw' & Hp' & Hq' & _).
    assert (Hle : e <= length (pre ++ w ++ post))
      by (rewrite length_app; lia).
    specialize (Hmin (firstn e (pre ++ w ++ post)) w' post').
    rewrite <- Hs, firstn_skipn in Hmin. specialize (Hmin eq_refl).
    rewrite length_firstn, Nat.min_l in Hmin by assumption.
    assert (length pre <= e); [|lia].
    apply Hmin. repeat split; auto.
    now rewrite <- char_before_firstn.
Qed.

Lemma inject_where_first (body pre w post : str) :
  first_keyword (lit "where") body pre w post ->
  inject_where body = pre ++ lit "WHERE " ++ inject ++ lit " AND" ++ post.
Proof.
  intros H. pose proof (where_search_first _ _ _ _ H) as Hs.
  destruct H as (-> & (Hw & _) & _).
  unfold inject_where, Re.found, Re.sub1. rewrite Hs.
  rewrite firstn_app, firstn_all, Nat.sub_diag. cbn [firstn].
  rewrite app_nil_r. f_equal. rewrite <- !app_assoc. do 2 f_equal.
  assert (Hl : length w = 5) by (rewrite <- (length_map lower_az), Hw; reflexivity).
  rewrite skipn_app.
  replace (length pre + 5 - length pre) with 5 by lia.
  rewrite skipn_all2 by lia. cbn [app].
  rewrite skipn_app, <- Hl, skipn_all, Nat.sub_diag. reflexivity.
Qed.

Lemma inject_where_absent (body : str) :
  ~ has_keyword (lit "where") body ->
  inject_where body = body ++ lit " WHERE " ++ inject.
Proof.
  intros H. unfold inject_where.
  destruct (Re.found where_re body) eqn:E; [|reflexivity].
  apply (keyword_found _ _ where_lower) in E. contradiction.
Qed.

Lemma inject_where_infix (body : str) :
  infix (lit "WHERE " ++ inject) (inject_where body).
Proof.
  unfold inject_where, Re.found, Re.sub1.
  destruct (Re.search where_re body) as [[i n]|].
  - exists (firstn i body), (lit " AND" ++ skipn (i + n) body).
    now rewrite <- !app_assoc.
  - exists (body ++ lit " "), []. now rewrite app_nil_r, <- !app_assoc.
Qed.

(** C3.  In the statement returned, the body (the text before ORDER BY and
    FETCH FIRST) has been given the mandatory predicates: its first
    standalone WHERE, in any mix of cases, is replaced by WHERE, the
    predicates joined with AND, and AND, so that they come before the
    conditions of the statement; a body without WHERE gets WHERE and the
    predicates appended; in both cases WHERE followed by all the predicates
    joined with AND is part of the returned statement. *)
Theorem mandatory_predicates_injected (V_SCHEMA : option str) (sql q : str) :
  template_literal V_SCHEMA = true ->
  clean_sql V_SCHEMA sql = Return q ->
  let body := fst (split_order (fst (split_fetch (prepare V_SCHEMA sql)))) in
  (exists order_part fetch_part,
     q = assemble (inject_where body) order_part fetch_part) /\
  (forall pre w post,
     first_keyword (lit "where") body pre w post ->
     inject_where body =
     pre ++ lit "WHERE " ++ join (lit " AND ") fixed ++ lit " AND" ++ post) /\
  (~ has_keyword (lit "where") body ->
   inject_where body = body ++ lit " WHERE " ++ join (lit " AND ") fixed) /\
  infix (lit "WHERE " ++ join (lit " AND ") fixed) q /\
  fixed = [lit "RELEASE_LOOKUP_CODE IS NULL";
           lit "HOLD_LOOKUP_CODE IN ('QTY ORD', 'QTY REC', 'PRICE', 'AMT ORG')"].
Proof.
  intros HT H body. apply (clean_sql_return _ _ _ HT) in H as (_ & _ & _ & ->).
  rewrite finish_unfold. fold body.
  split; [eauto|]. split; [apply inject_where_first|].
  split; [apply inject_where_absent|]. split; [|reflexivity].
  apply assemble_keeps_infix; [reflexivity|apply inject_where_infix].
Qed.

Lemma mandatory_predicates_injected_witness :
  infix (lit "WHERE RELEASE_LOOKUP_CODE IS NULL AND HOLD_LOOKUP_CODE IN ('QTY ORD', 'QTY REC', 'PRICE', 'AMT ORG')")
    (lit "SELECT * FROM AP_HOLDS_ALL WHERE RELEASE_LOOKUP_CODE IS NULL AND HOLD_LOOKUP_CODE IN ('QTY ORD', 'QTY REC', 'PRICE', 'AMT ORG') AND HOLD_ID = 1 FETCH FIRST 100 ROWS ONLY").
Proof.
  apply (mandatory_predicates_injected APPS
           (lit "SELECT * FROM AP_HOLDS_ALL WHERE HOLD_ID = 1") _ eq_refl).
  vm_compute. reflexivity.
Defined.

Lemma strip_nonempty (c : ascii) (r : str) :
  isspace c = false -> strip (c :: r) <> [].
Proof.
  intros Hc. unfold strip, strip_by, lstrip_by, rstrip_by.
  cbn [dropwhile]. rewrite Hc. cbn [rev].
  destruct (dropwhile_keeps isspace (rev r) c [] Hc) as (a & ->).
  intros H. apply (f_equal (@length ascii)) in H.
  rewrite length_rev, length_app in H. simpl in H. lia.
Qed.

Lemma letter_not_space (a c : ascii) :
  is_lower_az (lower_az a) = true -> eqc_ci a c = true -> isspace c = false.
Proof.
  unfold eqc_ci. intros Ha H. apply Ascii.eqb_eq in H. rewrite H in Ha.
  clear H a. revert Ha. each_char c.
Qed.

Lemma ci_spelling (p w : str) :
  Forall2 (fun a c => eqc_ci a c = true) p w ->
  map lower_az w = map lower_az p.
Proof.
  induction 1 as [|a c p w Hac _ IH]; [reflexivity|].
  cbn [map]. apply Ascii.eqb_eq in Hac. congruence.
Qed.

(** What [fetch_re] matches: FETCH, white space, FIRST, and characters
    other than a newline. *)
Lemma fetch_re_inv (prev : option ascii) (s : str) (n : nat) :
  fetch_re prev s = Some n ->
  exists kw1 ws kw2 tl rest,
    s = kw1 ++ ws ++ kw2 ++ tl ++ rest /\
    map lower_az kw1 = lit "fetch" /\
    ws <> [] /\ forallb isspace ws = true /\
    map lower_az kw2 = lit "first" /\
    forallb not_newline tl = true /\
    n = length (kw1 ++ ws ++ kw2 ++ tl).
Proof.
  unfold fetch_re, Re.run. intros H.
  apply wordb_inv in H as [_ H].
  apply text_inv in H as (kw1 & r1 & -> & H1 & H).
  apply plus_inv in H as (ws & r2 & -> & Hne & Hws & H).
  apply text_inv in H as (kw2 & r3 & -> & H2 & H).
  apply wordb_inv in H as [_ H].
  apply star_inv in H as (tl & rest & -> & Htl & H).
  unfold Re.fin in H. injection H as <-.
  exists kw1, ws, kw2, tl, rest. repeat split; auto.
  - now rewrite (ci_spelling _ _ H1).
  - now rewrite (ci_spelling _ _ H2).
  - rewrite !length_app. lia.
Qed.

Lemma search_slice (A : Type) (p : Re.pattern A) (s : str) (i : nat) (a : A) :
  Re.search p s = Some (i, a) ->
  i <= length s /\ p (char_before None s i) (skipn i s) = Some a.
Proof.
  intros H. apply search_from_sound in H as (d & -> & Hd & Hp & _). auto.
Qed.

(** The clause split off by line 140 opens with FETCH FIRST and runs along
    its line. *)
Lemma fetch_clause_shape (s : str) (i n : nat) :
  Re.search fetch_re s = Some (i, n) ->
  exists kw1 ws kw2 tl,
    slice i (i + n) s = kw1 ++ ws ++ kw2 ++ tl /\
    map lower_az kw1 = lit "fetch" /\
    ws <> [] /\ forallb isspace ws = true /\
    map lower_az kw2 = lit "first" /\
    forallb not_newline tl = true.
Proof.
  intros H. apply search_slice in H as [_ H].
  apply fetch_re_inv in H as (kw1 & ws & kw2 & tl & rest & E & H1 & Hne & Hws & H2 & Htl & ->).
  exists kw1, ws, kw2, tl. repeat split; auto.
  unfold slice. rewrite E.
  replace (i + length (kw1 ++ ws ++ kw2 ++ tl) - i)
    with (length (kw1 ++ ws ++ kw2 ++ tl)) by lia.
  replace (kw1 ++ ws ++ kw2 ++ tl ++ rest)
    with ((kw1 ++ ws ++ kw2 ++ tl) ++ rest) by now rewrite <- !app_assoc.
  now rewrite firstn_app, firstn_all, Nat.sub_diag, app_nil_r.
Qed.

Lemma fetch_clause_solid (s : str) (i n : nat) :
  Re.search fetch_re s = Some (i, n) ->
  solid (strip (slice i (i + n) s)) = true.
Proof.
  intros H. apply fetch_clause_shape in H
    as (kw1 & ws & kw2 & tl & -> & H1 & _).
  apply strip_solid. destruct kw1 as [|c kw1]; [discriminate|].
  cbn [app]. apply strip_nonempty.
  injection H1 as Hc _. revert Hc. each_char c.
Qed.

(** Line 150 finds its pattern exactly in the clauses that hold a column
    reference after an upper case ORDER BY. *)
Lemma order_col_found (clause : str) :
  Re.found order_col_re clause = true <-> column_after_order_by clause.
Proof.
  rewrite found_iff. split.
  - intros (i & a & Hi & H). unfold at_pos, order_col_re, Re.run in H.
    apply text_exact_inv in H as (r1 & E1 & H).
    apply plus_inv in H as (ws1 & r2 & -> & Hne1 & Hws1 & H).
    apply text_exact_inv in H as (r3 & -> & H).
    apply plus_inv in H as (ws2 & r4 & -> & Hne2 & Hws2 & H).
    apply chr_inv in H as (c & post & -> & Hc & _).
    exists (firstn i clause), ws1, ws2, c, post.
    repeat split; auto.
    rewrite <- E1. symmetry. apply firstn_skipn.
  - intros (pre & ws1 & ws2 & c & post & -> & Hne1 & Hws1 & Hne2 & Hws2 & Hc).
    exists (length pre). unfold at_pos, order_col_re, Re.run.
    rewrite skipn_app, skipn_all, Nat.sub_diag. cbn [skipn app].
    set (prev := char_before None _ _).
    change (["O"; "R"; "D"; "E"; "R"] ++ ws1 ++ ["B"; "Y"] ++ ws2 ++ c :: post)
      with (lit "ORDER" ++ ws1 ++ lit "BY" ++ ws2 ++ c :: post)%char.
    rewrite text_exact.
    assert (K : forall prev2 n2, exists a,
      Re.plus isspace (Re.chr ident_char Re.fin) prev2 n2 (ws2 ++ c :: post)
      = Some a).
    { intros prev2 n2.
      apply (plus_some _ isspace _ ws2 prev2 n2 (c :: post)
               (S (n2 + length ws2)) Hne2 Hws2).
      unfold Re.chr. now rewrite Hc. }
    assert (K1 : forall prev1 n1, exists a,
      Re.plus isspace
        (Re.text eqc (lit "BY") (Re.plus isspace (Re.chr ident_char Re.fin)))
        prev1 n1 (ws1 ++ lit "BY" ++ ws2 ++ c :: post) = Some a).
    { intros prev1 n1.
      destruct (K (prev_after (prev_after prev1 ws1) (lit "BY"))
                  (n1 + length ws1 + length (lit "BY"))) as (a & Ha).
      apply (plus_some _ isspace _ ws1 prev1 n1 _ a Hne1 Hws1).
      now rewrite text_exact. }
    destruct (K1 (prev_after prev (lit "ORDER")) (0 + length (lit "ORDER")))
      as (a & Ha).
    exists a. split; [rewrite length_app; lia|exact Ha].
Qed.

(** C6 (as amended).  A statement without an ORDER BY clause gets none:
    the returned statement is the body and the limit clause.  An ORDER BY
    clause that opens in upper case is replaced by the default order clause
    exactly when no column reference follows an ORDER BY in it, and is
    carried into the returned statement as written otherwise. *)
Theorem order_clause_default (V_SCHEMA : option str) (sql q : str) :
  template_literal V_SCHEMA = true ->
  clean_sql V_SCHEMA sql = Return q ->
  let s1 := fst (split_fetch (prepare V_SCHEMA sql)) in
  let body := inject_where (fst (split_order s1)) in
  let fetch_part := fix_fetch (snd (split_fetch (prepare V_SCHEMA sql))) in
  (Re.search order_re s1 = None -> q = assemble body [] fetch_part)
  /\
  (forall i n, Re.search order_re s1 = Some (i, n) ->
     let clause := strip (slice i (i + n) s1) in
     upper_order_by clause ->
     (column_after_order_by clause -> q = assemble body clause fetch_part)
     /\
     (~ column_after_order_by clause ->
      q = assemble body DEFAULT_ORDER fetch_part)).
Proof.
  intros HT H s1 body fetch_part.
  apply (clean_sql_return _ _ _ HT) in H as (_ & _ & _ & ->).
  rewrite finish_unfold. fold s1. fold body. fold fetch_part. split.
  - intros E. unfold split_order. rewrite E. reflexivity.
  - intros i n E clause Hup. unfold split_order. rewrite E. cbn [snd].
    fold clause. unfold fix_order.
    assert (Ht : truthy clause = true).
    { destruct Hup as (ws & tail & -> & _). reflexivity. }
    rewrite Ht. cbn [andb]. split.
    + intros Hc. apply order_col_found in Hc. now rewrite Hc.
    + intros Hc. destruct (Re.found order_col_re clause) eqn:F;
        [|reflexivity].
      apply order_col_found in F. contradiction.
Qed.

Lemma order_clause_default_witness :
  let raw := lit "SELECT * FROM AP_HOLDS_ALL ORDER BY" in
  let s1 := fst (split_fetch (prepare APPS raw)) in
  finish (prepare APPS raw) =
  assemble (inject_where (fst (split_order s1))) DEFAULT_ORDER
    (fix_fetch (snd (split_fetch (prepare APPS raw)))).
Proof.
  intros raw s1.
  pose proof (order_clause_default APPS raw (finish (prepare APPS raw))
                eq_refl eq_refl) as [_ K].
  specialize (K 27 8 eq_refl). cbv zeta in K.
  assert (Hup : upper_order_by
                  (strip (slice 27 (27 + 8)
                            (fst (split_fetch (prepare APPS raw)))))).
  { exists (lit " "), []. repeat split; try reflexivity. discriminate. }
  apply (proj2 (K Hup)).
  intros Hc. apply order_col_found in Hc. vm_compute in Hc. discriminate.
Defined.

(** C6, counterexample.  This statement has no ORDER BY clause, and the
    statement returned for it has none either: the default order clause is
    not put in. *)
Lemma absent_order_clause_stays_absent :
  let raw := lit "SELECT * FROM AP_HOLDS_ALL" in
  let q := lit "SELECT * FROM AP_HOLDS_ALL WHERE RELEASE_LOOKUP_CODE IS NULL AND HOLD_LOOKUP_CODE IN ('QTY ORD', 'QTY REC', 'PRICE', 'AMT ORG') FETCH FIRST 100 ROWS ONLY" in
  Re.search order_re (prepare APPS raw) = None /\
  clean_sql APPS raw = Return q /\
  contains DEFAULT_ORDER q = false /\
  contains (lit "ORDER BY") q = false.
Proof. repeat split; vm_compute; reflexivity. Qed.

(** The column check of line 150 is compiled without IGNORECASE: a clause
    written in lower case is replaced by the default although it names a
    column. *)
Example lower_case_order_by_replaced :
  clean_sql APPS (lit "select * from AP_HOLDS_ALL order by hold_id") =
  Return (lit "select * from AP_HOLDS_ALL WHERE RELEASE_LOOKUP_CODE IS NULL AND HOLD_LOOKUP_CODE IN ('QTY ORD', 'QTY REC', 'PRICE', 'AMT ORG') "
          ++ DEFAULT_ORDER ++ lit " FETCH FIRST 100 ROWS ONLY").
Proof. vm_compute. reflexivity. Qed.

(** ** The schema rewrite *)

Lemma opt_inv (A : Type) (x : Re.node A) k prev n s a :
  Re.opt x k prev n s = Some a ->
  x k prev n s = Some a \/ k prev n s = Some a.
Proof.
  unfold Re.opt, Re.orelse. destruct (x k prev n s); auto.
Qed.

Lemma ci_spelling_iff (p w : str) :
  Forall2 (fun a c => eqc_ci a c = true) p w <->
  map lower_az w = map lower_az p.
Proof.
  split; [apply ci_spelling|].
  revert w. induction p as [|a p IH]; intros [|c w] H; try discriminate;
    constructor.
  - injection H as Hc _. unfold eqc_ci. apply Ascii.eqb_eq. congruence.
  - injection H as _ Hw. now apply IH.
Qed.

Lemma schema_re_prev (prev prev' : option ascii) (s : str) :
  schema_re prev s = schema_re prev' s.
Proof.
  unfold schema_re, Re.run, Re.opt.
  destruct s as [|c s]; reflexivity.
Qed.

Lemma schema_re_inv (prev : option ascii) (s : str) (n : nat) :
  schema_re prev s = Some n ->
  exists m r, s = m ++ "." :: r /\ schema_qualifier m /\ n = S (length m).
Proof.
  unfold schema_re, Re.run. intros H.
  assert (Tail : forall q1 prev1 n1 s1,
    Re.text eqc_ci SOURCE_SCHEMA
      (Re.opt (Re.chr (eqc_ci dquote)) (Re.chr (eqc_ci ".") Re.fin))
      prev1 n1 s1 = Some n ->
    (q1 = [] \/ q1 = [dquote]) -> n1 = length q1 ->
    exists m r, q1 ++ s1 = m ++ "." :: r /\ schema_qualifier m /\
                n = S (length m)).
  { intros q1 prev1 n1 s1 Ht Hq1 Hn1.
    apply text_inv in Ht as (h & r1 & -> & Hh & Ht).
    apply ci_spelling in Hh.
    assert (Dot : forall prev2 n2 s2,
      Re.chr (eqc_ci ".") Re.fin prev2 n2 s2 = Some n ->
      exists r, s2 = "." :: r /\ n = S n2).
    { intros prev2 n2 s2 Hd. apply chr_inv in Hd as (c & r & -> & Hc & Hd).
      injection Hd as <-. exists r. split; [|reflexivity]. f_equal.
      revert Hc. each_char c. }
    apply opt_inv in Ht as [Ht|Ht].
    - apply chr_inv in Ht as (c & r2 & -> & Hc & Ht).
      assert (c = dquote) by (revert Hc; each_char c). subst c.
      apply Dot in Ht as (r & -> & ->).
      exists (q1 ++ h ++ [dquote]), r. split; [|split].
      + now rewrite <- !app_assoc.
      + exists q1, h, [dquote]. auto.
      + rewrite !length_app. simpl. lia.
    - apply Dot in Ht as (r & -> & ->).
      exists (q1 ++ h), r. split; [|split].
      + now rewrite <- !app_assoc.
      + exists q1, h, []. rewrite app_nil_r. auto.
      + rewrite !length_app. lia. }
  apply opt_inv in H as [H|H].
  - apply chr_inv in H as (c & r & -> & Hc & H).
    assert (c = dquote) by (revert Hc; each_char c). subst c.
    apply (Tail [dquote]) in H; auto.
  - apply (Tail []) in H; auto.
Qed.

Lemma lower_az_dot (c : ascii) : lower_az c = "." -> c = ".".
Proof. each_char c. Qed.

Lemma lower_az_five (c : ascii) : lower_az c = "5" -> c = "5".
Proof. each_char c. Qed.

Lemma lower_az_h (c : ascii) : lower_az c = "h" -> eqc_ci dquote c = false.
Proof. each_char c. Qed.

Lemma spelling_not_dot (p h : str) :
  map lower_az h = p -> forallb not_dot p = true -> forallb not_dot h = true.
Proof.
  intros <-. induction h as [|c h IH]; [reflexivity|].
  cbn [map forallb]. intros H. apply andb_true_iff in H as [Hc Hh].
  rewrite (IH Hh), andb_true_r. unfold not_dot in *.
  apply negb_true_iff. apply negb_true_iff in Hc.
  destruct (eqc c ".") eqn:E; [|reflexivity].
  apply eqc_eq in E. subst c. discriminate.
Qed.

Lemma schema_qualifier_shape (m : str) :
  schema_qualifier m ->
  forallb not_dot m = true /\
  exists c, last_char m = Some c /\ (c = "5" \/ c = dquote).
Proof.
  intros (q1 & h & q2 & -> & Hq1 & Hq2 & Hh).
  assert (Hd : forallb not_dot h = true).
  { apply (spelling_not_dot _ _ Hh). reflexivity. }
  split.
  - rewrite !forallb_app, Hd.
    destruct Hq1 as [->| ->], Hq2 as [->| ->]; reflexivity.
  - destruct Hq2 as [->| ->].
    + rewrite app_nil_r.
      destruct (rev h) as [|z r] eqn:E.
      { apply (f_equal (@rev ascii)) in E. rewrite rev_involutive in E.
        subst h. discriminate. }
      apply (f_equal (@rev ascii)) in E. rewrite rev_involutive in E.
      cbn [rev] in E. subst h. rewrite app_assoc, last_char_app.
      exists z. split; [reflexivity|]. left.
      rewrite map_app in Hh. cbn [map] in Hh.
      apply (f_equal (@rev ascii)) in Hh. rewrite rev_app_distr in Hh.
      cbn in Hh. injection Hh as Hz _. now apply lower_az_five.
    + rewrite !app_assoc, last_char_app. eauto.
Qed.

Lemma schema_re_complete (prev : option ascii) (m r : str) :
  schema_qualifier m ->
  schema_re prev (m ++ "." :: r) = Some (S (length m)).
Proof.
  intros (q1 & h & q2 & -> & Hq1 & Hq2 & Hh).
  apply ci_spelling_iff in Hh.
  assert (Tail : forall prev1 n1,
    Re.text eqc_ci SOURCE_SCHEMA
      (Re.opt (Re.chr (eqc_ci dquote)) (Re.chr (eqc_ci ".") Re.fin))
      prev1 n1 ((h ++ q2) ++ "." :: r)
    = Some (S (n1 + length (h ++ q2)))).
  { intros prev1 n1. rewrite <- app_assoc. rewrite (text_app _ _ _ _ _ _ _ _ Hh).
    rewrite length_app.
    destruct Hq2 as [->| ->]; cbn; unfold Re.fin; f_equal; lia. }
  assert (Hhd : exists c h', h = c :: h' /\ lower_az c = "h").
  { apply ci_spelling in Hh. destruct h as [|c h']; [discriminate|].
    injection Hh as Hc _. eauto. }
  destruct Hhd as (c & h' & Eh & Hc).
  unfold schema_re, Re.run. destruct Hq1 as [->| ->].
  - cbn [app]. unfold Re.opt at 1.
    assert (E : Re.chr (eqc_ci dquote)
                  (Re.text eqc_ci SOURCE_SCHEMA
                     (Re.opt (Re.chr (eqc_ci dquote))
                        (Re.chr (eqc_ci ".") Re.fin)))
                  prev 0 ((h ++ q2) ++ "." :: r) = None).
    { rewrite Eh. cbn [app]. unfold Re.chr at 1.
      now rewrite (lower_az_h _ Hc). }
    rewrite E. cbn [Re.orelse]. now rewrite Tail.
  - cbn [app]. unfold Re.opt at 1. unfold Re.chr at 1.
    change (eqc_ci dquote dquote) with true. cbv iota.
    rewrite Tail. cbn [Re.orelse]. reflexivity.
Qed.

Lemma first_dot_unique (a a' b b' : str) :
  forallb not_dot a = true -> forallb not_dot a' = true ->
  a ++ "." :: b = a' ++ "." :: b' -> a = a' /\ b = b'.
Proof.
  revert a'. induction a as [|x a IH]; intros [|y a'] Ha Ha' E.
  - injection E as <-. auto.
  - injection E as <- _. discriminate.
  - injection E as -> _. discriminate.
  - cbn [forallb] in Ha, Ha'.
    apply andb_true_iff in Ha as [_ Ha]. apply andb_true_iff in Ha' as [_ Ha'].
    injection E as <- E. destruct (IH _ Ha Ha' E) as [<- <-]. auto.
Qed.

Lemma first_dot_split (x : str) :
  forallb not_dot x = true \/
  exists a b, x = a ++ "." :: b /\ forallb not_dot a = true.
Proof.
  induction x as [|c x [IH|(a & b & -> & Ha)]].
  - now left.
  - destruct (not_dot c) eqn:E.
    + left. cbn [forallb]. now rewrite E, IH.
    + right. exists [], x. split; [|reflexivity].
      unfold not_dot in E. apply negb_false_iff, eqc_eq in E. now subst.
  - destruct (not_dot c) eqn:E.
    + right. exists (c :: a), b. split; [reflexivity|].
      cbn [forallb]. now rewrite E, Ha.
    + right. exists [], (a ++ "." :: b). split; [|reflexivity].
      unfold not_dot in E. apply negb_false_iff, eqc_eq in E. now subst.
Qed.

Lemma last_char_app_nonempty (a v : str) :
  v <> [] -> last_char (a ++ v) = last_char v.
Proof.
  intros Hv. unfold last_char. rewrite rev_app_distr.
  destruct (rev v) eqn:E; [|reflexivity].
  apply (f_equal (@rev ascii)) in E. rewrite rev_involutive in E.
  contradiction.
Qed.

Section Rewrite.
Variable v : str.
Hypothesis v_nonempty : v <> [].
Hypothesis v_nodot : forallb not_dot v = true.
Hypothesis v_last : forall c, last_char v = Some c -> c <> "5" /\ c <> dquote.

(** Nothing that the pattern matches reaches into the replacement. *)
Lemma no_match_across (w s rest : str) (i : nat) :
  (forall j, j < length w -> schema_re None (skipn j (w ++ s)) = None) ->
  i <= length (w ++ v) ->
  schema_re None (skipn i ((w ++ v) ++ "." :: rest)) = None.
Proof.
  intros H Hi. rewrite skipn_app.
  replace (i - length (w ++ v)) with 0 by lia. cbn [skipn].
  destruct (schema_re None (skipn i (w ++ v) ++ "." :: rest)) as [n|] eqn:E;
    [|reflexivity].
  exfalso. apply schema_re_inv in E as (m & r & E & Hm & _).
  pose proof (schema_qualifier_shape _ Hm) as (Hnd & c & Hc & Hc').
  assert (Bad : forall x, x <> [] -> last_char (x) = last_char v ->
                m = x -> False).
  { intros x _ Hl ->. rewrite Hl in Hc.
    destruct (v_last _ Hc). destruct Hc'; contradiction. }
  rewrite skipn_app in E.
  destruct (Nat.le_gt_cases (length w) i) as [Hge|Hlt].
  - rewrite skipn_all2 in E by assumption. cbn [app] in E.
    assert (Hx : forallb not_dot (skipn (i - length w) v) = true).
    { rewrite <- (firstn_skipn (i - length w) v) in v_nodot.
      rewrite forallb_app in v_nodot.
      now apply andb_true_iff in v_nodot as [_ ?]. }
    destruct (first_dot_unique _ _ _ _ Hx Hnd E) as [Em _].
    assert (Hne : skipn (i - length w) v <> []).
    { intros Hnil. rewrite Hnil in Em. subst m. discriminate. }
    apply (Bad (skipn (i - length w) v)); [assumption| |now symmetry].
    rewrite <- (firstn_skipn (i - length w) v) at 2.
    symmetry. now apply last_char_app_nonempty.
  - replace (i - length w) with 0 in E by lia. cbn [skipn] in E.
    destruct (first_dot_split (skipn i w)) as [Hw|(a & b & Ew & Ha)].
    + assert (Hx : forallb not_dot (skipn i w ++ v) = true)
        by now rewrite forallb_app, Hw.
      destruct (first_dot_unique _ _ _ _ Hx Hnd E) as [<- _].
      apply (Bad (skipn i w ++ v)); [|now apply last_char_app_nonempty|reflexivity].
      destruct (skipn i w); [exact v_nonempty|discriminate].
    + rewrite Ew in E. rewrite <- !app_assoc in E. cbn [app] in E.
      destruct (first_dot_unique _ _ _ _ Ha Hnd E) as [<- _].
      specialize (H i Hlt). rewrite skipn_app in H.
      replace (i - length w) with 0 in H by lia. cbn [skipn] in H.
      rewrite Ew, <- app_assoc in H. cbn [app] in H.
      rewrite (schema_re_complete None a (b ++ s) Hm) in H. discriminate.
Qed.

Lemma sub_qualifier_free : forall s skip prev w,
  (skip <> 0 -> w = []) ->
  (forall j, j < length w -> schema_re None (skipn j (w ++ s)) = None) ->
  qualifier_free (w ++ Re.sub_from schema_re (v ++ lit ".") skip prev s).
Proof.
  induction s as [|c r IH]; intros skip prev w Hskip H.
  - cbn [Re.sub_from]. intros i Hi.
    destruct (Nat.eq_dec i (length (w ++ []))) as [->|Hne].
    + now rewrite skipn_all.
    + apply H. rewrite length_app in *. simpl in *. lia.
  - cbn [Re.sub_from]. destruct skip as [|k].
    + destruct (schema_re prev (c :: r)) as [[|k]|] eqn:E.
      * apply schema_re_inv in E as (m & r' & _ & _ & E). discriminate.
      * intros i Hi.
        replace (w ++ (v ++ lit ".") ++ Re.sub_from schema_re (v ++ lit ".") k (Some c) r)
          with ((w ++ v) ++ "." :: Re.sub_from schema_re (v ++ lit ".") k (Some c) r)
          in * by (rewrite <- !app_assoc; reflexivity).
        destruct (Nat.le_gt_cases i (length (w ++ v))) as [Hle|Hgt].
        -- now apply (no_match_across w (c :: r)).
        -- rewrite skipn_app, skipn_all2 by lia. cbn [app].
           remember (i - length (w ++ v)) as d eqn:Ed.
           destruct d as [|d]; [lia|]. cbn [skipn].
           apply (IH k (Some c) []); [reflexivity| |].
           ++ intros j Hj. inversion Hj.
           ++ rewrite length_app in Hi. cbn [length app] in *. lia.
      * replace (w ++ c :: Re.sub_from schema_re (v ++ lit ".") 0 (Some c) r)
          with ((w ++ [c]) ++ Re.sub_from schema_re (v ++ lit ".") 0 (Some c) r)
          by (rewrite <- app_assoc; reflexivity).
        apply IH; [now intros []|].
        intros j Hj. rewrite <- app_assoc. cbn [app].
        rewrite length_app in Hj. cbn [length] in Hj.
        destruct (Nat.eq_dec j (length w)) as [->|Hne].
        -- rewrite skipn_app, skipn_all, Nat.sub_diag. cbn [skipn app].
           now rewrite (schema_re_prev None prev).
        -- apply H. lia.
    + rewrite (Hskip ltac:(discriminate)). cbn [app].
      apply (IH k (Some c) []); [reflexivity|].
      intros j Hj. inversion Hj.
Qed.
End Rewrite.





(** ** Worked statements *)

Example targets_quoted_and_qualified :
  Re.findall from_join_re
    (lit "select * from " ++ [dquote] ++ lit "apps" ++ [dquote] ++ lit "."
       ++ [dquote] ++ lit "ap_holds_all" ++ [dquote]
       ++ lit " a JOIN other_schema.AP_HOLDS_ALL b on 1=1")
  = [[dquote] ++ lit "apps" ++ [dquote] ++ lit "." ++ [dquote]
       ++ lit "ap_holds_all" ++ [dquote];
     lit "other_schema.AP_HOLDS_ALL"].
Proof. vm_compute. reflexivity. Qed.

Example table_name_strips_quotes_and_schema :
  table_name ([dquote] ++ lit "apps" ++ [dquote] ++ lit "." ++ [dquote]
                ++ lit "ap_holds_all" ++ [dquote])
  = lit "AP_HOLDS_ALL".
Proof. vm_compute. reflexivity. Qed.

Example schema_is_rewritten :
  clean_sql APPS (lit "SELECT * FROM HOL_AGENT_05.AP_HOLDS_ALL") =
  Return (lit "SELECT * FROM APPS.AP_HOLDS_ALL WHERE RELEASE_LOOKUP_CODE IS NULL AND HOLD_LOOKUP_CODE IN ('QTY ORD', 'QTY REC', 'PRICE', 'AMT ORG') FETCH FIRST 100 ROWS ONLY").
Proof. vm_compute. reflexivity. Qed.

Example fenced_statement_is_unwrapped :
  clean_sql APPS
    (lit "```sql" ++ [newline]
       ++ lit "SELECT HOLD_ID FROM AP_HOLDS_ALL WHERE INVOICE_ID = 7 ORDER BY HOLD_DATE DESC FETCH FIRST 5 ROWS ONLY;"
       ++ [newline] ++ lit "```")
  = Return (lit "SELECT HOLD_ID FROM AP_HOLDS_ALL WHERE RELEASE_LOOKUP_CODE IS NULL AND HOLD_LOOKUP_CODE IN ('QTY ORD', 'QTY REC', 'PRICE', 'AMT ORG') AND INVOICE_ID = 7 ORDER BY HOLD_DATE DESC FETCH FIRST 5 ROWS ONLY").
Proof. vm_compute. reflexivity. Qed.

Example successful_run_is_logged :
  snd (vision_execute world_ok APPS (lit "SELECT * FROM AP_HOLDS_ALL")) =
  [Connect;
   Execute (lit "SELECT * FROM AP_HOLDS_ALL WHERE RELEASE_LOOKUP_CODE IS NULL AND HOLD_LOOKUP_CODE IN ('QTY ORD', 'QTY REC', 'PRICE', 'AMT ORG') FETCH FIRST 100 ROWS ONLY");
   LogAppend (LogEntry (lit "2025-01-01 00:00:00")
                (lit "SELECT * FROM AP_HOLDS_ALL WHERE RELEASE_LOOKUP_CODE IS NULL AND HOLD_LOOKUP_CODE IN ('QTY ORD', 'QTY REC', 'PRICE', 'AMT ORG') FETCH FIRST 100 ROWS ONLY")
                1)].
Proof. vm_compute. reflexivity. Qed.

(** ** What the patterns of lines 132 and 144 match *)

Lemma slice_middle (a b c : str) :
  slice (length a) (length a + length b) (a ++ b ++ c) = b.
Proof.
  unfold slice. rewrite skipn_app, skipn_all, Nat.sub_diag. cbn [skipn app].
  replace (length a + length b - length a) with (length b) by lia.
  now rewrite firstn_app, firstn_all, Nat.sub_diag, app_nil_r.
Qed.

(** A match of line 132 is FROM or JOIN in any mix of cases, not preceded
    by a word character, white space, and a run of identifier characters;
    the run is what the match captures. *)
Lemma from_join_re_inv (prev : option ascii) (s : str) (n : nat) (obj : str) :
  from_join_re prev s = Some (n, obj) ->
  exists kw ws rest,
    s = kw ++ ws ++ obj ++ rest /\
    (map lower_az kw = lit "from" \/ map lower_az kw = lit "join") /\
    Re.opt_word prev = false /\
    ws <> [] /\ forallb isspace ws = true /\
    obj <> [] /\ forallb ident_char obj = true /\
    n = length (kw ++ ws ++ obj).
Proof.
  unfold from_join_re. intros H.
  apply wordb_inv in H as [Hb H].
  apply words_inv in H as (kw0 & Hin & H).
  apply text_inv in H as (kw & r1 & E1 & Hkw & H).
  apply ci_spelling in Hkw.
  apply plus_inv in H as (ws & r2 & -> & Hne & Hws & H).
  apply plus_inv in H as (o & rest & -> & Hone & Ho & H).
  injection H as <- <-.
  assert (Hspell : map lower_az kw = lit "from" \/ map lower_az kw = lit "join").
  { destruct Hin as [<-|[<-|[]]]; rewrite Hkw; auto. }
  assert (Hlen : length kw = 4).
  { rewrite <- (length_map lower_az). destruct Hspell as [-> | ->]; reflexivity. }
  exists kw, ws, rest. subst s.
  assert (Hobj : slice (length kw + length ws)
                   (length kw + length ws + length o)
                   (kw ++ ws ++ o ++ rest) = o).
  { replace (kw ++ ws ++ o ++ rest) with ((kw ++ ws) ++ o ++ rest)
      by now rewrite <- app_assoc.
    replace (length kw + length ws) with (length (kw ++ ws))
      by (rewrite length_app; lia).
    apply slice_middle. }
  rewrite Hobj. repeat split; auto.
  - destruct kw as [|c kw]; [discriminate|].
    assert (Hw : isword c = true).
    { apply lower_az_letter_word.
      destruct Hspell as [Hs|Hs]; injection Hs as -> _; reflexivity. }
    cbn in Hb. rewrite Hw in Hb. now destruct (Re.opt_word prev).
  - rewrite !length_app. lia.
Qed.

Lemma findall_from_in (A : Type) (p : Re.pattern (nat * A)) (a : A) :
  forall s skip prev,
  In a (Re.findall_from p skip prev s) ->
  exists d n, d <= length s /\
    p (char_before prev s d) (skipn d s) = Some (n, a).
Proof.
  induction s as [|c r IH]; intros skip prev H; [destruct H|].
  cbn [Re.findall_from] in H.
  assert (Next : forall k, In a (Re.findall_from p k (Some c) r) ->
            exists d n, d <= length (c :: r) /\
              p (char_before prev (c :: r) d) (skipn d (c :: r)) = Some (n, a)).
  { intros k Hk. apply IH in Hk as (d & n & Hd & Hp).
    exists (S d), n. split; [simpl; lia|]. destruct d; exact Hp. }
  destruct skip as [|k]; [|eauto].
  destruct (p prev (c :: r)) as [[[|k] b]|] eqn:E; eauto.
  destruct H as [<-|H]; [|eauto].
  exists 0, (S k). split; [simpl; lia|exact E].
Qed.

(** X20.  Every target the table check looks at is written in the
    statement right after a FROM or JOIN that no word character precedes,
    in any mix of cases, and white space; it is a run of identifier
    characters. *)
Lemma targets_follow_from_or_join (s obj : str) :
  In obj (Re.findall from_join_re s) ->
  exists pre kw ws rest,
    s = pre ++ kw ++ ws ++ obj ++ rest /\
    (map lower_az kw = lit "from" \/ map lower_az kw = lit "join") /\
    Re.opt_word (last_char pre) = false /\
    ws <> [] /\ forallb isspace ws = true /\
    obj <> [] /\ forallb ident_char obj = true.
Proof.
  intros H. apply findall_from_in in H as (d & n & Hd & H).
  apply from_join_re_inv in H
    as (kw & ws & rest & E & Hkw & Hp & Hne & Hws & Hone & Ho & _).
  exists (firstn d s), kw, ws, rest. repeat split; auto.
  - rewrite <- E. symmetry. apply firstn_skipn.
  - now rewrite <- char_before_firstn.
Qed.

Lemma order_re_inv (prev : option ascii) (s : str) (n : nat) :
  order_re prev s = Some n ->
  exists kw1 ws kw2 tl rest,
    s = kw1 ++ ws ++ kw2 ++ tl ++ rest /\
    map lower_az kw1 = lit "order" /\
    ws <> [] /\ forallb isspace ws = true /\
    map lower_az kw2 = lit "by" /\
    forallb order_char tl = true /\
    n = length (kw1 ++ ws ++ kw2 ++ tl).
Proof.
  unfold order_re, Re.run. intros H.
  apply wordb_inv in H as [_ H].
  apply text_inv in H as (kw1 & r1 & -> & H1 & H).
  apply plus_inv in H as (ws & r2 & -> & Hne & Hws & H).
  apply text_inv in H as (kw2 & r3 & -> & H2 & H).
  apply wordb_inv in H as [_ H].
  apply star_inv in H as (tl & rest & -> & Htl & H).
  unfold Re.fin in H. injection H as <-.
  exists kw1, ws, kw2, tl, rest. repeat split; auto.
  - now rewrite (ci_spelling _ _ H1).
  - now rewrite (ci_spelling _ _ H2).
  - rewrite !length_app. lia.
Qed.

(** X21.  The clause split off by line 144 opens with ORDER, white space
    and BY in any mix of cases, and holds neither a newline nor a
    semicolon after them: what follows on a later line is not part of it. *)
Lemma order_clause_shape (s : str) (i n : nat) :
  Re.search order_re s = Some (i, n) ->
  exists kw1 ws kw2 tl,
    slice i (i + n) s = kw1 ++ ws ++ kw2 ++ tl /\
    map lower_az kw1 = lit "order" /\
    ws <> [] /\ forallb isspace ws = true /\
    map lower_az kw2 = lit "by" /\
    forallb order_char tl = true.
Proof.
  intros H. apply search_slice in H as [_ H].
  apply order_re_inv in H as (kw1 & ws & kw2 & tl & rest & E & H1 & Hne & Hws & H2 & Htl & ->).
  exists kw1, ws, kw2, tl. repeat split; auto.
  unfold slice. rewrite E.
  replace (i + length (kw1 ++ ws ++ kw2 ++ tl) - i)
    with (length (kw1 ++ ws ++ kw2 ++ tl)) by lia.
  replace (kw1 ++ ws ++ kw2 ++ tl ++ rest)
    with ((kw1 ++ ws ++ kw2 ++ tl) ++ rest) by now rewrite <- !app_assoc.
  now rewrite firstn_app, firstn_all, Nat.sub_diag, app_nil_r.
Qed.

(** * The checks, in terms of the statement *)

(** ** Greedy runs *)

Section Greedy.
Variable A : Type.
Implicit Types (k : Re.cont A) (prev : option ascii) (s w : str).

(** A greedy run stops where the class stops, when the rest of the
    pattern matches there. *)
Lemma star_greedy f k : forall w prev n r a,
  forallb f w = true ->
  (forall c, hd_error r = Some c -> f c = false) ->
  k (prev_after prev w) (n + length w) r = Some a ->
  Re.star f k prev n (w ++ r) = Some a.
Proof.
  induction w as [|c w IH]; intros prev n r a Hw Hr Hk.
  - cbn [app]. unfold prev_after in Hk. cbn in Hk. rewrite Nat.add_0_r in Hk.
    destruct r as [|c r]; cbn [Re.star]; [exact Hk|].
    now rewrite (Hr c eq_refl).
  - cbn [forallb] in Hw. apply andb_true_iff in Hw as [Hc Hw].
    cbn [app Re.star]. rewrite Hc.
    rewrite prev_after_cons in Hk.
    replace (n + length (c :: w)) with (S n + length w) in Hk
      by (simpl; lia).
    now rewrite (IH _ _ _ _ Hw Hr Hk).
Qed.

Lemma plus_greedy f k w prev n r a :
  w <> [] -> forallb f w = true ->
  (forall c, hd_error r = Some c -> f c = false) ->
  k (prev_after prev w) (n + length w) r = Some a ->
  Re.plus f k prev n (w ++ r) = Some a.
Proof.
  intros Hne Hw Hr Hk. destruct w as [|c w]; [contradiction|].
  cbn [forallb] in Hw. apply andb_true_iff in Hw as [Hc Hw].
  unfold Re.plus, Re.chr. cbn [app]. rewrite Hc.
  rewrite prev_after_cons in Hk.
  replace (n + length (c :: w)) with (S n + length w) in Hk by (simpl; lia).
  now apply star_greedy.
Qed.

(** Before a rest of the pattern that always matches, a greedy run is
    the longest run. *)
Lemma star_max f k :
  (forall p m t, k p m t <> None) ->
  forall s prev n a,
  Re.star f k prev n s = Some a ->
  exists w r, s = w ++ r /\ forallb f w = true /\
    (forall c, hd_error r = Some c -> f c = false) /\
    k (prev_after prev w) (n + length w) r = Some a.
Proof.
  intros Htot.
  assert (Hs : forall s prev n, Re.star f k prev n s <> None).
  { induction s as [|c s IHs]; intros prev n; cbn [Re.star]; [apply Htot|].
    destruct (f c); [|apply Htot].
    destruct (Re.star f k (Some c) (S n) s) eqn:E; [discriminate|].
    now apply IHs in E. }
  induction s as [|c s IH]; intros prev n a H; cbn [Re.star] in H.
  - exists [], []. rewrite Nat.add_0_r. repeat split; auto. discriminate.
  - destruct (f c) eqn:E.
    + destruct (Re.star f k (Some c) (S n) s) as [a'|] eqn:Es.
      * cbn in H. injection H as ->.
        apply IH in Es as (w & r & -> & Hw & Hr & Hk).
        exists (c :: w), r. cbn [forallb app]. rewrite E, Hw.
        repeat split; auto. rewrite prev_after_cons.
        now replace (n + length (c :: w)) with (S n + length w)
          by (simpl; lia).
      * now apply Hs in Es.
    + exists [], (c :: s). rewrite Nat.add_0_r. repeat split; auto.
      intros c' Hc'. now injection Hc' as <-.
Qed.

Lemma plus_max f k :
  (forall p m t, k p m t <> None) ->
  forall s prev n a,
  Re.plus f k prev n s = Some a ->
  exists w r, s = w ++ r /\ w <> [] /\ forallb f w = true /\
    (forall c, hd_error r = Some c -> f c = false) /\
    k (prev_after prev w) (n + length w) r = Some a.
Proof.
  intros Htot s prev n a H. unfold Re.plus in H.
  apply chr_inv in H as (c & r0 & -> & Hc & H).
  apply (star_max f k Htot) in H as (w & r & -> & Hw & Hr & Hk).
  exists (c :: w), r. split; [reflexivity|]. split; [discriminate|].
  cbn [forallb]. rewrite Hc, Hw. repeat split; auto.
  rewrite prev_after_cons.
  now replace (n + length (c :: w)) with (S n + length w) by (simpl; lia).
Qed.
End Greedy.

(** ** The row-limit clause *)

Lemma letter_facts (c : ascii) :
  is_lower_az (lower_az c) = true ->
  isspace c = false /\ ident_char c = true /\ isword c = true.
Proof. each_char c. Qed.

Lemma ci_forall2 (p : str) : forall w,
  map lower_az w = map lower_az p ->
  Forall2 (fun a c => eqc_ci a c = true) p w.
Proof.
  induction p as [|a p IH]; intros [|c w] H; try discriminate; constructor.
  - injection H as Hc _. unfold eqc_ci. apply Ascii.eqb_eq. congruence.
  - injection H as _ Hw. now apply IH.
Qed.

Lemma fetch_lower : lower_word (lit "fetch").
Proof. split; [discriminate|repeat constructor]. Qed.

Lemma first_lower : lower_word (lit "first").
Proof. split; [discriminate|repeat constructor]. Qed.

Lemma spelled_head (kw w : str) :
  lower_word kw -> map lower_az w = kw ->
  exists c w', w = c :: w' /\ is_lower_az (lower_az c) = true.
Proof.
  intros [Hne HF] <-. destruct w as [|c w]; [now elim Hne|].
  exists c, w. split; [reflexivity|]. now inversion HF.
Qed.

Lemma not_newline_false (c : ascii) : not_newline c = false -> c = newline.
Proof.
  unfold not_newline. intros H. apply negb_false_iff in H. now apply eqc_eq.
Qed.

(** What a match of line 140 is, with its boundaries and its end. *)
Lemma fetch_re_bounds (prev : option ascii) (s : str) (n : nat) :
  fetch_re prev s = Some n ->
  exists kw1 ws kw2 tl rest,
    s = kw1 ++ ws ++ kw2 ++ tl ++ rest /\
    map lower_az kw1 = lit "fetch" /\
    ws <> [] /\ forallb isspace ws = true /\
    map lower_az kw2 = lit "first" /\
    Re.opt_word prev = false /\
    Re.opt_word (hd_error (tl ++ rest)) = false /\
    forallb not_newline tl = true /\
    (forall c, hd_error rest = Some c -> c = newline) /\
    n = length (kw1 ++ ws ++ kw2 ++ tl).
Proof.
  unfold fetch_re, Re.run. intros H.
  apply wordb_inv in H as [Hb1 H].
  apply text_inv in H as (kw1 & r1 & -> & H1 & H).
  apply plus_inv in H as (ws & r2 & -> & Hne & Hws & H).
  apply text_inv in H as (kw2 & r3 & -> & H2 & H).
  apply wordb_inv in H as [Hb2 H].
  apply (star_max _ not_newline Re.fin) in H
    as (tl & rest & -> & Htl & Hr & H); [|discriminate].
  unfold Re.fin in H. injection H as <-.
  apply ci_spelling in H1. apply ci_spelling in H2.
  change (map lower_az (lit "FETCH")) with (lit "fetch") in H1.
  change (map lower_az (lit "FIRST")) with (lit "first") in H2.
  destruct (spelled_words _ _ fetch_lower H1) as (Hh1 & _ & _).
  destruct (spelled_words _ _ first_lower H2) as (_ & Hl2 & _).
  exists kw1, ws, kw2, tl, rest. repeat split; auto.
  - assert (Hh : Re.opt_word (hd_error (kw1 ++ ws ++ kw2 ++ tl ++ rest)) = true).
    { destruct kw1; [discriminate|exact Hh1]. }
    rewrite Hh in Hb1. now destruct (Re.opt_word prev).
  - rewrite Hl2 in Hb2. now destruct (Re.opt_word (hd_error (tl ++ rest))).
  - intros c Hc. apply not_newline_false. now apply Hr.
  - rewrite !length_app. lia.
Qed.

(** Where FETCH FIRST stands, line 140 matches to the end of the line. *)
Lemma fetch_re_at (prev : option ascii) (kw1 ws kw2 tl rest : str) :
  map lower_az kw1 = lit "fetch" ->
  ws <> [] -> forallb isspace ws = true ->
  map lower_az kw2 = lit "first" ->
  Re.opt_word prev = false ->
  Re.opt_word (hd_error (tl ++ rest)) = false ->
  forallb not_newline tl = true ->
  (forall c, hd_error rest = Some c -> c = newline) ->
  fetch_re prev (kw1 ++ ws ++ kw2 ++ tl ++ rest)
  = Some (length (kw1 ++ ws ++ kw2 ++ tl)).
Proof.
  intros H1 Hne Hws H2 Hp Hq Htl Hr.
  destruct (spelled_words _ _ fetch_lower H1) as (Hh1 & _ & _).
  destruct (spelled_words _ _ first_lower H2) as (_ & Hl2 & _).
  destruct (spelled_head _ _ first_lower H2) as (c2 & w2 & E2 & Hc2).
  unfold fetch_re, Re.run. unfold Re.wordb at 1.
  assert (Hh : Re.opt_word (hd_error (kw1 ++ ws ++ kw2 ++ tl ++ rest)) = true).
  { destruct kw1; [discriminate|exact Hh1]. }
  rewrite Hp, Hh. cbn [xorb].
  rewrite text_app by (apply ci_forall2; exact H1).
  apply plus_greedy; [assumption|assumption| |].
  { intros c Hc. rewrite E2 in Hc. injection Hc as <-.
    apply (letter_facts _ Hc2). }
  rewrite text_app by (apply ci_forall2; exact H2).
  unfold Re.wordb. rewrite Hl2, Hq. cbn [xorb].
  apply star_greedy; [assumption| |].
  { intros c Hc. rewrite (Hr c Hc). reflexivity. }
  unfold Re.fin. f_equal. rewrite !length_app. lia.
Qed.

Lemma line_split (post : str) :
  exists tl rest, post = tl ++ rest /\ forallb not_newline tl = true /\
    (forall c, hd_error rest = Some c -> c = newline).
Proof.
  induction post as [|c post (tl & rest & E & Htl & Hr)].
  - exists [], []. repeat split; auto. discriminate.
  - destruct (not_newline c) eqn:Hc.
    + exists (c :: tl), rest. cbn [app forallb]. rewrite Hc, Htl, <- E.
      repeat split; auto.
    + exists [], (c :: post). repeat split; auto.
      intros c' Hc'. injection Hc' as <-. now apply not_newline_false.
Qed.

Lemma fetch_first_matches (prev : option ascii) (m : str) :
  fetch_first_at prev m <-> exists n, fetch_re prev m = Some n.
Proof.
  split.
  - intros (kw1 & ws & kw2 & post & -> & H1 & Hne & Hws & H2 & Hp & Hq).
    destruct (line_split post) as (tl & rest & -> & Htl & Hr).
    eexists. now apply fetch_re_at.
  - intros (n & H).
    apply fetch_re_bounds in H
      as (kw1 & ws & kw2 & tl & rest & -> & H1 & Hne & Hws & H2 & Hp & Hq & _).
    exists kw1, ws, kw2, (tl ++ rest). repeat split; auto.
Qed.

Lemma at_position (A : Type) (p : Re.pattern A) (pre m : str) :
  p (char_before None (pre ++ m) (length pre)) (skipn (length pre) (pre ++ m))
  = p (last_char pre) m.
Proof.
  now rewrite char_before_app, skipn_app, skipn_all, Nat.sub_diag.
Qed.

Lemma search_none_iff (s : str) :
  Re.search fetch_re s = None <-> ~ has_fetch_first s.
Proof.
  split.
  - intros E (pre & m & -> & H). apply fetch_first_matches in H as (n & H).
    unfold Re.search in E.
    pose proof (search_from_none _ _ _ _ _ E (length pre)) as K.
    rewrite at_position in K. rewrite K in H; [discriminate|].
    rewrite length_app. lia.
  - intros Hn. destruct (Re.search fetch_re s) as [[i n]|] eqn:E;
      [|reflexivity].
    elim Hn. apply search_slice in E as [Hi E].
    exists (firstn i s), (skipn i s). split; [now rewrite firstn_skipn|].
    apply fetch_first_matches. exists n.
    now rewrite <- char_before_firstn.
Qed.

Lemma limit_clause_found (s pre clause rest : str) :
  limit_clause s pre clause rest ->
  Re.search fetch_re s = Some (length pre, length clause).
Proof.
  intros (-> & (kw1 & ws & kw2 & tl & -> & H1 & Hne & Hws & H2 & Hp & Hq & Htl)
          & Hr & Hmin).
  apply (search_from_first _ fetch_re _ None 0 (length pre)).
  - rewrite length_app. lia.
  - rewrite at_position. rewrite <- !app_assoc. now apply fetch_re_at.
  - intros e He.
    destruct (fetch_re (char_before None _ e) (skipn e _)) as [n|] eqn:E;
      [|reflexivity].
    set (s := pre ++ (kw1 ++ ws ++ kw2 ++ tl) ++ rest) in *.
    assert (Hle : e <= length s) by (unfold s; rewrite length_app; lia).
    specialize (Hmin (firstn e s) (skipn e s)).
    rewrite firstn_skipn in Hmin. specialize (Hmin eq_refl).
    rewrite length_firstn, Nat.min_l in Hmin by assumption.
    assert (length pre <= e); [|lia]. apply Hmin.
    apply fetch_first_matches. exists n.
    now rewrite <- char_before_firstn.
Qed.

Lemma limit_clause_exists (s : str) :
  has_fetch_first s -> exists pre clause rest, limit_clause s pre clause rest.
Proof.
  intros H. destruct (Re.search fetch_re s) as [[i n]|] eqn:E.
  2:{ apply search_none_iff in E. contradiction. }
  unfold Re.search in E.
  apply search_from_sound in E as (d & Ei & Hd & Hp & Hmin).
  cbn in Ei. subst i.
  apply fetch_re_bounds in Hp
    as (kw1 & ws & kw2 & tl & rest & E & H1 & Hne & Hws & H2 & Hp & Hq & Htl
        & Hr & _).
  rewrite char_before_firstn in Hp by assumption.
  exists (firstn d s), (kw1 ++ ws ++ kw2 ++ tl), rest.
  split; [|split; [|split]].
  - rewrite <- !app_assoc, <- E. symmetry. apply firstn_skipn.
  - exists kw1, ws, kw2, tl. repeat split; auto.
  - exact Hr.
  - intros pre' m' Es Hf. rewrite length_firstn, Nat.min_l by assumption.
    destruct (Nat.le_gt_cases d (length pre')) as [|Hlt]; [assumption|].
    exfalso. apply fetch_first_matches in Hf as (n' & Hf).
    specialize (Hmin _ Hlt). rewrite Es, at_position in Hmin. congruence.
Qed.

(** C5 (as amended).  For a statement that passes validation: when the
    prepared text holds no FETCH FIRST (FETCH, white space and FIRST in
    any mix of cases, no word character touching them), the returned
    statement ends with FETCH FIRST 100 ROWS ONLY; when it holds one, the
    limit clause is the text from the first FETCH FIRST to the end of the
    line FIRST stands on, and the returned statement ends with that clause
    as it was written, outer white space apart. *)
Theorem limit_clause_terminates (V_SCHEMA : option str) (sql q : str) :
  template_literal V_SCHEMA = true ->
  clean_sql V_SCHEMA sql = Return q ->
  let s := prepare V_SCHEMA sql in
  (~ has_fetch_first s -> ends_with (lit "FETCH FIRST 100 ROWS ONLY") q)
  /\
  (has_fetch_first s -> exists pre clause rest, limit_clause s pre clause rest)
  /\
  (forall pre clause rest,
     limit_clause s pre clause rest -> ends_with (strip clause) q).
Proof.
  intros HT H s. apply (clean_sql_return _ _ _ HT) in H as (_ & _ & _ & ->).
  rewrite finish_unfold. fold s. split; [|split].
  - intros Hn. apply search_none_iff in Hn.
    assert (Hsf : split_fetch s = (s, []))
      by (unfold split_fetch; now rewrite Hn).
    rewrite Hsf. cbn [snd fst]. now apply assemble_ends_with.
  - apply limit_clause_exists.
  - intros pre clause rest Hc.
    pose proof (limit_clause_found _ _ _ _ Hc) as E.
    assert (Hsl : slice (length pre) (length pre + length clause) s = clause).
    { destruct Hc as (-> & _). apply slice_middle. }
    assert (Hsf : split_fetch s = (strip (firstn (length pre) s), strip clause)).
    { unfold split_fetch. now rewrite E, Hsl. }
    rewrite Hsf. cbn [snd fst].
    pose proof (fetch_clause_solid _ _ _ E) as Hs. rewrite Hsl in Hs.
    unfold fix_fetch. rewrite (solid_truthy _ Hs). cbn [negb].
    now apply assemble_ends_with.
Qed.

Lemma limit_clause_terminates_witness :
  ends_with (lit "fetch first 5 rows only")
    (lit "SELECT * FROM AP_HOLDS_ALL WHERE RELEASE_LOOKUP_CODE IS NULL AND HOLD_LOOKUP_CODE IN ('QTY ORD', 'QTY REC', 'PRICE', 'AMT ORG') fetch first 5 rows only").
Proof.
  apply (proj2 (proj2 (limit_clause_terminates APPS
           (lit "SELECT * FROM AP_HOLDS_ALL fetch first 5 rows only  ;") _
           eq_refl eq_refl))
           (lit "SELECT * FROM AP_HOLDS_ALL ")
           (lit "fetch first 5 rows only  ") []).
  split; [vm_compute; reflexivity|]. split; [|split].
  - exists (lit "fetch"), (lit " "), (lit "first"), (lit " 5 rows only  ").
    repeat split; try reflexivity. discriminate.
  - discriminate.
  - intros pre' m' E Hf.
    apply fetch_first_matches in Hf as (n & Hf).
    destruct (Nat.le_gt_cases 27 (length pre')) as [|Hlt]; [assumption|].
    exfalso.
    assert (Hs : Re.search fetch_re
              (prepare APPS
                 (lit "SELECT * FROM AP_HOLDS_ALL fetch first 5 rows only  ;"))
            = Some (27, 25)) by (vm_compute; reflexivity).
    unfold Re.search in Hs.
    apply search_from_sound in Hs as (d & Hd & _ & _ & Hmin).
    cbn in Hd. subst d. specialize (Hmin _ Hlt).
    rewrite E, at_position in Hmin. congruence.
Defined.

Lemma ends_with_skipn (x s : str) :
  ends_with x s -> skipn (length s - length x) s = x.
Proof.
  intros (pre & ->). rewrite length_app.
  replace (length pre + length x - length x) with (length pre) by lia.
  now rewrite skipn_app, skipn_all, Nat.sub_diag.
Qed.

(** C5, counterexample.  A limit clause written over two lines is cut at
    the end of its first line, and FETCH NEXT is not taken for a limit
    clause: the default is put after it.  In neither case does the
    returned statement end with the clause as it was written. *)
Lemma limit_clause_not_preserved :
  let clause1 := lit "FETCH FIRST 5" ++ [newline] ++ lit "ROWS ONLY" in
  let clause2 := lit "FETCH NEXT 5 ROWS ONLY" in
  let q1 := lit "SELECT * FROM AP_HOLDS_ALL WHERE RELEASE_LOOKUP_CODE IS NULL AND HOLD_LOOKUP_CODE IN ('QTY ORD', 'QTY REC', 'PRICE', 'AMT ORG') FETCH FIRST 5" in
  let q2 := lit "SELECT * FROM AP_HOLDS_ALL FETCH NEXT 5 ROWS ONLY WHERE RELEASE_LOOKUP_CODE IS NULL AND HOLD_LOOKUP_CODE IN ('QTY ORD', 'QTY REC', 'PRICE', 'AMT ORG') FETCH FIRST 100 ROWS ONLY" in
  clean_sql APPS (lit "SELECT * FROM AP_HOLDS_ALL " ++ clause1) = Return q1 /\
  ~ ends_with clause1 q1 /\
  clean_sql APPS (lit "SELECT * FROM AP_HOLDS_ALL " ++ clause2) = Return q2 /\
  ~ ends_with clause2 q2.
Proof.
  cbv zeta. split; [vm_compute; reflexivity|]. split.
  { intros H. apply ends_with_skipn in H. vm_compute in H. discriminate. }
  split; [vm_compute; reflexivity|].
  intros H. apply ends_with_skipn in H. vm_compute in H. discriminate.
Qed.

(** ** FROM and JOIN targets *)

Lemma target_keyword (kw : str) :
  map lower_az kw = lit "from" \/ map lower_az kw = lit "join" ->
  length kw = 4 /\
  Forall (fun c => is_lower_az (lower_az c) = true) kw /\
  exists x c, kw = x ++ [c] /\ (lower_az c = "m" \/ lower_az c = "n").
Proof.
  intros H.
  destruct kw as [|c1 [|c2 [|c3 [|c4 [|c5 kw]]]]];
    try (destruct H as [H|H]; discriminate).
  split; [reflexivity|]. split.
  - destruct H as [H|H]; injection H as E1 E2 E3 E4;
      repeat constructor; rewrite ?E1, ?E2, ?E3, ?E4; reflexivity.
  - exists [c1; c2; c3], c4. split; [reflexivity|].
    destruct H as [H|H]; injection H as _ _ _ E4; auto.
Qed.

Lemma ident_not_space (c : ascii) : ident_char c = true -> isspace c = false.
Proof. each_char c. Qed.

Lemma from_join_total (s : str) (n1 : nat) :
  forall (p : option ascii) (m : nat) (t : str),
    (fun (_ : option ascii) (n2 : nat) (_ : str) =>
       Some (n2, slice n1 n2 s)) p m t <> None.
Proof. discriminate. Qed.

(** What a match of line 132 is: its keyword, its white space, and the
    longest run of identifier characters after them. *)
Lemma from_join_re_target (prev : option ascii) (s : str) (n : nat) (obj : str) :
  from_join_re prev s = Some (n, obj) ->
  exists kw ws rest,
    s = kw ++ ws ++ obj ++ rest /\
    (map lower_az kw = lit "from" \/ map lower_az kw = lit "join") /\
    Re.opt_word prev = false /\
    ws <> [] /\ forallb isspace ws = true /\
    obj <> [] /\ forallb ident_char obj = true /\
    (forall c, hd_error rest = Some c -> ident_char c = false) /\
    n = length (kw ++ ws ++ obj).
Proof.
  unfold from_join_re. intros H.
  apply wordb_inv in H as [Hb H].
  apply words_inv in H as (kw0 & Hin & H).
  apply text_inv in H as (kw & r1 & E1 & Hkw & H).
  apply ci_spelling in Hkw.
  apply plus_inv in H as (ws & r2 & -> & Hne & Hws & H).
  apply (plus_max _ ident_char _ (from_join_total s _)) in H
    as (o & rest & -> & Hone & Ho & Hmax & H).
  injection H as <- <-.
  assert (Hspell : map lower_az kw = lit "from" \/ map lower_az kw = lit "join").
  { destruct Hin as [<-|[<-|[]]]; rewrite Hkw; auto. }
  destruct (target_keyword _ Hspell) as (Hlen & _ & _).
  exists kw, ws, rest. subst s.
  assert (Hobj : slice (length kw + length ws)
                   (length kw + length ws + length o)
                   (kw ++ ws ++ o ++ rest) = o).
  { replace (kw ++ ws ++ o ++ rest) with ((kw ++ ws) ++ o ++ rest)
      by now rewrite <- app_assoc.
    replace (length kw + length ws) with (length (kw ++ ws))
      by (rewrite length_app; lia).
    apply slice_middle. }
  rewrite Hobj. repeat split; auto.
  - destruct kw as [|c kw]; [discriminate|].
    assert (Hw : isword c = true).
    { apply lower_az_letter_word.
      destruct Hspell as [Hs|Hs]; injection Hs as -> _; reflexivity. }
    cbn in Hb. rewrite Hw in Hb. now destruct (Re.opt_word prev).
  - rewrite !length_app. lia.
Qed.

Lemma words_from_join (A : Type) (k : Re.cont A) (prev : option ascii)
    (n : nat) (kw r : str) (a : A) :
  map lower_az kw = lit "from" \/ map lower_az kw = lit "join" ->
  k (prev_after prev kw) (n + length kw) r = Some a ->
  Re.words eqc_ci [lit "from"; lit "join"] k prev n (kw ++ r) = Some a.
Proof.
  intros Hkw Hk. cbn [Re.words]. unfold Re.alt.
  destruct Hkw as [H|H].
  - rewrite text_app by (apply ci_forall2; exact H). now rewrite Hk.
  - assert (E : Re.text eqc_ci (lit "from") k prev n (kw ++ r) = None).
    { destruct kw as [|c kw]; [discriminate|]. injection H as Hc _.
      cbn [lit list_ascii_of_string Re.text app]. unfold Re.chr at 1.
      unfold eqc_ci. rewrite Hc. reflexivity. }
    rewrite E. cbn [Re.orelse].
    rewrite text_app by (apply ci_forall2; exact H). now rewrite Hk.
Qed.

(** Where a target stands, line 132 matches and captures it. *)
Lemma from_join_re_at (prev : option ascii) (m obj : str) :
  target_at prev m obj ->
  exists n, from_join_re prev m = Some (S n, obj).
Proof.
  intros (kw & ws & rest & -> & Hkw & Hp & Hne & Hws & Hone & Ho & Hmax).
  destruct (target_keyword _ Hkw) as (Hlen & Hall & _).
  exists (3 + length ws + length obj).
  unfold from_join_re. unfold Re.wordb at 1.
  assert (Hh : Re.opt_word (hd_error (kw ++ ws ++ obj ++ rest)) = true).
  { destruct kw as [|c kw]; [discriminate|]. cbn.
    inversion Hall; subst. now apply lower_az_letter_word. }
  rewrite Hp, Hh. cbn [xorb].
  apply words_from_join; [assumption|].
  apply plus_greedy; [assumption|assumption| |].
  { intros c Hc. destruct obj as [|o obj]; [contradiction|].
    cbn in Hc. injection Hc as ->. cbn [forallb] in Ho.
    apply andb_true_iff in Ho as [Ho _]. now apply ident_not_space. }
  apply plus_greedy; [assumption|assumption|assumption|].
  f_equal. f_equal.
  - rewrite Hlen. lia.
  - replace (kw ++ ws ++ obj ++ rest) with ((kw ++ ws) ++ obj ++ rest)
      by now rewrite <- app_assoc.
    replace (0 + length kw + length ws) with (length (kw ++ ws))
      by (rewrite length_app; lia).
    apply slice_middle.
Qed.

(** *** A name that ends in a keyword *)

Lemma split_last_char (sep c : ascii) : forall s,
  eqc c sep = false ->
  exists x, last (split sep (s ++ [c])) [] = x ++ [c].
Proof.
  intros s Hc. induction s as [|a s (x & IH)]; cbn [app split].
  - rewrite Hc. cbn. now exists [].
  - pose proof (split_nonempty sep (s ++ [c])) as Hne.
    destruct (split sep (s ++ [c])) as [|p ps] eqn:E; [contradiction|].
    destruct (eqc a sep).
    + exists x. exact IH.
    + destruct ps as [|p' ps].
      * cbn in IH. subst p. now exists (a :: x).
      * exists x. exact IH.
Qed.

Lemma last_map_nonempty (A B : Type) (f : A -> B) (l : list A) (d : A) (e : B) :
  l <> [] -> last (map f l) e = f (last l d).
Proof.
  induction l as [|a l IH]; [contradiction|]. intros _.
  destruct l as [|b l]; [reflexivity|].
  change (last (map f (a :: b :: l)) e) with (last (map f (b :: l)) e).
  change (last (a :: b :: l) d) with (last (b :: l) d).
  apply IH. discriminate.
Qed.

Lemma strip_by_last (f : ascii -> bool) (x : str) (c : ascii) :
  f c = false -> exists y, strip_by f (x ++ [c]) = y ++ [c].
Proof.
  intros Hc. unfold strip_by, lstrip_by, rstrip_by.
  destruct (dropwhile_keeps f x c [] Hc) as (y & ->).
  exists y. rewrite rev_app_distr. cbn [rev app dropwhile]. rewrite Hc.
  cbn [rev]. now rewrite rev_involutive.
Qed.

Lemma keyword_end (c : ascii) :
  eqc (lower_az c) "m" || eqc (lower_az c) "n" = true ->
  eqc c "." = false /\ eqc c dquote = false /\ eqc (upper_az c) "L" = false.
Proof. each_char c. Qed.

(** A name whose last letter is the last letter of FROM or JOIN is not
    the allowed table. *)
Lemma table_name_keyword_end (o : str) (c : ascii) :
  last_char o = Some c ->
  lower_az c = "m" \/ lower_az c = "n" ->
  table_name o <> upper META_TBL.
Proof.
  intros Hl Hc.
  assert (Hb : eqc (lower_az c) "m" || eqc (lower_az c) "n" = true).
  { destruct Hc as [-> | ->]; reflexivity. }
  destruct (keyword_end c Hb) as (Hdot & Hq & HL).
  assert (Eo : exists x, o = x ++ [c]).
  { unfold last_char in Hl. destruct (rev o) as [|z r] eqn:E; [discriminate|].
    injection Hl as ->. exists (rev r).
    apply (f_equal (@rev ascii)) in E. now rewrite rev_involutive in E. }
  destruct Eo as (x & ->).
  unfold table_name.
  destruct (split_last_char "." c x Hdot) as (y & Ey).
  rewrite (last_map_nonempty str str _ _ [] []) by apply split_nonempty.
  rewrite Ey.
  destruct (strip_by_last (eqc dquote) y c) as (z & ->).
  { rewrite <- Hq. unfold eqc. apply Ascii.eqb_sym. }
  intros E. apply (f_equal last_char) in E.
  unfold upper in E at 1. rewrite map_app in E. cbn [map] in E.
  rewrite last_char_app in E.
  change (last_char (upper META_TBL)) with (Some "L") in E.
  injection E as E. rewrite E in HL. discriminate.
Qed.

(** *** A target inside a match *)

Lemma nth_parts (a b c d : str) (j : nat) :
  (j < length a -> nth_error (a ++ b ++ c ++ d) j = nth_error a j) /\
  (length a <= j < length a + length b ->
   nth_error (a ++ b ++ c ++ d) j = nth_error b (j - length a)) /\
  (length a + length b <= j < length a + length b + length c ->
   nth_error (a ++ b ++ c ++ d) j = nth_error c (j - length a - length b)) /\
  (j = length a + length b + length c ->
   nth_error (a ++ b ++ c ++ d) j = hd_error d).
Proof.
  repeat split; intros H.
  - now rewrite nth_error_app1.
  - rewrite nth_error_app2 by lia. now rewrite nth_error_app1 by lia.
  - rewrite nth_error_app2 by lia. rewrite nth_error_app2 by lia.
    now rewrite nth_error_app1 by lia.
  - rewrite nth_error_app2 by lia. rewrite nth_error_app2 by lia.
    rewrite nth_error_app2 by lia.
    replace (j - length a - length b - length c) with 0 by lia.
    now destruct d.
Qed.

Lemma forallb_nth (f : ascii -> bool) (l : str) (j : nat) (x : ascii) :
  forallb f l = true -> nth_error l j = Some x -> f x = true.
Proof.
  intros H Hn. rewrite forallb_forall in H. apply H.
  eapply nth_error_In; eauto.
Qed.

Lemma Forall_nth (P : ascii -> Prop) (l : str) (j : nat) (x : ascii) :
  Forall P l -> nth_error l j = Some x -> P x.
Proof.
  intros H Hn. rewrite Forall_forall in H. apply H.
  eapply nth_error_In; eauto.
Qed.

Lemma nth_some (l : str) (j : nat) :
  j < length l -> exists x, nth_error l j = Some x.
Proof.
  intros H. destruct (nth_error l j) eqn:E; [eauto|].
  apply nth_error_None in E. lia.
Qed.

Lemma last_char_nth (l : str) : last_char l = nth_error l (length l - 1).
Proof.
  destruct (rev l) as [|z r] eqn:E.
  - apply (f_equal (@rev ascii)) in E. rewrite rev_involutive in E.
    now subst l.
  - apply (f_equal (@rev ascii)) in E. rewrite rev_involutive in E.
    cbn in E. subst l. rewrite last_char_app, length_app. cbn.
    rewrite nth_error_app2 by lia.
    now replace (length (rev r) + 1 - 1 - length (rev r)) with 0 by lia.
Qed.

(** A target that starts inside a match of line 132 starts in the name
    the match captured, which then ends in FROM or JOIN and is not the
    allowed table. *)
Lemma target_inside_match (prev : option ascii) (s : str) (n : nat)
    (o : str) (i : nat) (obj : str) :
  from_join_re prev s = Some (n, o) ->
  0 < i -> i < n ->
  target_at (char_before prev s i) (skipn i s) obj ->
  table_name o <> upper META_TBL.
Proof.
  intros Hm Hi Hin Ht.
  apply from_join_re_target in Hm
    as (kw1 & ws1 & rest1 & Es & Hkw1 & _ & _ & Hws1 & Hone & Ho & Hmax & ->).
  destruct Ht as (kw2 & ws2 & rest2 & Et & Hkw2 & Hp & Hne2 & Hws2 & _).
  destruct (target_keyword _ Hkw1) as (L1 & F1 & _).
  destruct (target_keyword _ Hkw2) as (L2 & F2 & x2 & z & Ez & Hz).
  rewrite !length_app in Hin.
  (* the text, character by character *)
  assert (K2 : forall j, j < 4 -> nth_error s (i + j) = nth_error kw2 j).
  { intros j Hj. rewrite <- nth_error_skipn, Et.
    now rewrite nth_error_app1 by lia. }
  assert (W2 : exists w0, nth_error s (i + 4) = Some w0 /\ isspace w0 = true).
  { destruct ws2 as [|w0 ws2]; [contradiction|]. exists w0.
    rewrite <- nth_error_skipn, Et. rewrite nth_error_app2 by lia.
    rewrite L2, Nat.sub_diag. cbn [forallb] in Hws2.
    apply andb_true_iff in Hws2 as [H _]. now split. }
  destruct W2 as (w0 & Ew0 & Hw0).
  destruct i as [|i']; [lia|]. cbn [char_before] in Hp.
  pose proof (nth_parts kw1 ws1 o rest1) as P. rewrite <- Es in P.
  destruct (Nat.lt_ge_cases i' 4) as [C1|C1].
  { (* the character before the target is a letter of the keyword *)
    exfalso. pose proof (proj1 (P i') ltac:(lia)) as E.
    destruct (nth_some kw1 i') as (x & Ex); [lia|].
    rewrite E, Ex in Hp. cbn in Hp.
    pose proof (Forall_nth _ _ _ _ F1 Ex) as Hx.
    apply letter_facts in Hx as (_ & _ & Hx). congruence. }
  destruct (Nat.lt_ge_cases (S i') (4 + length ws1)) as [C2|C2].
  { (* the target starts in the white space *)
    exfalso. pose proof (proj1 (proj2 (P (S i'))) ltac:(lia)) as E.
    destruct (nth_some ws1 (S i' - length kw1)) as (x & Ex); [lia|].
    pose proof (forallb_nth _ _ _ _ Hws1 Ex) as Hx.
    destruct (nth_some kw2 0) as (y & Ey); [lia|].
    pose proof (Forall_nth _ _ _ _ F2 Ey) as Hy.
    apply letter_facts in Hy as (Hy & _).
    specialize (K2 0). rewrite Nat.add_0_r in K2.
    rewrite K2, Ey, Ex in E by lia. congruence. }
  assert (C : S i' + 4 < 4 + length ws1 + length o \/
              S i' + 4 > 4 + length ws1 + length o \/
              S i' + 4 = 4 + length ws1 + length o) by lia.
  destruct C as [C|[C|C]].
  - (* white space in the name *)
    exfalso.
    pose proof (proj1 (proj2 (proj2 (P (S i' + 4)))) ltac:(lia)) as E.
    destruct (nth_some o (S i' + 4 - length kw1 - length ws1)) as (x & Ex);
      [lia|].
    pose proof (forallb_nth _ _ _ _ Ho Ex) as Hx.
    apply ident_not_space in Hx. rewrite Ew0, Ex in E. congruence.
  - (* the name goes on after the match *)
    exfalso.
    set (j := 4 + length ws1 + length o - S i').
    pose proof (proj2 (proj2 (proj2 (P (S i' + j)))) ltac:(unfold j; lia)) as E.
    destruct (nth_some kw2 j) as (y & Ey); [unfold j; lia|].
    pose proof (Forall_nth _ _ _ _ F2 Ey) as Hy.
    apply letter_facts in Hy as (_ & Hy & _).
    rewrite K2, Ey in E by (unfold j; lia).
    symmetry in E. apply Hmax in E. congruence.
  - (* the name ends with the keyword *)
    apply (table_name_keyword_end o z); [|exact Hz].
    rewrite last_char_nth.
    pose proof (proj1 (proj2 (proj2 (P (S i' + 3)))) ltac:(lia)) as E.
    rewrite K2 in E by lia.
    replace (S i' + 3 - length kw1 - length ws1) with (length o - 1) in E
      by lia.
    rewrite <- E, Ez. rewrite nth_error_app2.
    + assert (L3 : length x2 = 3).
      { rewrite Ez, length_app in L2. cbn in L2. lia. }
      now rewrite L3.
    + rewrite Ez, length_app in L2. cbn in L2. lia.
Qed.

Lemma char_before_step (prev : option ascii) (c : ascii) (r : str) (i : nat) :
  char_before prev (c :: r) (S i) = char_before (Some c) r i.
Proof. destruct i; reflexivity. Qed.

(** Every target of the text is one the table check looks at, or stands
    inside a match whose name the check refuses. *)
Lemma findall_complete : forall s skip prev i obj,
  skip <= i -> i <= length s ->
  target_at (char_before prev s i) (skipn i s) obj ->
  exists o, In o (Re.findall_from from_join_re skip prev s) /\
            (o = obj \/ table_name o <> upper META_TBL).
Proof.
  induction s as [|c r IH]; intros skip prev i obj Hs Hi Ht.
  - exfalso. cbn in Hi. assert (i = 0) by lia. subst i.
    destruct Ht as (kw & ws & rest & E & Hkw & _).
    destruct (target_keyword _ Hkw) as (L & _).
    cbn in E. destruct kw; [discriminate L|discriminate E].
  - cbn [Re.findall_from].
    destruct skip as [|k].
    + destruct i as [|i'].
      * cbn [char_before skipn] in Ht.
        destruct (from_join_re_at _ _ _ Ht) as (n & ->).
        exists obj. split; [now left|now left].
      * rewrite char_before_step in Ht. cbn [skipn] in Ht.
        cbn [length] in Hi.
        destruct (from_join_re prev (c :: r)) as [[[|k] o]|] eqn:E.
        -- apply from_join_re_target in E
             as (kw & ws & rest & _ & Hkw & _ & _ & _ & _ & _ & _ & E).
           destruct (target_keyword _ Hkw) as (L & _).
           rewrite length_app in E. lia.
        -- destruct (Nat.le_gt_cases k i') as [Hk|Hk].
           ++ destruct (IH k (Some c) i' obj ltac:(lia) ltac:(lia) Ht)
                as (o' & Hin & Ho').
              exists o'. split; [now right|assumption].
           ++ exists o. split; [now left|]. right.
              apply (target_inside_match prev (c :: r) (S k) o (S i') obj);
                auto; try lia.
              now rewrite char_before_step.
        -- apply (IH 0 (Some c) i' obj ltac:(lia) ltac:(lia) Ht).
    + destruct i as [|i']; [lia|].
      rewrite char_before_step in Ht. cbn [skipn] in Ht. cbn [length] in Hi.
      apply (IH k (Some c) i' obj ltac:(lia) ltac:(lia) Ht).
Qed.

(** A target of the text, from either side. *)
Lemma examined_is_target (s obj : str) :
  In obj (Re.findall from_join_re s) -> from_join_target s obj.
Proof.
  intros H. apply findall_from_in in H as (d & n & Hd & H).
  apply from_join_re_target in H
    as (kw & ws & rest & E & Hkw & Hp & Hne & Hws & Hone & Ho & Hmax & _).
  exists (firstn d s), (skipn d s). split; [now rewrite firstn_skipn|].
  exists kw, ws, rest. repeat split; auto.
  now rewrite <- char_before_firstn.
Qed.

Lemma target_is_examined (s obj : str) :
  from_join_target s obj ->
  exists o, In o (Re.findall from_join_re s) /\
            (o = obj \/ table_name o <> upper META_TBL).
Proof.
  intros (pre & m & -> & Ht).
  apply (findall_complete (pre ++ m) 0 None (length pre) obj).
  - lia.
  - rewrite length_app. lia.
  - now rewrite char_before_app, skipn_app, skipn_all, Nat.sub_diag.
Qed.

(** The table check, in terms of the targets of the text. *)
Lemma table_check_refuses (s : str) :
  (exists obj, from_join_target s obj /\ table_name obj <> upper META_TBL) ->
  exists obj, check_tables (Re.findall from_join_re s) = Some obj /\
    from_join_target s obj /\ table_name obj <> upper META_TBL.
Proof.
  intros (obj & Ht & Hbad).
  destruct (target_is_examined _ _ Ht) as (o & Hin & Ho).
  assert (Hbad' : table_name o <> upper META_TBL)
    by (destruct Ho as [->|]; assumption).
  destruct (check_tables (Re.findall from_join_re s)) as [o'|] eqn:E.
  - exists o'. split; [reflexivity|].
    destruct (check_tables_some _ _ E) as (before & after & El & _ & Hb).
    split; [|exact Hb]. apply examined_is_target.
    rewrite El. apply in_or_app. right. now left.
  - rewrite check_tables_none in E. elim Hbad'. now apply E.
Qed.

Lemma table_check_passes (s : str) :
  (forall obj, from_join_target s obj -> table_name obj = upper META_TBL) ->
  check_tables (Re.findall from_join_re s) = None.
Proof.
  intros H. apply check_tables_none. intros o Hin.
  apply H. now apply examined_is_target.
Qed.

Lemma no_target_in_nothing (obj : str) : ~ from_join_target [] obj.
Proof.
  intros (pre & m & E & kw & ws & rest & -> & Hkw & _).
  destruct (target_keyword _ Hkw) as (L & _).
  destruct pre; [|discriminate]. destruct kw; [discriminate L|discriminate E].
Qed.

(** C2 (as amended).  A FROM or JOIN target of a text is the longest run
    of identifier characters (letters, digits, underscore, double quote,
    dot) after a FROM or JOIN, in any mix of cases and not touched by a
    word character before it, and white space.  For a statement that
    holds no forbidden keyword: if some target of the prepared text has a
    final segment that, quotes stripped and upper-cased, differs from the
    allowed table, the statement is rejected with the ValueError of the
    table check, which carries such a target as it is written; if the
    statement is not blank and every target agrees, it is accepted; and
    the name compared does not depend on the schema qualifier. *)
Theorem table_allowlist_enforced (V_SCHEMA : option str) (sql : str) :
  template_literal V_SCHEMA = true ->
  ~ has_forbidden_keyword (prepare V_SCHEMA sql) ->
  let s := prepare V_SCHEMA sql in
  ((exists obj, from_join_target s obj /\ table_name obj <> upper META_TBL) ->
   exists obj,
     from_join_target s obj /\ table_name obj <> upper META_TBL /\
     clean_sql V_SCHEMA sql = Raise (ValueError (MsgTableNotAllowed obj)))
  /\
  (is_blank sql = false ->
   (forall obj, from_join_target s obj -> table_name obj = upper META_TBL) ->
   clean_sql V_SCHEMA sql = Return (finish s))
  /\
  (forall schema tbl, table_name (schema ++ "." :: tbl) = table_name tbl).
Proof.
  intros HT Hk s. apply no_forbidden_found in Hk.
  rewrite clean_sql_unfold, Hk by assumption. fold s.
  split; [|split].
  - intros Hbad.
    destruct (is_blank sql) eqn:Hb.
    { exfalso. destruct Hbad as (obj & Ht & _). unfold s in Ht.
      rewrite (blank_prepare V_SCHEMA sql Hb) in Ht.
      now apply no_target_in_nothing in Ht. }
    destruct (table_check_refuses s Hbad) as (obj & -> & Ht & Hb').
    exists obj. auto.
  - intros Hb Hall. rewrite Hb. now rewrite (table_check_passes s Hall).
  - apply table_name_qualified.
Qed.

Lemma table_allowlist_enforced_witness :
  let raw := lit "SELECT * FROM OTHER_TABLE" in
  exists obj,
    from_join_target (prepare APPS raw) obj /\
    table_name obj <> upper META_TBL /\
    clean_sql APPS raw = Raise (ValueError (MsgTableNotAllowed obj)).
Proof.
  intros raw.
  assert (Hk : ~ has_forbidden_keyword (prepare APPS raw)).
  { intros H. apply forbidden_found in H. vm_compute in H. discriminate. }
  apply (proj1 (table_allowlist_enforced APPS raw eq_refl Hk)).
  exists (lit "OTHER_TABLE"). split; [|vm_compute; discriminate].
  exists (lit "SELECT * "), (lit "FROM OTHER_TABLE").
  split; [vm_compute; reflexivity|].
  exists (lit "FROM"), (lit " "), []. repeat split; try reflexivity;
    try discriminate. left. reflexivity.
Defined.

(** C2, counterexample.  The only FROM target of this statement is not the
    allowed table, and the statement is rejected by the DML/DDL scan, not
    by the table check. *)
Lemma forbidden_scan_precedes_table_check :
  let raw := lit "DELETE FROM OTHER_TABLE" in
  Re.findall from_join_re (prepare APPS raw) = [lit "OTHER_TABLE"] /\
  table_name (lit "OTHER_TABLE") <> upper META_TBL /\
  clean_sql APPS raw = Raise (ValueError MsgForbidden) /\
  clean_sql APPS raw <> Raise (ValueError (MsgTableNotAllowed (lit "OTHER_TABLE"))).
Proof.
  repeat split; try (vm_compute; reflexivity); vm_compute; discriminate.
Qed.

(** Only the name right after FROM or JOIN is a target: a table named
    after a comma is not compared with the allowed table. *)
Example comma_joined_table_not_examined :
  clean_sql APPS (lit "SELECT * FROM AP_HOLDS_ALL, OTHER_TABLE") =
  Return (lit "SELECT * FROM AP_HOLDS_ALL, OTHER_TABLE WHERE RELEASE_LOOKUP_CODE IS NULL AND HOLD_LOOKUP_CODE IN ('QTY ORD', 'QTY REC', 'PRICE', 'AMT ORG') FETCH FIRST 100 ROWS ONLY").
Proof. vm_compute. reflexivity. Qed.

(** C10 (as amended).  With a schema name without backslash the sanitizer
    returns a statement or raises ValueError, and nothing else: a blank
    input raises the ValueError of the empty statement; a statement that
    is not blank and holds a forbidden keyword raises the one of the
    DML/DDL scan; one without forbidden keyword, with a target that is not
    the allowed table, raises the one of the table check, naming such a
    target; every other statement is returned.  The three rejections are
    told apart by the message alone. *)
Theorem clean_sql_outcomes (V_SCHEMA : option str) (sql : str) :
  template_literal V_SCHEMA = true ->
  let s := prepare V_SCHEMA sql in
  (is_blank sql = true ->
   clean_sql V_SCHEMA sql = Raise (ValueError MsgEmptySql))
  /\
  (is_blank sql = false -> has_forbidden_keyword s ->
   clean_sql V_SCHEMA sql = Raise (ValueError MsgForbidden))
  /\
  (is_blank sql = false -> ~ has_forbidden_keyword s ->
   (exists obj, from_join_target s obj /\ table_name obj <> upper META_TBL) ->
   exists obj,
     from_join_target s obj /\ table_name obj <> upper META_TBL /\
     clean_sql V_SCHEMA sql = Raise (ValueError (MsgTableNotAllowed obj)))
  /\
  (is_blank sql = false -> ~ has_forbidden_keyword s ->
   (forall obj, from_join_target s obj -> table_name obj = upper META_TBL) ->
   clean_sql V_SCHEMA sql = Return (finish s))
  /\
  ((exists q, clean_sql V_SCHEMA sql = Return q) \/
   (exists m, clean_sql V_SCHEMA sql = Raise (ValueError m) /\
      (m = MsgEmptySql \/ m = MsgForbidden \/
       exists obj, m = MsgTableNotAllowed obj))).
Proof.
  intros HT s. rewrite clean_sql_unfold by assumption. fold s.
  split; [|split; [|split; [|split]]].
  - intros ->. reflexivity.
  - intros -> Hk. apply forbidden_found in Hk. now rewrite Hk.
  - intros -> Hk Hbad. rewrite (no_forbidden_found _ Hk).
    destruct (table_check_refuses s Hbad) as (obj & -> & Ht & Hb').
    exists obj. auto.
  - intros -> Hk Hall. rewrite (no_forbidden_found _ Hk).
    now rewrite (table_check_passes s Hall).
  - destruct (is_blank sql); [right; eauto|].
    destruct (Re.found forbidden_re s); [right; eauto|].
    destruct (check_tables _) as [obj|]; [right|left]; eauto 6.
Qed.

Lemma clean_sql_outcomes_witness :
  clean_sql APPS (lit "   ") = Raise (ValueError MsgEmptySql) /\
  clean_sql APPS (lit "DROP TABLE AP_HOLDS_ALL") = Raise (ValueError MsgForbidden) /\
  clean_sql APPS (lit "SELECT * FROM AP_HOLDS_ALL") =
    Return (finish (prepare APPS (lit "SELECT * FROM AP_HOLDS_ALL"))).
Proof.
  split; [|split].
  - apply (proj1 (clean_sql_outcomes APPS (lit "   ") eq_refl)). reflexivity.
  - apply (proj1 (proj2 (clean_sql_outcomes APPS
                           (lit "DROP TABLE AP_HOLDS_ALL") eq_refl)));
      [reflexivity|].
    exists (lit "drop"). split; [simpl; tauto|].
    exists [], (lit "DROP"), (lit " TABLE AP_HOLDS_ALL").
    repeat split; reflexivity.
  - apply (proj1 (proj2 (proj2 (proj2 (clean_sql_outcomes APPS
                           (lit "SELECT * FROM AP_HOLDS_ALL") eq_refl)))));
      [reflexivity| |].
    + intros H. apply forbidden_found in H. vm_compute in H. discriminate.
    + intros obj Ht. destruct (target_is_examined _ _ Ht) as (o & Hin & Ho).
      vm_compute in Hin. destruct Hin as [<-|[]].
      destruct Ho as [<-|Ho]; [reflexivity|]. now elim Ho.
Defined.

(** C10, counterexample.  With the schema name A\B the template of line
    124 cannot be read: [re.sub] raises [re.error], which is not a
    ValueError, and no statement is returned. *)
Lemma bad_template_is_not_a_value_error :
  let raw := lit "SELECT * FROM AP_HOLDS_ALL" in
  let v := lit "A\B" in
  clean_sql (Some v) raw = Raise (OtherError (MsgTemplate (v ++ lit "."))) /\
  (forall q, clean_sql (Some v) raw <> Return q) /\
  (forall m, clean_sql (Some v) raw <> Raise (ValueError m)).
Proof.
  assert (E : clean_sql (Some (lit "A\B")) (lit "SELECT * FROM AP_HOLDS_ALL")
              = Raise (OtherError (MsgTemplate (lit "A\B."))))
    by (vm_compute; reflexivity).
  cbv zeta. split; [exact E|]. split; intros x; rewrite E; discriminate.
Qed.

(** * Further properties of the pipeline *)

(** ** Keywords across cuts and joins *)

Lemma space_not_word (c : ascii) : isspace c = true -> isword c = false.
Proof. each_char c. Qed.

Lemma keyword_all_word (kw w : str) :
  lower_word kw -> map lower_az w = kw ->
  Forall (fun c => isword c = true) w.
Proof.
  intros [_ HF] <-. rewrite Forall_forall in *. intros c Hc.
  apply lower_az_letter_word. apply HF. now apply in_map.
Qed.

Lemma all_word_last (l : str) :
  l <> [] -> Forall (fun c => isword c = true) l ->
  Re.opt_word (last_char l) = true.
Proof.
  intros Hne HF. unfold last_char. destruct (rev l) as [|c r] eqn:E.
  - apply (f_equal (@rev ascii)) in E. rewrite rev_involutive in E.
    contradiction.
  - cbn. rewrite Forall_forall in HF. apply HF. apply in_rev.
    rewrite E. now left.
Qed.

Lemma all_word_head (l : str) :
  l <> [] -> Forall (fun c => isword c = true) l ->
  Re.opt_word (hd_error l) = true.
Proof.
  intros Hne HF. destruct l as [|c l]; [contradiction|]. cbn.
  now inversion HF.
Qed.

Lemma last_char_end (a l : str) :
  Re.opt_word (last_char (a ++ l)) = false ->
  Re.opt_word (last_char l) = false.
Proof.
  destruct l as [|c l]; [reflexivity|].
  now rewrite last_char_app_nonempty by discriminate.
Qed.

Lemma hd_error_start (l b : str) :
  Re.opt_word (hd_error (l ++ b)) = false ->
  Re.opt_word (hd_error l) = false.
Proof. destruct l; [reflexivity|trivial]. Qed.

Section Seams.
Variable kw : str.
Hypothesis kw_lower : lower_word kw.

(** A keyword of a joined text lies in one of the two parts, when no word
    runs across the seam. *)
Lemma keyword_app_inv (a b : str) :
  seam a b -> has_keyword kw (a ++ b) -> has_keyword kw a \/ has_keyword kw b.
Proof.
  intros Hs (pre & w & post & E & Hw & Hp & Hq).
  pose proof (keyword_all_word _ _ kw_lower Hw) as Hall.
  apply app_eq_app in E as (l & [[Ea Eb]|[Ea Eb]]).
  - apply app_eq_app in Eb as (l2 & [[Ew Eb]|[El Ep]]).
    + (* the keyword starts in [a] and ends in [b] *)
      destruct l as [|c l'].
      { right. exists [], w, post. cbn [app] in Ew.
        split; [now rewrite Eb, Ew|]. repeat split; auto. }
      destruct l2 as [|c2 l2'].
      { left. exists pre, w, []. rewrite app_nil_r in Ew.
        split; [now rewrite Ea, Ew, app_nil_r|]. repeat split; auto. }
      exfalso. rewrite Ew in Hall. apply Forall_app in Hall as [Hw1 Hw2].
      rewrite Ea, Eb in Hs. destruct Hs as [Hs|Hs].
      * rewrite last_char_app_nonempty in Hs by discriminate.
        rewrite all_word_last in Hs; [discriminate|discriminate|assumption].
      * cbn in Hs. inversion Hw2 as [|? ? Hc2 ?]. congruence.
    + (* the keyword ends in [a] *)
      left. exists pre, w, l2.
      split; [now rewrite Ea, El|]. repeat split; auto.
      rewrite Ep in Hq. now apply (hd_error_start l2 b).
  - right. exists l, w, post. split; [exact Eb|]. repeat split; auto.
    rewrite Ea in Hp. now apply (last_char_end a l).
Qed.

Lemma keyword_app_l (a b : str) :
  seam a b -> has_keyword kw a -> has_keyword kw (a ++ b).
Proof.
  intros Hs (pre & w & post & -> & Hw & Hp & Hq).
  exists pre, w, (post ++ b). rewrite <- !app_assoc.
  repeat split; auto.
  destruct post as [|c post]; [|exact Hq]. cbn [app].
  destruct Hs as [Hs|Hs]; [|exact Hs]. exfalso.
  rewrite app_nil_r in Hs.
  pose proof (keyword_all_word _ _ kw_lower Hw) as Hall.
  assert (Hne : w <> []).
  { intros ->. destruct kw_lower as [Hk _]. apply Hk. now rewrite <- Hw. }
  rewrite last_char_app_nonempty in Hs by assumption.
  rewrite all_word_last in Hs; [discriminate|assumption|assumption].
Qed.

Lemma keyword_app_r (a b : str) :
  seam a b -> has_keyword kw b -> has_keyword kw (a ++ b).
Proof.
  intros Hs (pre & w & post & -> & Hw & Hp & Hq).
  exists (a ++ pre), w, post. rewrite <- !app_assoc.
  repeat split; auto.
  destruct pre as [|c pre];
    [|now rewrite last_char_app_nonempty by discriminate].
  rewrite app_nil_r. destruct Hs as [Hs|Hs]; [exact Hs|]. exfalso.
  cbn [app] in Hs.
  pose proof (keyword_all_word _ _ kw_lower Hw) as Hall.
  assert (Hne : w <> []).
  { intros ->. destruct kw_lower as [Hk _]. apply Hk. now rewrite <- Hw. }
  assert (Hh : Re.opt_word (hd_error (w ++ post)) = true).
  { destruct w as [|c w]; [contradiction|]. cbn. now inversion Hall. }
  congruence.
Qed.
End Seams.

Lemma forbidden_app (a b : str) :
  seam a b -> ~ has_forbidden_keyword a -> ~ has_forbidden_keyword b ->
  ~ has_forbidden_keyword (a ++ b).
Proof.
  pose proof forbidden_keywords_lower as HL. rewrite Forall_forall in HL.
  intros Hs Ha Hb (kw & Hin & H).
  destruct (keyword_app_inv kw (HL _ Hin) a b Hs H) as [K|K].
  - apply Ha. now exists kw.
  - apply Hb. now exists kw.
Qed.

Lemma forbidden_left (a b : str) :
  seam a b -> ~ has_forbidden_keyword (a ++ b) -> ~ has_forbidden_keyword a.
Proof.
  pose proof forbidden_keywords_lower as HL. rewrite Forall_forall in HL.
  intros Hs H (kw & Hin & K). apply H. exists kw. split; [assumption|].
  now apply keyword_app_l; [apply HL| |].
Qed.

Lemma forbidden_right (a b : str) :
  seam a b -> ~ has_forbidden_keyword (a ++ b) -> ~ has_forbidden_keyword b.
Proof.
  pose proof forbidden_keywords_lower as HL. rewrite Forall_forall in HL.
  intros Hs H (kw & Hin & K). apply H. exists kw. split; [assumption|].
  now apply keyword_app_r; [apply HL| |].
Qed.

Lemma forbidden_not_found (s : str) :
  Re.found forbidden_re s = false -> ~ has_forbidden_keyword s.
Proof. intros H K. apply forbidden_found in K. congruence. Qed.

Lemma spaces_end (l : str) :
  forallb isspace l = true -> Re.opt_word (last_char l) = false.
Proof.
  intros H. unfold last_char. destruct (rev l) as [|c r] eqn:E; [reflexivity|].
  cbn. apply space_not_word. rewrite forallb_forall in H. apply H.
  apply in_rev. rewrite E. now left.
Qed.

Lemma spaces_start (l : str) :
  forallb isspace l = true -> Re.opt_word (hd_error l) = false.
Proof.
  destruct l as [|c l]; [reflexivity|]. cbn [forallb]. intros H.
  apply andb_true_iff in H as [H _]. cbn. now apply space_not_word.
Qed.

Lemma dropwhile_split (f : ascii -> bool) (s : str) :
  exists pre, s = pre ++ dropwhile f s /\ forallb f pre = true.
Proof.
  induction s as [|x s (pre & IH & Hpre)]; cbn [dropwhile]; [now exists []|].
  destruct (f x) eqn:E; [|now exists []].
  exists (x :: pre). cbn [app forallb]. rewrite E, Hpre.
  split; [now f_equal|reflexivity].
Qed.

Lemma forallb_rev (f : ascii -> bool) (l : str) :
  forallb f l = true -> forallb f (rev l) = true.
Proof.
  rewrite !forallb_forall. intros H x Hx. apply H. now apply in_rev.
Qed.

(** [strip] takes white space off both ends and nothing else. *)
Lemma strip_decompose (s : str) :
  exists l r, s = l ++ strip s ++ r /\
    forallb isspace l = true /\ forallb isspace r = true.
Proof.
  unfold strip, strip_by, lstrip_by, rstrip_by.
  destruct (dropwhile_split isspace s) as (l & Hl & Hls).
  set (y := dropwhile isspace s) in *.
  destruct (dropwhile_split isspace (rev y)) as (pre & Hy & Hpre).
  exists l, (rev pre). split; [|split; [assumption|now apply forallb_rev]].
  rewrite Hl at 1. f_equal.
  rewrite <- (rev_involutive y) at 1. rewrite Hy at 1.
  now rewrite rev_app_distr.
Qed.

Lemma forbidden_strip (s : str) :
  ~ has_forbidden_keyword s -> ~ has_forbidden_keyword (strip s).
Proof.
  destruct (strip_decompose s) as (l & r & E & Hl & Hr). intros H.
  rewrite E in H.
  apply forbidden_right in H; [|left; now apply spaces_end].
  apply forbidden_left in H; [assumption|right; now apply spaces_start].
Qed.

Lemma forbidden_join (parts : list str) :
  Forall (fun p => ~ has_forbidden_keyword p) parts ->
  ~ has_forbidden_keyword (join (lit " ") parts).
Proof.
  induction 1 as [|p parts Hp _ IH]; cbn [join].
  - now apply forbidden_not_found.
  - destruct parts as [|p' parts]; [assumption|].
    apply forbidden_app; [right; reflexivity|assumption|].
    apply forbidden_app; [left; reflexivity| |exact IH].
    now apply forbidden_not_found.
Qed.

Lemma forbidden_assemble (s o f : str) :
  ~ has_forbidden_keyword s -> ~ has_forbidden_keyword o ->
  ~ has_forbidden_keyword f ->
  ~ has_forbidden_keyword (assemble s o f).
Proof.
  intros Hs Ho Hf. unfold assemble. apply forbidden_strip, forbidden_join.
  apply (@incl_Forall _ _ [strip s; o; f]).
  - intros x Hx. now apply filter_In in Hx as [? _].
  - repeat constructor; auto. now apply forbidden_strip.
Qed.

(** A greedy run before the end of the pattern is the longest run. *)
Lemma star_fin_max (f : ascii -> bool) : forall s prev n k,
  Re.star f Re.fin prev n s = Some k ->
  exists w r, s = w ++ r /\ k = n + length w /\ forallb f w = true /\
    match r with [] => True | c :: _ => f c = false end.
Proof.
  induction s as [|c s IH]; intros prev n k H; cbn [Re.star] in H.
  - injection H as <-. exists [], []. rewrite Nat.add_0_r. auto.
  - destruct (f c) eqn:E.
    + destruct (Re.star f Re.fin (Some c) (S n) s) as [k'|] eqn:Es.
      * cbn in H. injection H as <-.
        apply IH in Es as (w & r & -> & -> & Hw & Hr).
        exists (c :: w), r. cbn [forallb length app]. rewrite E, Hw.
        repeat split; auto; lia.
      * exfalso. clear - Es. revert Es. generalize (Some c) (S n).
        induction s as [|c' s IHs]; intros p m; cbn [Re.star].
        -- discriminate.
        -- destruct (f c'); [|discriminate].
           destruct (Re.star f Re.fin (Some c') (S m) s) eqn:E'; [discriminate|].
           now apply IHs in E'.
    + injection H as <-. exists [], (c :: s). rewrite Nat.add_0_r.
      repeat split; auto.
Qed.

Lemma fetch_re_clause : fetch_re = clause_re (lit "FETCH") (lit "FIRST") not_newline.
Proof. reflexivity. Qed.

Lemma order_re_clause : order_re = clause_re (lit "ORDER") (lit "BY") order_char.
Proof. reflexivity. Qed.

Lemma clause_re_extent (k1 k2 : str) (f : ascii -> bool)
    (prev : option ascii) (s : str) (n : nat) :
  (forall c, f c = false -> isword c = false) ->
  clause_re k1 k2 f prev s = Some n ->
  xorb (Re.opt_word prev) (Re.opt_word (hd_error s)) = true /\
  exists m rest, s = m ++ rest /\ n = length m /\
    Re.opt_word (hd_error rest) = false.
Proof.
  intros Hf H. unfold clause_re, Re.run in H.
  apply wordb_inv in H as [Hb H]. split; [exact Hb|].
  apply text_inv in H as (w1 & r1 & -> & _ & H).
  apply plus_inv in H as (ws & r2 & -> & _ & _ & H).
  apply text_inv in H as (w2 & r3 & -> & _ & H).
  apply wordb_inv in H as [_ H].
  apply star_fin_max in H as (tl & rest & -> & -> & _ & Hr).
  exists (w1 ++ ws ++ w2 ++ tl), rest. split; [|split].
  - now rewrite <- !app_assoc.
  - rewrite !length_app. lia.
  - destruct rest as [|c rest]; [reflexivity|]. cbn. now apply Hf.
Qed.

(** Cutting a statement at a clause found by one of the two patterns
    makes no keyword: neither in the text before the clause nor in the
    clause. *)
Lemma clause_cut (k1 k2 : str) (f : ascii -> bool) (s : str) (i n : nat) :
  (forall c, f c = false -> isword c = false) ->
  Re.search (clause_re k1 k2 f) s = Some (i, n) ->
  ~ has_forbidden_keyword s ->
  ~ has_forbidden_keyword (firstn i s) /\
  ~ has_forbidden_keyword (slice i (i + n) s).
Proof.
  intros Hf H Hs. apply search_slice in H as [Hi H].
  apply clause_re_extent in H as (Hb & m & rest & E & -> & Hr); [|exact Hf].
  rewrite <- (firstn_skipn i s) in Hs.
  assert (Seam : seam (firstn i s) (skipn i s)).
  { rewrite char_before_firstn in Hb by assumption. unfold seam.
    destruct (Re.opt_word (last_char (firstn i s)));
      destruct (Re.opt_word (hd_error (skipn i s))); auto; discriminate. }
  split; [now apply (forbidden_left _ _ Seam)|].
  apply (forbidden_right _ _ Seam) in Hs.
  unfold slice. replace (i + length m - i) with (length m) by lia.
  rewrite E in *. rewrite firstn_app, firstn_all, Nat.sub_diag. cbn [firstn].
  rewrite app_nil_r. apply (forbidden_left m rest); [now right|assumption].
Qed.

Lemma newline_stop (c : ascii) : not_newline c = false -> isword c = false.
Proof. each_char c. Qed.

Lemma order_stop (c : ascii) : order_char c = false -> isword c = false.
Proof. each_char c. Qed.

Lemma split_fetch_forbidden (s : str) :
  ~ has_forbidden_keyword s ->
  ~ has_forbidden_keyword (fst (split_fetch s)) /\
  ~ has_forbidden_keyword (snd (split_fetch s)).
Proof.
  intros Hs. unfold split_fetch.
  destruct (Re.search fetch_re s) as [[i n]|] eqn:E; cbn [fst snd].
  - rewrite fetch_re_clause in E.
    destruct (clause_cut _ _ _ _ _ _ newline_stop E Hs).
    split; now apply forbidden_strip.
  - split; [assumption|now apply forbidden_not_found].
Qed.

Lemma split_order_forbidden (s : str) :
  ~ has_forbidden_keyword s ->
  ~ has_forbidden_keyword (fst (split_order s)) /\
  ~ has_forbidden_keyword (snd (split_order s)).
Proof.
  intros Hs. unfold split_order.
  destruct (Re.search order_re s) as [[i n]|] eqn:E; cbn [fst snd].
  - rewrite order_re_clause in E.
    destruct (clause_cut _ _ _ _ _ _ order_stop E Hs).
    split; now apply forbidden_strip.
  - split; [assumption|now apply forbidden_not_found].
Qed.

Lemma inject_where_forbidden (s : str) :
  ~ has_forbidden_keyword s -> ~ has_forbidden_keyword (inject_where s).
Proof.
  intros Hs. unfold inject_where, Re.found, Re.sub1.
  destruct (Re.search where_re s) as [[i n]|] eqn:E.
  - apply search_slice in E as [Hi E].
    apply (keyword_re_inv _ _ _ _ where_lower) in E
      as (w & post & Ew & Hw & Hp & Hq & ->).
    assert (Hlen : length w = 5)
      by (rewrite <- (length_map lower_az), Hw; reflexivity).
    assert (Epost : skipn (i + length (lit "where")) s = post).
    { rewrite <- (firstn_skipn i s) at 1. rewrite skipn_app.
      rewrite length_firstn, Nat.min_l by assumption.
      replace (i + length (lit "where") - i) with 5 by (cbn; lia).
      rewrite skipn_all2 by (rewrite length_firstn; lia). cbn [app].
      rewrite Ew, skipn_app, <- Hlen, skipn_all, Nat.sub_diag. reflexivity. }
    rewrite Epost.
    rewrite <- (firstn_skipn i s) in Hs.
    rewrite char_before_firstn in Hp by assumption.
    pose proof (forbidden_left _ _ (or_introl Hp) Hs) as Hpre.
    apply (forbidden_right _ _ (or_introl Hp)) in Hs. rewrite Ew in Hs.
    apply (forbidden_right _ _ (or_intror Hq)) in Hs.
    apply forbidden_app; [now left|assumption|].
    apply forbidden_app; [now right| |assumption].
    now apply forbidden_not_found.
  - apply forbidden_app; [right; reflexivity|assumption|].
    now apply forbidden_not_found.
Qed.

Lemma fix_order_forbidden (o : str) :
  ~ has_forbidden_keyword o -> ~ has_forbidden_keyword (fix_order o).
Proof.
  intros H. unfold fix_order. destruct (_ && _); [|assumption].
  now apply forbidden_not_found.
Qed.

Lemma fix_fetch_forbidden (f : str) :
  ~ has_forbidden_keyword f -> ~ has_forbidden_keyword (fix_fetch f).
Proof.
  intros H. unfold fix_fetch. destruct (negb _); [|assumption].
  now apply forbidden_not_found.
Qed.

(** X1.  A statement returned by the sanitizer holds no forbidden keyword
    as a standalone word: the splitting, the injected predicates, the
    default clauses and the reassembly bring none in. *)
Theorem returned_statement_has_no_forbidden_keyword
    (V_SCHEMA : option str) (sql q : str) :
  template_literal V_SCHEMA = true ->
  clean_sql V_SCHEMA sql = Return q ->
  ~ has_forbidden_keyword q.
Proof.
  intros HT H. apply (clean_sql_return _ _ _ HT) in H as (_ & Hk & _ & ->).
  apply forbidden_not_found in Hk. rewrite finish_unfold.
  destruct (split_fetch_forbidden _ Hk) as [H1 Hf].
  destruct (split_order_forbidden _ H1) as [H2 Ho].
  apply forbidden_assemble.
  - now apply inject_where_forbidden.
  - now apply fix_order_forbidden.
  - now apply fix_fetch_forbidden.
Qed.

Lemma returned_statement_has_no_forbidden_keyword_witness :
  ~ has_forbidden_keyword
      (finish (prepare APPS
         (lit "select LAST_UPDATE_DATE from AP_HOLDS_ALL where 1 = 1 order by 1 fetch first 3 rows only"))).
Proof.
  apply (returned_statement_has_no_forbidden_keyword APPS
           (lit "select LAST_UPDATE_DATE from AP_HOLDS_ALL where 1 = 1 order by 1 fetch first 3 rows only")
           _ eq_refl).
  vm_compute. reflexivity.
Defined.

Lemma fix_fetch_solid (s : str) :
  solid (fix_fetch (snd (split_fetch s))) = true.
Proof.
  unfold split_fetch.
  destruct (Re.search fetch_re s) as [[i n]|] eqn:E; cbn [snd].
  - pose proof (fetch_clause_solid _ _ _ E) as Hs.
    unfold fix_fetch. now rewrite (solid_truthy _ Hs).
  - reflexivity.
Qed.

(** X2.  A statement returned by the sanitizer is never empty and neither
    starts nor ends with white space. *)
Theorem returned_statement_is_trimmed (V_SCHEMA : option str) (sql q : str) :
  template_literal V_SCHEMA = true ->
  clean_sql V_SCHEMA sql = Return q ->
  q <> [] /\ solid q = true /\ strip q = q.
Proof.
  intros HT H. apply (clean_sql_return _ _ _ HT) in H as (_ & _ & _ & ->).
  rewrite finish_unfold.
  set (a := inject_where _). set (o := fix_order _).
  set (f := fix_fetch _).
  assert (Hf : solid f = true) by apply fix_fetch_solid.
  destruct (assemble_ends_with a o f Hf) as (pre & E).
  assert (Hne : assemble a o f <> []).
  { rewrite E. destruct f; [discriminate|]. now destruct pre. }
  assert (Hs : solid (assemble a o f) = true).
  { unfold assemble in *. now apply strip_solid. }
  split; [assumption|]. split; [assumption|].
  destruct (strip_keeps_suffix [] _ Hs) as (a' & E').
  cbn [app] in E'. rewrite E'.
  apply (f_equal (@length ascii)) in E'.
  destruct (strip_decompose (assemble a o f)) as (l & r & D & _).
  apply (f_equal (@length ascii)) in D. rewrite !length_app in *.
  assert (length a' = 0) by lia. now destruct a'.
Qed.

Lemma returned_statement_is_trimmed_witness :
  strip (finish (prepare APPS (lit "  SELECT * FROM AP_HOLDS_ALL ;; ")))
  = finish (prepare APPS (lit "  SELECT * FROM AP_HOLDS_ALL ;; ")).
Proof.
  apply (returned_statement_is_trimmed APPS
           (lit "  SELECT * FROM AP_HOLDS_ALL ;; ") _ eq_refl).
  vm_compute. reflexivity.
Defined.

(** ** The executor and [run] *)

Section RunFacts.
Variable cell : Type.
Variable w : world cell.

Lemma vision_execute_returns (V_SCHEMA : option str) (sql : str) :
  exists data trace, vision_execute w V_SCHEMA sql = (Return data, trace).
Proof.
  unfold vision_execute.
  destruct (attempt w V_SCHEMA sql) as [[rows|e] trace]; eauto.
Qed.

Variable a : adw.

Lemma error_payload_get (m : message) (sql : str) :
  exists d, @error_payload cell m sql = [d] /\
            dict_get (lit "error") d = Some (Note m).
Proof. eexists. split; reflexivity. Qed.

Lemma summarize_error_payload (m : message) (sql : str) :
  summarize (@error_payload cell m sql) = RunQueryError (Note m).
Proof. reflexivity. Qed.

(** X4.  [run] answers with status error exactly when [adw_selectai]
    raised, the error being the text of that exception; the Vision
    database is then not contacted. *)
Theorem run_error_iff_select_ai_raised (V_SCHEMA : option str)
    (user_message : option str) :
  (forall m, fst (run a w V_SCHEMA user_message) = ReplyError cell m <->
             exists e, adw_selectai a user_message = Raise e /\
                       m = str_of_exn e)
  /\
  (forall e, adw_selectai a user_message = Raise e ->
             run a w V_SCHEMA user_message =
             (ReplyError cell (str_of_exn e), [])).
Proof.
  unfold run. split.
  - intros m. destruct (adw_selectai a user_message) as [sql|e].
    + destruct (vision_execute_returns V_SCHEMA sql) as (data & trace & ->).
      cbn [fst]. split; [discriminate|]. intros (e & H & _). discriminate.
    + cbn [fst]. split.
      * intros H. injection H as <-. eauto.
      * intros (e' & H & ->). now injection H as <-.
  - intros e ->. reflexivity.
Qed.

(** X5.  Whatever goes wrong once the question has an answer - the
    sanitizer rejects the statement, the Vision database cannot be reached
    or refuses the statement, the log cannot be written - [run] still
    answers with status success: the data is the error payload and the
    message is the query error message built from it. *)
Theorem run_reports_failure_as_success (V_SCHEMA : option str)
    (user_message : option str) (sql : str) (e : exn) (trace : list event) :
  adw_selectai a user_message = Return sql ->
  attempt w V_SCHEMA sql = (Raise e, trace) ->
  run a w V_SCHEMA user_message =
  (ReplySuccess (error_payload (handler_message e) sql)
                (RunQueryError (Note (handler_message e))), trace).
Proof.
  intros Ha Hv. unfold run, vision_execute. rewrite Ha, Hv. reflexivity.
Qed.

(** X6.  When Select AI gives no row, or a row of white space only, [run]
    answers with status success and the query error message of the empty
    statement, and the Vision database is not contacted. *)
Theorem run_on_blank_answer (V_SCHEMA : option str)
    (user_message : option str) (row : option (option str)) (text : str) :
  a (double_quotes (or_empty user_message)) = inr row ->
  first_column row = Some text ->
  is_blank text = true ->
  run a w V_SCHEMA user_message =
  (ReplySuccess (error_payload (MsgGeneralError MsgEmptySql) [])
                (RunQueryError (Note (MsgGeneralError MsgEmptySql))), []).
Proof.
  intros Ha Hc Hb.
  assert (Hs : strip text = []).
  { unfold is_blank in Hb. destruct text as [|c r]; [reflexivity|].
    cbn [truthy negb orb] in Hb.
    destruct (strip (c :: r)); [reflexivity|discriminate]. }
  unfold run, adw_selectai. rewrite Ha, Hc. cbv zeta.
  rewrite Hs. reflexivity.
Qed.

(** X7.  What [run] says of the rows of a successful query: no row gives
    the no-result message; one record of one column gives the count
    message with that column and value; anything else gives the total,
    the number of records - unless the first record has a column named
    error, which is reported as a query error. *)
Theorem run_message_of_rows (V_SCHEMA : option str)
    (user_message : option str) (sql : str) (data : list (record cell))
    (trace : list event) :
  adw_selectai a user_message = Return sql ->
  attempt w V_SCHEMA sql = (Return data, trace) ->
  exists msg,
    run a w V_SCHEMA user_message = (ReplySuccess data msg, trace) /\
    (data = [] -> msg = RunNoRows) /\
    (forall d rest v, data = d :: rest ->
       dict_get (lit "error") d = Some v -> msg = RunQueryError v) /\
    (forall key v, data = [[(key, v)]] -> key <> lit "error" ->
       msg = RunCount key v) /\
    (forall d rest, data = d :: rest ->
       dict_get (lit "error") d = None ->
       (rest <> [] \/ length d <> 1) -> msg = RunTotal (length data)).
Proof.
  intros Ha Hv. exists (summarize data). split.
  - unfold run, vision_execute. now rewrite Ha, Hv.
  - split; [now intros ->|]. split; [|split].
    + intros d rest v -> Hd. cbn [summarize]. now rewrite Hd.
    + intros key v -> Hk. cbn [summarize dict_get].
      destruct (str_eqb (lit "error") key) eqn:E; [|reflexivity].
      apply str_eqb_eq in E. congruence.
    + intros d rest -> Hd Hshape. cbn [summarize]. rewrite Hd.
      destruct rest as [|d' rest]; [|reflexivity].
      destruct d as [|[k v] [|kv d]]; try reflexivity.
      destruct Hshape as [H|H]; now elim H.
Qed.
End RunFacts.

(** ** Escaping the question *)

(** X8.  In an escaped text every single quote is one of a pair, so the
    literal built around it on line 107 cannot be closed from inside. *)
Theorem escaped_quotes_are_paired (s : option str) :
  quotes_paired (_escape_literal s) = true.
Proof.
  unfold _escape_literal. induction (or_empty s) as [|c r IH]; [reflexivity|].
  cbn [double_quotes]. destruct (eqc c squote) eqn:E.
  - cbn [quotes_paired]. change (eqc squote squote) with true. exact IH.
  - cbn [quotes_paired]. now rewrite E.
Qed.

(** X9.  Escaping loses nothing: two questions with the same escaped text
    are the same question. *)
Theorem escape_is_injective (a b : str) :
  _escape_literal (Some a) = _escape_literal (Some b) -> a = b.
Proof.
  unfold _escape_literal, or_empty. revert b.
  induction a as [|x a IH]; intros [|y b]; cbn [double_quotes].
  - reflexivity.
  - destruct (eqc y squote); discriminate.
  - destruct (eqc x squote); discriminate.
  - destruct (eqc x squote) eqn:Ex, (eqc y squote) eqn:Ey.
    + apply eqc_eq in Ex, Ey. intros H. injection H as H.
      f_equal; [congruence|now apply IH].
    + intros H. injection H as <- H. apply eqc_eq in Ex. subst x.
      discriminate.
    + intros H. injection H as -> H. apply eqc_eq in Ey. subst y.
      discriminate.
    + intros H. injection H as <- H. f_equal. now apply IH.
Qed.

Lemma escape_is_injective_witness :
  lit "it's" = [ascii_of_nat 105; ascii_of_nat 116; squote; ascii_of_nat 115].
Proof.
  apply escape_is_injective. reflexivity.
Defined.

(** X10.  Escaping goes part by part: the escaped text of a concatenation
    is the concatenation of the escaped texts, each quote adds one
    character, and a text without quotes is left as it is. *)
Theorem escape_distributes (a b : str) :
  _escape_literal (Some (a ++ b)) =
    _escape_literal (Some a) ++ _escape_literal (Some b)
  /\ length (_escape_literal (Some a)) =
       length a + length (filter (fun c => eqc c squote) a)
  /\ (forallb (fun c => negb (eqc c squote)) a = true ->
      _escape_literal (Some a) = a).
Proof.
  unfold _escape_literal, or_empty. split; [|split].
  - induction a as [|c a IH]; [reflexivity|]. cbn [app double_quotes].
    destruct (eqc c squote); cbn [app]; now rewrite IH.
  - induction a as [|c a IH]; [reflexivity|]. cbn [double_quotes filter].
    destruct (eqc c squote); cbn [length]; rewrite IH; lia.
  - induction a as [|c a IH]; [reflexivity|]. cbn [forallb double_quotes].
    intros H. apply andb_true_iff in H as [Hc Ha].
    apply negb_true_iff in Hc. rewrite Hc. f_equal. now apply IH.
Qed.

Lemma escape_distributes_witness :
  _escape_literal (Some (lit "how many holds")) = lit "how many holds".
Proof.
  apply (escape_distributes (lit "how many holds") []). reflexivity.
Defined.

(** ** Row dictionaries *)

Section DictFacts.
Variable cell : Type.
Implicit Types (d : record cell) (k : str) (v : value cell).

Lemma dict_get_set k k' v d :
  dict_get k (dict_set k' v d) =
  if str_eqb k k' then Some v else dict_get k d.
Proof.
  induction d as [|[k0 v0] d IH]; cbn [dict_set dict_get].
  - destruct (str_eqb k k'); reflexivity.
  - destruct (str_eqb k' k0) eqn:E0; cbn [dict_get].
    + apply str_eqb_eq in E0. subst k0.
      destruct (str_eqb k k'); reflexivity.
    + rewrite IH. destruct (str_eqb k k0) eqn:E1; [|reflexivity].
      apply str_eqb_eq in E1. subst k0.
      destruct (str_eqb k k') eqn:E2; [|reflexivity].
      apply str_eqb_eq in E2. subst k'.
      assert (str_eqb k k = true) by now apply str_eqb_eq. congruence.
Qed.

Lemma dict_get_app k (l1 l2 : record cell) :
  dict_get k (l1 ++ l2) =
  match dict_get k l1 with Some v => Some v | None => dict_get k l2 end.
Proof.
  induction l1 as [|[k0 v0] l1 IH]; cbn [app dict_get]; [reflexivity|].
  destruct (str_eqb k k0); [reflexivity|exact IH].
Qed.

Lemma dict_get_fold k : forall (pairs : list (str * value cell)) d,
  dict_get k (fold_left (fun d kv => dict_set (fst kv) (snd kv) d) pairs d) =
  match dict_get k (rev pairs) with
  | Some v => Some v
  | None => dict_get k d
  end.
Proof.
  induction pairs as [|[k0 v0] pairs IH]; intros d; [reflexivity|].
  cbn [fold_left fst snd rev]. rewrite IH, dict_get_app, dict_get_set.
  cbn [dict_get]. destruct (dict_get k (rev pairs)); [reflexivity|].
  destruct (str_eqb k k0); reflexivity.
Qed.

(** X11.  Looking a column up in a row dictionary gives the value of the
    last column of that name: with two columns of one name the earlier
    value is lost. *)
Theorem dict_get_last (k : str) (pairs : list (str * value cell)) :
  dict_get k (dict pairs) = dict_get k (rev pairs).
Proof.
  unfold dict. rewrite dict_get_fold. cbn [dict_get].
  now destruct (dict_get k (rev pairs)).
Qed.

Lemma dict_set_fresh k v d :
  ~ In k (map fst d) -> dict_set k v d = d ++ [(k, v)].
Proof.
  induction d as [|[k0 v0] d IH]; cbn [dict_set map fst In app];
    [reflexivity|].
  intros H. destruct (str_eqb k k0) eqn:E.
  - apply str_eqb_eq in E. subst. elim H. now left.
  - f_equal. apply IH. intros K. apply H. now right.
Qed.

Lemma dict_fold_fresh : forall (pairs d : list (str * value cell)),
  NoDup (map fst (d ++ pairs)) ->
  fold_left (fun d kv => dict_set (fst kv) (snd kv) d) pairs d = d ++ pairs.
Proof.
  induction pairs as [|[k v] pairs IH]; intros d H.
  - now rewrite app_nil_r.
  - cbn [fold_left fst snd]. rewrite dict_set_fresh.
    + rewrite IH; rewrite <- app_assoc; [reflexivity|exact H].
    + rewrite map_app in H. cbn [map fst] in H.
      apply NoDup_remove_2 in H. intros K. apply H.
      apply in_or_app. now left.
Qed.

(** X12.  When the column names of the cursor are distinct and a row has
    as many values as there are columns, the row dictionary lists every
    column with its value, in the order of the columns. *)
Theorem row_dict_of_distinct_columns (cols : list str) (r : list cell) :
  NoDup cols -> length r = length cols ->
  dict (combine cols (map Cell r)) = combine cols (map Cell r) /\
  map fst (dict (combine cols (map Cell r))) = cols.
Proof.
  intros Hnd Hlen.
  assert (Hk : map fst (combine cols (map (@Cell cell) r)) = cols).
  { clear Hnd. revert r Hlen. induction cols as [|c cols IH]; intros [|x r] H;
      try discriminate; [reflexivity|]. cbn. f_equal. apply IH.
    now injection H. }
  assert (E : dict (combine cols (map Cell r)) = combine cols (map Cell r)).
  { unfold dict. rewrite dict_fold_fresh; [reflexivity|].
    cbn [app]. now rewrite Hk. }
  split; [exact E|]. now rewrite E.
Qed.
End DictFacts.

Lemma row_dict_of_distinct_columns_witness :
  dict (combine [lit "HOLD_ID"; lit "INVOICE_ID"]
          (map Cell [lit "1"; lit "77"]))
  = combine [lit "HOLD_ID"; lit "INVOICE_ID"] (map Cell [lit "1"; lit "77"]).
Proof.
  apply (row_dict_of_distinct_columns str
           [lit "HOLD_ID"; lit "INVOICE_ID"] [lit "1"; lit "77"]).
  - repeat constructor; cbn; intuition discriminate.
  - reflexivity.
Defined.

(** ** White space around the statement *)

Lemma dropwhile_pad (f : ascii -> bool) (l x : str) :
  forallb f l = true -> dropwhile f (l ++ x) = dropwhile f x.
Proof.
  induction l as [|c l IH]; [reflexivity|]. cbn [forallb app dropwhile].
  intros H. apply andb_true_iff in H as [Hc Hl]. now rewrite Hc, IH.
Qed.

Lemma rstrip_pad (f : ascii -> bool) (x r : str) :
  forallb f r = true -> rstrip_by f (x ++ r) = rstrip_by f x.
Proof.
  intros H. unfold rstrip_by. rewrite rev_app_distr.
  now rewrite dropwhile_pad by now apply forallb_rev.
Qed.

Lemma strip_pad (l s r : str) :
  forallb isspace l = true -> forallb isspace r = true ->
  strip (l ++ s ++ r) = strip s.
Proof.
  intros Hl Hr. unfold strip, strip_by, lstrip_by.
  rewrite dropwhile_pad by assumption.
  destruct (dropwhile_split isspace s) as (ls & Es & Hls).
  destruct (dropwhile isspace s) as [|c y] eqn:Ey.
  - rewrite app_nil_r in Es. subst ls.
    rewrite <- (app_nil_r (s ++ r)), dropwhile_pad; [reflexivity|].
    now rewrite forallb_app, Hls, Hr.
  - pose proof (dropwhile_head _ _ _ _ Ey) as Hc.
    rewrite Es at 1. rewrite <- app_assoc, dropwhile_pad by assumption.
    cbn [app dropwhile]. rewrite Hc.
    change (c :: y ++ r) with ((c :: y) ++ r). now apply rstrip_pad.
Qed.

Lemma is_blank_strip (s : str) : is_blank s = negb (truthy (strip s)).
Proof. unfold is_blank. destruct s; reflexivity. Qed.

(** X13.  White space before and after the statement makes no difference
    to the sanitizer: the padded statement gets the same answer. *)
Theorem clean_sql_ignores_padding (V_SCHEMA : option str) (l sql r : str) :
  template_literal V_SCHEMA = true ->
  forallb isspace l = true -> forallb isspace r = true ->
  clean_sql V_SCHEMA (l ++ sql ++ r) = clean_sql V_SCHEMA sql.
Proof.
  intros HT Hl Hr. rewrite !clean_sql_unfold, !is_blank_strip by assumption.
  unfold prepare. now rewrite (strip_pad l sql r Hl Hr).
Qed.

Lemma clean_sql_ignores_padding_witness :
  clean_sql APPS ([newline] ++ lit "SELECT * FROM AP_HOLDS_ALL" ++ lit "  ")
  = clean_sql APPS (lit "SELECT * FROM AP_HOLDS_ALL").
Proof.
  apply (clean_sql_ignores_padding APPS [newline]
           (lit "SELECT * FROM AP_HOLDS_ALL") (lit "  "));
    reflexivity.
Defined.

(** ** Spellings of the allowed table *)

Lemma upper_az_plain (c : ascii) :
  is_upper_az (upper_az c) = true \/ upper_az c = "_"%char ->
  eqc c "." = false /\ eqc c dquote = false.
Proof. each_char c; intros [H|H]; discriminate. Qed.

Lemma allowed_chars_plain (t : str) :
  upper t = upper META_TBL ->
  forallb not_dot t = true /\
  forallb (fun c => negb (eqc c dquote)) t = true.
Proof.
  intros H.
  assert (HF : Forall (fun c => is_upper_az c = true \/ c = "_"%char)
                 (upper t)).
  { rewrite H. repeat constructor; (now left) || (now right). }
  unfold upper in HF. clear H.
  induction t as [|c t IH]; [split; reflexivity|].
  cbn [map] in HF. inversion HF as [|? ? Hc Ht]; subst.
  destruct (IH Ht) as [H1 H2]. apply upper_az_plain in Hc as [Hd Hq].
  cbn [forallb]. unfold not_dot at 1. now rewrite Hd, Hq, H1, H2.
Qed.

Lemma strip_quotes (ql t qr : str) :
  t <> [] -> forallb (fun c => negb (eqc c dquote)) t = true ->
  forallb (eqc dquote) ql = true -> forallb (eqc dquote) qr = true ->
  strip_by (fun c => eqc c dquote) (ql ++ t ++ qr) = t.
Proof.
  intros Hne Ht Hql Hqr.
  assert (Sym : forall q, forallb (eqc dquote) q = true ->
                forallb (fun c => eqc c dquote) q = true).
  { intros q Hq. rewrite forallb_forall in *. intros x Hx.
    specialize (Hq x Hx). apply eqc_eq in Hq. now apply eqc_eq. }
  unfold strip_by, lstrip_by. rewrite dropwhile_pad by now apply Sym.
  destruct t as [|c t']; [contradiction|].
  cbn [app dropwhile forallb] in *. apply andb_true_iff in Ht as [Hc Ht].
  apply negb_true_iff in Hc. rewrite Hc.
  change (c :: t' ++ qr) with ((c :: t') ++ qr).
  rewrite rstrip_pad by now apply Sym.
  unfold rstrip_by.
  destruct (rev (c :: t')) as [|z r] eqn:E.
  { apply (f_equal (@length ascii)) in E. rewrite length_rev in E.
    discriminate. }
  assert (Hz : eqc z dquote = false).
  { assert (In z (c :: t')) by (apply in_rev; rewrite E; now left).
    destruct H as [<-|H]; [assumption|].
    rewrite forallb_forall in Ht. specialize (Ht z H).
    now apply negb_true_iff in Ht. }
  cbn [dropwhile]. rewrite Hz, <- E. apply rev_involutive.
Qed.

(** X14.  Every spelling of the allowed table passes the table check: in
    any mix of cases, with any number of double quotes around the name,
    bare or behind a schema qualifier. *)
Theorem allowed_table_spellings (schema ql t qr : str) :
  upper t = upper META_TBL ->
  forallb (eqc dquote) ql = true -> forallb (eqc dquote) qr = true ->
  table_name (ql ++ t ++ qr) = upper META_TBL /\
  table_name (schema ++ "." :: ql ++ t ++ qr) = upper META_TBL /\
  check_tables [ql ++ t ++ qr; schema ++ "." :: ql ++ t ++ qr] = None.
Proof.
  intros Ht Hql Hqr.
  destruct (allowed_chars_plain _ Ht) as [Hd Hq].
  assert (Hne : t <> []) by (intros ->; discriminate).
  assert (E : table_name (ql ++ t ++ qr) = upper META_TBL).
  { unfold table_name. rewrite split_plain.
    - cbn [map last]. now rewrite strip_quotes.
    - assert (Q : forall q, forallb (eqc dquote) q = true ->
                  forallb (fun c => negb (eqc c ".")) q = true).
      { intros q Hx. rewrite forallb_forall in *. intros x Hxin.
        specialize (Hx x Hxin). apply eqc_eq in Hx. now subst x. }
      change (forallb (fun c => negb (eqc c ".")) t = true) in Hd.
      now rewrite !forallb_app, (Q _ Hql), (Q _ Hqr), Hd. }
  split; [exact E|]. split; [now rewrite table_name_qualified|].
  apply check_tables_none. intros o [<-|[<-|[]]];
    [exact E|now rewrite table_name_qualified].
Qed.

Lemma allowed_table_spellings_witness :
  table_name (lit "vision" ++ "."%char :: [dquote] ++ lit "Ap_Holds_All" ++ [dquote])
  = upper META_TBL.
Proof.
  apply (allowed_table_spellings (lit "vision") [dquote] (lit "Ap_Holds_All")
           [dquote]); reflexivity.
Defined.

(** ** Code fences *)

Lemma lazy_star_to_newline : forall (info rest : str) prev n,
  forallb not_newline info = true ->
  Re.lazy_star anychar (Re.chr (eqc newline) Re.fin) prev n
    (info ++ newline :: rest) = Some (S (n + length info)).
Proof.
  induction info as [|c info IH]; intros rest prev n H.
  - cbn. now rewrite Nat.add_0_r.
  - cbn [forallb] in H. apply andb_true_iff in H as [Hc H].
    cbn [app Re.lazy_star]. unfold Re.chr at 1.
    unfold not_newline in Hc. apply negb_true_iff in Hc.
    assert (Hc' : eqc newline c = false).
    { destruct (eqc newline c) eqn:E; [|reflexivity].
      apply eqc_eq in E. subst c. discriminate. }
    rewrite Hc'. cbn [Re.orelse anychar]. rewrite IH by assumption.
    f_equal. cbn [length]. lia.
Qed.

Lemma fence_re_opening (info rest : str) :
  forallb not_newline info = true ->
  fence_re None (lit "```" ++ info ++ newline :: rest)
  = Some (S (3 + length info)).
Proof.
  intros H. unfold fence_re, Re.run, Re.alt, Re.bol.
  change (lit "```" ++ info ++ newline :: rest)
    with ("`"%char :: "`"%char :: "`"%char :: info ++ newline :: rest).
  cbn [Re.text Re.chr lit list_ascii_of_string].
  change (eqc "`" "`") with true. cbv iota.
  now rewrite lazy_star_to_newline.
Qed.

Lemma fence_re_inside (c : ascii) (t : str) (n : nat) :
  fence_re (Some c) t = Some n ->
  n = 4 /\ (t = newline :: lit "```" \/ t = newline :: lit "```" ++ [newline]).
Proof.
  unfold fence_re, Re.run, Re.alt. unfold Re.bol at 1. cbn [Re.orelse].
  intros H. apply chr_inv in H as (x & r & -> & Hx & H).
  apply eqc_eq in Hx. subst x.
  apply text_exact_inv in H as (r' & -> & H).
  unfold Re.eol, Re.fin in H. destruct r' as [|y [|z r']].
  - injection H as <-. auto.
  - change (eqc y "010") with (eqc y newline) in H.
    destruct (eqc y newline) eqn:E; [|discriminate].
    apply eqc_eq in E. subst y. injection H as <-. auto.
  - discriminate.
Qed.

Lemma sub_from_skip (p : Re.pattern nat) (repl : str) :
  forall (m rest : str) prev,
  Re.sub_from p repl (length m) prev (m ++ rest) =
  Re.sub_from p repl 0 (prev_after prev m) rest.
Proof.
  induction m as [|c m IH]; intros rest prev; [reflexivity|].
  destruct m as [|c' m'].
  - cbn [length app Re.sub_from]. destruct rest; reflexivity.
  - cbn [length app Re.sub_from]. rewrite prev_after_cons.
    exact (IH rest (Some c)).
Qed.

Lemma sub_closing_fence : forall (body : str) (c : ascii),
  Re.sub_from fence_re [] 0 (Some c) (body ++ newline :: lit "```") = body.
Proof.
  induction body as [|d body IH]; intros c; [reflexivity|].
  cbn [app Re.sub_from].
  destruct (fence_re (Some c) (d :: body ++ newline :: lit "```"))
    as [n|] eqn:E.
  - exfalso. apply fence_re_inside in E as [_ [E|E]];
      pose proof (f_equal (@length ascii) E) as L;
      cbn [length] in L; rewrite length_app in L; cbn in L.
    + lia.
    + assert (Hb : length body = 0) by lia.
      destruct body; [|discriminate]. cbn in E. discriminate.
  - f_equal. apply IH.
Qed.

(** X15.  A statement wrapped in a code fence comes out of line 120 as it
    was written between the fences, less its trailing semicolons: the
    opening fence goes with its whole first line, whatever language tag
    follows the backticks. *)
Theorem fence_is_unwrapped (info body : str) :
  forallb not_newline info = true ->
  strip_fence (lit "```" ++ info ++ newline :: body ++ newline :: lit "```")
  = rstrip_by (eqc ";") body.
Proof.
  intros H. unfold strip_fence. f_equal. unfold Re.sub.
  pose proof (fence_re_opening info (body ++ newline :: lit "```") H) as E.
  change (lit "```" ++ info ++ newline :: body ++ newline :: lit "```")
    with ("`"%char :: (lit "``" ++ info ++ newline :: body ++ newline :: lit "```"))
    in *.
  cbn [Re.sub_from]. rewrite E. cbn [app].
  replace (lit "``" ++ info ++ newline :: body ++ newline :: lit "```")
    with ((lit "``" ++ info ++ [newline]) ++ body ++ newline :: lit "```")
    by (rewrite <- !app_assoc; reflexivity).
  replace (3 + length info) with (length (lit "``" ++ info ++ [newline]))
    by (rewrite !length_app; cbn; lia).
  rewrite sub_from_skip.
  assert (P : prev_after (Some "`"%char) (lit "``" ++ info ++ [newline])
              = Some newline).
  { unfold prev_after. now rewrite !app_assoc, last_char_app. }
  rewrite P. apply sub_closing_fence.
Qed.

Lemma fence_is_unwrapped_witness :
  strip_fence (lit "```" ++ lit "sql" ++ newline
                 :: lit "SELECT 1 FROM AP_HOLDS_ALL;" ++ newline :: lit "```")
  = lit "SELECT 1 FROM AP_HOLDS_ALL".
Proof.
  rewrite (fence_is_unwrapped (lit "sql") (lit "SELECT 1 FROM AP_HOLDS_ALL;"));
    reflexivity.
Defined.

Lemma fence_re_backtick (prev : option ascii) (t : str) (n : nat) :
  fence_re prev t = Some n -> In "`"%char t.
Proof.
  unfold fence_re, Re.run, Re.alt, Re.orelse.
  match goal with |- context [match ?x with Some _ => _ | None => _ end] =>
    destruct x eqn:E1 end.
  - intros _. unfold Re.bol in E1. destruct prev; [discriminate|].
    apply text_exact_inv in E1 as (r & -> & _). now left.
  - intros H. apply chr_inv in H as (x & r & -> & _ & H).
    apply text_exact_inv in H as (r' & -> & _). right. now left.
Qed.

Lemma sub_without_fence : forall (t : str) prev,
  ~ In "`"%char t -> Re.sub_from fence_re [] 0 prev t = t.
Proof.
  induction t as [|c t IH]; intros prev H; [reflexivity|].
  cbn [Re.sub_from].
  destruct (fence_re prev (c :: t)) as [n|] eqn:E.
  - apply fence_re_backtick in E. contradiction.
  - f_equal. apply IH. intros K. apply H. now right.
Qed.

(** X16.  The fence strip of line 120 leaves a statement without a
    backtick as it is, less its trailing semicolons; and what it gives
    never ends with a semicolon, fenced or not. *)
Theorem fence_strip_without_fence (s : str) :
  (~ In "`"%char s -> strip_fence s = rstrip_by (eqc ";") s)
  /\ last_char (strip_fence s) <> Some ";"%char.
Proof.
  unfold strip_fence. split.
  - intros H. f_equal. now apply sub_without_fence.
  - unfold rstrip_by, last_char. rewrite rev_involutive.
    destruct (dropwhile _ _) as [|c r] eqn:E; [discriminate|].
    apply dropwhile_head in E. cbn. intros K. injection K as ->.
    discriminate.
Qed.

Lemma fence_strip_without_fence_witness :
  strip_fence (lit "SELECT 1 FROM AP_HOLDS_ALL;;") =
  lit "SELECT 1 FROM AP_HOLDS_ALL".
Proof.
  rewrite (proj1 (fence_strip_without_fence (lit "SELECT 1 FROM AP_HOLDS_ALL;;"))).
  - reflexivity.
  - vm_compute. intuition discriminate.
Defined.

(** ** After the schema rewrite *)

(** X17.  When the target schema is not empty, has neither dot nor
    backslash in its name and ends neither in 5 nor in a double quote,
    the rewrite of line 124 leaves no source
    schema qualifier behind: nowhere in the rewritten text, and so
    nowhere in the text the checks see, does the source schema stand
    before a dot, quoted or not, in any mix of cases. *)
Theorem rewrite_leaves_no_source_qualifier (v s : str) :
  template_literal (Some v) = true ->
  settled_target (Some v) = true -> v <> [] ->
  (forall pre m post,
     adjust_schema (Some v) s = pre ++ m ++ "." :: post ->
     ~ schema_qualifier m)
  /\
  (forall sql pre m post,
     prepare (Some v) sql = pre ++ m ++ "." :: post ->
     ~ schema_qualifier m).
Proof.
  intros _ Hv Hne.
  assert (Free : forall t, qualifier_free (adjust_schema (Some v) t)).
  { intros t. unfold adjust_schema. destruct v as [|c v']; [contradiction|].
    cbn [truthy]. unfold Re.sub.
    cbn [settled_target] in Hv. apply andb_true_iff in Hv as [Hd Hl].
    apply (sub_qualifier_free (c :: v') ltac:(discriminate) Hd) with (w := []).
    - intros z Hz. rewrite Hz in Hl. apply andb_true_iff in Hl as [H5 Hq].
      apply negb_true_iff in H5, Hq. split; intros ->; discriminate.
    - reflexivity.
    - intros j Hj. inversion Hj. }
  assert (No : forall t pre m post,
    adjust_schema (Some v) t = pre ++ m ++ "." :: post ->
    ~ schema_qualifier m).
  { intros t pre m post E Hm. specialize (Free t (length pre)).
    rewrite E in Free. rewrite skipn_app, skipn_all, Nat.sub_diag in Free.
    cbn [skipn app] in Free.
    rewrite (schema_re_complete None m post Hm) in Free.
    assert (length pre <= length (pre ++ m ++ "."%char :: post))
      by (rewrite length_app; lia).
    specialize (Free H). discriminate. }
  split; [apply No|]. intros sql. unfold prepare. apply No.
Qed.

Lemma rewrite_leaves_no_source_qualifier_witness :
  ~ schema_qualifier (lit "APPS").
Proof.
  apply (proj1 (rewrite_leaves_no_source_qualifier (lit "APPS")
                  (lit "SELECT * FROM hol_agent_05.AP_HOLDS_ALL")
                  eq_refl eq_refl ltac:(discriminate))
           (lit "SELECT * FROM ") (lit "APPS") (lit "AP_HOLDS_ALL")).
  vm_compute. reflexivity.
Defined.

(** ** What Select AI hands on *)

Lemma strip_idempotent (s : str) : strip (strip s) = strip s.
Proof.
  destruct (strip s) as [|c r] eqn:E; [reflexivity|]. rewrite <- E.
  assert (Hs : solid (strip s) = true)
    by (apply strip_solid; rewrite E; discriminate).
  destruct (strip_keeps_suffix [] _ Hs) as (a' & E').
  cbn [app] in E'. rewrite E'.
  destruct (strip_decompose (strip s)) as (l & r' & D & _).
  apply (f_equal (@length ascii)) in D. rewrite E' in D.
  rewrite !length_app in D. assert (length a' = 0) by lia.
  now destruct a'.
Qed.

(** X18.  [adw_selectai] passes every exception on; a row whose column
    is NULL makes it raise the AttributeError of line 109; otherwise it
    hands on the text of the column with the white space around it
    removed and nothing else changed, the empty text when there is no
    row, so the statement it hands on is blank only when it is empty. *)
Theorem adw_selectai_hands_on_trimmed_text (a : adw)
    (user_msg : option str) :
  (forall e, a (double_quotes (or_empty user_msg)) = inl e ->
     adw_selectai a user_msg = Raise e)
  /\
  (a (double_quotes (or_empty user_msg)) = inr (Some None) ->
   adw_selectai a user_msg = Raise (OtherError MsgNoStrip))
  /\
  (forall row text,
     a (double_quotes (or_empty user_msg)) = inr row ->
     first_column row = Some text ->
     exists sql l r,
       adw_selectai a user_msg = Return sql /\
       text = l ++ sql ++ r /\
       forallb isspace l = true /\ forallb isspace r = true /\
       strip sql = sql /\
       (is_blank sql = true <-> sql = [])).
Proof.
  unfold adw_selectai. split; [|split].
  - intros e ->. reflexivity.
  - intros ->. reflexivity.
  - intros row text -> ->. cbv zeta.
    destruct (strip_decompose text) as (l & r & D & Hl & Hr).
    exists (strip text), l, r.
    split; [reflexivity|]. split; [exact D|]. split; [exact Hl|].
    split; [exact Hr|]. split; [apply strip_idempotent|].
    rewrite is_blank_strip, strip_idempotent.
    destruct (strip text); cbn; split; congruence.
Qed.

Lemma adw_selectai_hands_on_trimmed_text_witness :
  adw_selectai adw_null (Some (lit "how many holds")) =
    Raise (OtherError MsgNoStrip) /\
  exists sql l r,
    adw_selectai adw_ok (Some (lit "how many holds")) = Return sql /\
    lit " SELECT * FROM AP_HOLDS_ALL " = l ++ sql ++ r /\
    forallb isspace l = true /\ forallb isspace r = true /\
    strip sql = sql /\
    (is_blank sql = true <-> sql = []).
Proof.
  split.
  - apply (proj1 (proj2 (adw_selectai_hands_on_trimmed_text adw_null
                           (Some (lit "how many holds"))))).
    reflexivity.
  - apply (proj2 (proj2 (adw_selectai_hands_on_trimmed_text adw_ok
                           (Some (lit "how many holds"))))
             (Some (Some (lit " SELECT * FROM AP_HOLDS_ALL "))));
      reflexivity.
Defined.

(** Witnesses of the statements about [run]. *)

Lemma run_error_iff_select_ai_raised_witness :
  run adw_down world_ok APPS (Some (lit "how many holds")) =
  (ReplyError str (MsgExternal (lit "ORA-12154")), []).
Proof.
  apply (proj2 (run_error_iff_select_ai_raised str world_ok adw_down APPS
                  (Some (lit "how many holds")))
           (OracleError (MsgExternal (lit "ORA-12154")))).
  reflexivity.
Defined.

Lemma run_reports_failure_as_success_witness :
  run adw_ok world_db_fault APPS (Some (lit "how many holds")) =
  (ReplySuccess
     (error_payload (MsgOracleError (MsgExternal (lit "ORA-00933")))
        (lit "SELECT * FROM AP_HOLDS_ALL"))
     (RunQueryError (Note (MsgOracleError (MsgExternal (lit "ORA-00933"))))),
   [Connect; Execute (finish (prepare APPS (lit "SELECT * FROM AP_HOLDS_ALL")))]).
Proof.
  apply (run_reports_failure_as_success str world_db_fault adw_ok APPS
           (Some (lit "how many holds")) (lit "SELECT * FROM AP_HOLDS_ALL")
           (OracleError (MsgExternal (lit "ORA-00933")))).
  - vm_compute. reflexivity.
  - vm_compute. reflexivity.
Defined.

Lemma run_on_blank_answer_witness :
  run adw_silent world_ok APPS (Some (lit "how many holds")) =
  (ReplySuccess (error_payload (MsgGeneralError MsgEmptySql) [])
                (RunQueryError (Note (MsgGeneralError MsgEmptySql))), []).
Proof.
  apply (run_on_blank_answer str world_ok adw_silent APPS
           (Some (lit "how many holds")) None []); reflexivity.
Defined.

Lemma run_message_of_rows_witness :
  exists msg,
    run adw_ok world_ok APPS (Some (lit "how many holds")) =
    (ReplySuccess [dict [(lit "HOLD_ID", Cell (lit "1"));
                         (lit "INVOICE_ID", Cell (lit "77"))]] msg,
     snd (attempt world_ok APPS (lit "SELECT * FROM AP_HOLDS_ALL"))) /\
    msg = RunTotal 1.
Proof.
  destruct (run_message_of_rows str world_ok adw_ok APPS
              (Some (lit "how many holds")) (lit "SELECT * FROM AP_HOLDS_ALL")
              [dict [(lit "HOLD_ID", Cell (lit "1"));
                     (lit "INVOICE_ID", Cell (lit "77"))]]
              (snd (attempt world_ok APPS (lit "SELECT * FROM AP_HOLDS_ALL"))))
    as (msg & Hrun & _ & _ & _ & Htotal).
  - vm_compute. reflexivity.
  - vm_compute. reflexivity.
  - exists msg. split; [exact Hrun|].
    apply (Htotal _ [] eq_refl); [reflexivity|]. right. cbn. discriminate.
Defined.

(** ** From the question to the Vision database *)

Lemma finish_forbidden (s : str) :
  ~ has_forbidden_keyword s -> ~ has_forbidden_keyword (finish s).
Proof.
  intros Hk. rewrite finish_unfold.
  destruct (split_fetch_forbidden _ Hk) as [H1 Hf].
  destruct (split_order_forbidden _ H1) as [H2 Ho].
  apply forbidden_assemble.
  - now apply inject_where_forbidden.
  - now apply fix_order_forbidden.
  - now apply fix_fetch_forbidden.
Qed.

Lemma finish_has_predicates (s : str) :
  infix (lit "WHERE " ++ inject) (finish s).
Proof.
  rewrite finish_unfold.
  apply assemble_keeps_infix; [reflexivity|apply inject_where_infix].
Qed.

Lemma executed_is_sanitized (cell : Type) (w : world cell)
    (V : option str) (sql q : str) :
  In (Execute q) (snd (vision_execute w V sql)) -> clean_sql V sql = Return q.
Proof.
  unfold vision_execute, attempt.
  destruct (clean_sql V sql) as [q'|e]; [|intros []].
  destruct (db_connect w).
  { cbn. intros [H|[]]. discriminate. }
  destruct (db_execute w q') as [e|[cols rows]].
  { cbn. intros [H|[H|[]]]; [discriminate|congruence]. }
  destruct (log_write w _); cbn.
  - intros [H|[H|[]]]; [discriminate|congruence].
  - intros [H|[H|[H|[]]]]; try discriminate; congruence.
Qed.

(** X19.  Whatever the question and whatever Select AI answers, a
    statement that [run] has executed on the Vision database is the
    sanitizer's answer to the text Select AI generated: it holds no
    forbidden keyword, and it holds WHERE followed by the mandatory
    predicates. *)
Theorem run_executes_only_sanitized (cell : Type) (a : adw) (w : world cell)
    (V_SCHEMA : option str) (user_message : option str) (q : str) :
  template_literal V_SCHEMA = true ->
  In (Execute q) (snd (run a w V_SCHEMA user_message)) ->
  (exists sql, adw_selectai a user_message = Return sql /\
               clean_sql V_SCHEMA sql = Return q) /\
  ~ has_forbidden_keyword q /\
  infix (lit "WHERE " ++ inject) q.
Proof.
  intros HT H. unfold run in H.
  destruct (adw_selectai a user_message) as [sql|e] eqn:Ha; [|destruct H].
  assert (Hq : clean_sql V_SCHEMA sql = Return q).
  { apply (executed_is_sanitized cell w). 
    destruct (vision_execute w V_SCHEMA sql) as [[data|e] trace]; exact H. }
  split; [eauto|].
  apply (clean_sql_return _ _ _ HT) in Hq as (_ & Hk & _ & ->).
  split; [|apply finish_has_predicates].
  apply finish_forbidden. now apply forbidden_not_found.
Qed.

Lemma run_executes_only_sanitized_witness :
  ~ has_forbidden_keyword
      (lit "SELECT * FROM AP_HOLDS_ALL WHERE RELEASE_LOOKUP_CODE IS NULL AND HOLD_LOOKUP_CODE IN ('QTY ORD', 'QTY REC', 'PRICE', 'AMT ORG') FETCH FIRST 100 ROWS ONLY").
Proof.
  apply (run_executes_only_sanitized str adw_ok world_ok APPS
           (Some (lit "how many holds")) _ eq_refl).
  vm_compute. right. left. reflexivity.
Defined.

Lemma targets_follow_from_or_join_witness :
  exists pre kw ws rest,
    lit "SELECT * FROM AP_HOLDS_ALL h" =
      pre ++ kw ++ ws ++ lit "AP_HOLDS_ALL" ++ rest /\
    (map lower_az kw = lit "from" \/ map lower_az kw = lit "join") /\
    Re.opt_word (last_char pre) = false /\
    ws <> [] /\ forallb isspace ws = true /\
    lit "AP_HOLDS_ALL" <> [] /\ forallb ident_char (lit "AP_HOLDS_ALL") = true.
Proof.
  apply (targets_follow_from_or_join (lit "SELECT * FROM AP_HOLDS_ALL h")
           (lit "AP_HOLDS_ALL")).
  vm_compute. left. reflexivity.
Defined.

Lemma order_clause_shape_witness :
  exists kw1 ws kw2 tl,
    slice 27 (27 + 18) (lit "SELECT * FROM AP_HOLDS_ALL order by HOLD_DATE; x")
      = kw1 ++ ws ++ kw2 ++ tl /\
    map lower_az kw1 = lit "order" /\
    ws <> [] /\ forallb isspace ws = true /\
    map lower_az kw2 = lit "by" /\
    forallb order_char tl = true.
Proof.
  apply (order_clause_shape
           (lit "SELECT * FROM AP_HOLDS_ALL order by HOLD_DATE; x") 27 18).
  vm_compute. reflexivity.
Defined.

(** ** No source schema in what is returned *)

Lemma schema_qualifier_chars (m : str) :
  schema_qualifier m -> m <> [] /\ forallb qualifier_char m = true.
Proof.
  intros (q1 & h & q2 & -> & Hq1 & Hq2 & Hh).
  assert (Hh' : forallb qualifier_char h = true).
  { rewrite forallb_forall. intros c Hc. unfold qualifier_char.
    apply orb_true_iff. right. apply existsb_exists.
    exists (lower_az c). split; [|now apply eqc_eq].
    rewrite <- Hh. now apply in_map. }
  split.
  - destruct h as [|c h]; [discriminate|].
    destruct q1; discriminate.
  - rewrite !forallb_app, Hh'.
    destruct Hq1 as [->| ->], Hq2 as [->| ->]; reflexivity.
Qed.

Lemma qualifier_app_inv (a b : str) :
  qualifier_seam a b -> has_source_qualifier (a ++ b) ->
  has_source_qualifier a \/ has_source_qualifier b.
Proof.
  intros Hs (pre & m & post & E & Hm).
  destruct (schema_qualifier_chars _ Hm) as [Hne Hall].
  rewrite forallb_forall in Hall.
  assert (Last : forall x l, l <> [] -> (exists l2, m = l ++ l2) ->
            exists c, last_char (x ++ l) = Some c /\ qualifier_char c = true).
  { intros x l Hl (l2 & El). rewrite last_char_app_nonempty by assumption.
    unfold last_char. destruct (rev l) as [|c r] eqn:Er.
    - apply (f_equal (@rev ascii)) in Er. rewrite rev_involutive in Er.
      contradiction.
    - exists c. split; [reflexivity|]. apply Hall. rewrite El.
      apply in_or_app. left. apply in_rev. rewrite Er. now left. }
  apply app_eq_app in E as (l & [[Ea Eb]|[Ea Eb]]).
  - apply app_eq_app in Eb as (l2 & [[Em Eb]|[El Ep]]).
    + (* the qualifier starts in [a] and its dot is in [b] *)
      destruct l as [|c0 l'].
      { right. exists [], m, post. cbn [app] in Em. subst l2.
        split; [exact Eb|exact Hm]. }
      exfalso.
      destruct (Last pre (c0 :: l') ltac:(discriminate) (ex_intro _ l2 Em))
        as (c & Hc & Hq).
      rewrite <- Ea in Hc. destruct Hs as [Hs|Hs].
      * rewrite (Hs c Hc) in Hq. discriminate.
      * rewrite Eb in Hs. destruct l2 as [|c2 l2'].
        -- destruct (Hs "."%char eq_refl) as [_ K]. discriminate.
        -- destruct (Hs c2 eq_refl) as [K _].
           rewrite Hall in K; [discriminate|]. rewrite Em.
           apply in_or_app. right. now left.
    + destruct l2 as [|c2 l2'].
      * (* the qualifier ends [a] and its dot starts [b] *)
        exfalso. cbn [app] in Ep. rewrite app_nil_r in El.
        destruct (Last pre m Hne (ex_intro _ [] (eq_sym (app_nil_r m))))
          as (c & Hc & Hq).
        rewrite <- El, <- Ea in Hc. destruct Hs as [Hs|Hs].
        -- rewrite (Hs c Hc) in Hq. discriminate.
        -- rewrite <- Ep in Hs. destruct (Hs "."%char eq_refl) as [_ K].
           discriminate.
      * left. cbn [app] in Ep. injection Ep as <- Ep.
        exists pre, m, l2'. split; [|assumption].
        now rewrite Ea, El.
  - right. exists l, m, post. now split.
Qed.

Lemma qualifier_infix (a b c : str) :
  ~ has_source_qualifier (a ++ b ++ c) -> ~ has_source_qualifier b.
Proof.
  intros H (pre & m & post & -> & Hm). apply H.
  exists (a ++ pre), m, (post ++ c). split; [|assumption].
  repeat rewrite <- app_assoc. cbn [app]. repeat rewrite <- app_assoc.
  reflexivity.
Qed.

Lemma qualifier_needs_dot (s : str) :
  forallb not_dot s = true -> ~ has_source_qualifier s.
Proof.
  intros H (pre & m & post & -> & _).
  rewrite !forallb_app in H. cbn [forallb] in H.
  apply andb_true_iff in H as [_ H]. apply andb_true_iff in H as [_ H].
  apply andb_true_iff in H as [H _]. discriminate.
Qed.

Lemma qualifier_app (a b : str) :
  qualifier_seam a b ->
  ~ has_source_qualifier a -> ~ has_source_qualifier b ->
  ~ has_source_qualifier (a ++ b).
Proof.
  intros Hs Ha Hb H. destruct (qualifier_app_inv a b Hs H); contradiction.
Qed.

Lemma qualifier_firstn (s : str) (i : nat) :
  ~ has_source_qualifier s -> ~ has_source_qualifier (firstn i s).
Proof.
  intros H. apply (qualifier_infix [] (firstn i s) (skipn i s)).
  cbn [app]. now rewrite firstn_skipn.
Qed.

Lemma qualifier_skipn (s : str) (i : nat) :
  ~ has_source_qualifier s -> ~ has_source_qualifier (skipn i s).
Proof.
  intros H. apply (qualifier_infix (firstn i s) (skipn i s) []).
  now rewrite app_nil_r, firstn_skipn.
Qed.

Lemma qualifier_slice (s : str) (i j : nat) :
  ~ has_source_qualifier s -> ~ has_source_qualifier (slice i j s).
Proof.
  intros H. unfold slice. now apply qualifier_firstn, qualifier_skipn.
Qed.

Lemma qualifier_strip (s : str) :
  ~ has_source_qualifier s -> ~ has_source_qualifier (strip s).
Proof.
  destruct (strip_decompose s) as (l & r & E & _). intros H.
  rewrite E in H. now apply qualifier_infix in H.
Qed.

Lemma space_seam_l (a b : str) : qualifier_seam (a ++ lit " ") b.
Proof.
  left. intros c. change (lit " ") with [" "%char].
  rewrite last_char_app. intros H. now injection H as <-.
Qed.

Lemma space_seam_r (a b : str) : qualifier_seam a (lit " " ++ b).
Proof.
  right. intros c H. injection H as <-. split; reflexivity.
Qed.

Lemma qualifier_join (parts : list str) :
  Forall (fun p => ~ has_source_qualifier p) parts ->
  ~ has_source_qualifier (join (lit " ") parts).
Proof.
  induction 1 as [|p parts Hp _ IH]; cbn [join].
  - now apply qualifier_needs_dot.
  - destruct parts as [|p' parts]; [assumption|].
    apply qualifier_app; [apply space_seam_r|assumption|].
    apply qualifier_app; [apply (space_seam_l [])| |exact IH].
    now apply qualifier_needs_dot.
Qed.

Lemma qualifier_inject_where (s : str) :
  ~ has_source_qualifier s -> ~ has_source_qualifier (inject_where s).
Proof.
  intros Hs. unfold inject_where, Re.found, Re.sub1.
  destruct (Re.search where_re s) as [[i n]|].
  - apply qualifier_app.
    + right. cbn. intros c H. injection H as <-. split; reflexivity.
    + now apply qualifier_firstn.
    + apply qualifier_app.
      * left. intros c H. vm_compute in H. injection H as <-. reflexivity.
      * now apply qualifier_needs_dot.
      * now apply qualifier_skipn.
  - apply qualifier_app; [apply space_seam_r|assumption|].
    now apply qualifier_needs_dot.
Qed.

Lemma qualifier_finish (s : str) :
  ~ has_source_qualifier s -> ~ has_source_qualifier (finish s).
Proof.
  intros Hs. rewrite finish_unfold. unfold assemble.
  assert (H1 : ~ has_source_qualifier (fst (split_fetch s))).
  { unfold split_fetch. destruct (Re.search fetch_re s) as [[i n]|];
      cbn [fst]; [now apply qualifier_strip, qualifier_firstn|assumption]. }
  assert (Hf : ~ has_source_qualifier (fix_fetch (snd (split_fetch s)))).
  { unfold fix_fetch. destruct (negb _); [now apply qualifier_needs_dot|].
    unfold split_fetch. destruct (Re.search fetch_re s) as [[i n]|];
      cbn [snd]; [now apply qualifier_strip, qualifier_slice|].
    now apply qualifier_needs_dot. }
  set (s1 := fst (split_fetch s)) in *.
  assert (H2 : ~ has_source_qualifier (fst (split_order s1))).
  { unfold split_order. destruct (Re.search order_re s1) as [[i n]|];
      cbn [fst]; [now apply qualifier_strip, qualifier_firstn|assumption]. }
  assert (Ho : ~ has_source_qualifier (fix_order (snd (split_order s1)))).
  { unfold fix_order. destruct (_ && _); [now apply qualifier_needs_dot|].
    unfold split_order. destruct (Re.search order_re s1) as [[i n]|];
      cbn [snd]; [now apply qualifier_strip, qualifier_slice|].
    now apply qualifier_needs_dot. }
  apply qualifier_strip, qualifier_join.
  apply (@incl_Forall _ _ [strip (inject_where (fst (split_order s1)));
                           fix_order (snd (split_order s1));
                           fix_fetch (snd (split_fetch s))]).
  - intros x Hx. now apply filter_In in Hx as [? _].
  - repeat constructor; auto.
    now apply qualifier_strip, qualifier_inject_where.
Qed.

(** X22.  When the target schema is not empty, has neither dot nor
    backslash in its name and ends neither in 5 nor in a double quote,
    no statement the sanitizer returns names
    the source schema as a qualifier: the rewrite took every one, and
    nothing after it brings one back. *)
Theorem returned_statement_has_no_source_qualifier (v sql q : str) :
  template_literal (Some v) = true ->
  settled_target (Some v) = true -> v <> [] ->
  clean_sql (Some v) sql = Return q ->
  ~ has_source_qualifier q.
Proof.
  intros HT Hv Hne H. apply (clean_sql_return _ _ _ HT) in H as (_ & _ & _ & ->).
  apply qualifier_finish. intros (pre & m & post & E & Hm).
  unfold prepare, adjust_schema in E. destruct v as [|c v']; [contradiction|].
  cbn [truthy] in E. unfold Re.sub in E.
  cbn [settled_target] in Hv. apply andb_true_iff in Hv as [Hd Hl].
  assert (Free : qualifier_free
            (Re.sub_from schema_re ((c :: v') ++ lit ".") 0 None
               (strip_fence (strip sql)))).
  { apply (sub_qualifier_free (c :: v') ltac:(discriminate) Hd) with (w := []).
    - intros z Hz. rewrite Hz in Hl. apply andb_true_iff in Hl as [H5 Hq].
      apply negb_true_iff in H5, Hq. split; intros ->; discriminate.
    - reflexivity.
    - intros j Hj. inversion Hj. }
  specialize (Free (length pre)). rewrite E in Free.
  rewrite skipn_app, skipn_all, Nat.sub_diag in Free. cbn [skipn app] in Free.
  rewrite (schema_re_complete None m post Hm) in Free.
  assert (length pre <= length (pre ++ m ++ "."%char :: post))
    by (rewrite length_app; lia).
  specialize (Free H). discriminate.
Qed.

Lemma returned_statement_has_no_source_qualifier_witness :
  ~ has_source_qualifier
      (finish (prepare APPS (lit "SELECT * FROM hol_agent_05.AP_HOLDS_ALL"))).
Proof.
  apply (returned_statement_has_no_source_qualifier (lit "APPS")
           (lit "SELECT * FROM hol_agent_05.AP_HOLDS_ALL") _
           eq_refl eq_refl ltac:(discriminate)).
  vm_compute. reflexivity.
Defined.
